(** * teamcity-parser: the Kotlin-DSL converter ([converter.py]) in Rocq

    A shallow embedding of the parsing pipeline of [converter.py] and the
    properties of it that the design document states.

    Conventions of the embedding.
    - A Python [str] is a [list ascii]; a character is read as a code point
      in the range 0..255.
    - A Python [dict] with literal keys (the records the parser builds) is an
      insertion-ordered association list; the registry [objects], which is
      only ever looked up by key, is a [gmap].
    - The [{'id': ...}] dicts built by the list comprehensions are mutated in
      place by [map_project] and shared between the registry and the tree, so
      they live in a heap (a list of dicts indexed by allocation order); a
      list of such dicts is a list of heap locations.
    - Regular expressions are a small syntax tree interpreted by a
      backtracking matcher with the priorities of Python's [re].
    - The recursion limit of the interpreter is a parameter: [fuel] counts
      the nested calls of [map_project] it still allows, and a call made
      when none is left ends in [RecursionError]. *)

From Stdlib Require Import Ascii String ZArith Lia.
From stdpp Require Import base option list gmap strings.

Set Warnings "-register-all".
Open Scope list_scope.
Open Scope nat_scope.

(** ** Text *)

Abbreviation text := (list ascii).

Definition txt (s : string) : text := list_ascii_of_string s.

(** The double quote and the two braces. *)
Definition dq : ascii := "034"%char.
Definition lbrace : ascii := "{"%char.
Definition rbrace : ascii := "}"%char.

(** [str.isspace] / [\s] for a [str] pattern, on code points below 256:
    TAB..CR, FS..US, SPACE, NEL (0x85) and NBSP (0xA0). *)
Definition is_space (c : ascii) : bool :=
  let n := nat_of_ascii c in
  ((9 <=? n) && (n <=? 13)) || ((28 <=? n) && (n <=? 32))
  || (n =? 133) || (n =? 160).

(** [\w] for a [str] pattern, on code points below 256: [str.isalnum] or
    the underscore. *)
Definition is_word (c : ascii) : bool :=
  let n := nat_of_ascii c in
  ((48 <=? n) && (n <=? 57)) || ((65 <=? n) && (n <=? 90)) || (n =? 95)
  || ((97 <=? n) && (n <=? 122))
  || (n =? 170) || (n =? 178) || (n =? 179) || (n =? 181) || (n =? 185)
  || (n =? 186) || ((188 <=? n) && (n <=? 190))
  || ((192 <=? n) && (n <=? 214)) || ((216 <=? n) && (n <=? 246))
  || (248 <=? n).

Definition not_char (a : ascii) (c : ascii) : bool := negb (Ascii.eqb c a).
Definition any_char (c : ascii) : bool := true.

(** [s[a:b]] for [0 <= a] and [0 <= b]. *)
Definition slice (s : text) (a b : nat) : text := take (b - a) (drop a s).

(** [s[1:-1]]. *)
Definition slice_1_m1 (s : text) : text := slice s 1 (length s - 1).

(** [s.strip()]. *)
Fixpoint lstrip (s : text) : text :=
  match s with
  | c :: s' => if is_space c then lstrip s' else s
  | [] => []
  end.

Definition rstrip (s : text) : text := rev (lstrip (rev s)).

Definition strip (s : text) : text := rstrip (lstrip s).

(** ** Regular expressions

    The patterns of [converter.py] only repeat single-character classes, so
    the repetition constructors take a class. *)

Inductive regex : Type :=
| Lit (l : text)                    (* literal characters *)
| Cls (p : ascii -> bool)           (* one character of a class *)
| Star (p : ascii -> bool)          (* [p*], greedy *)
| LazyStar (p : ascii -> bool)      (* [p*?] *)
| Alt (r1 r2 : regex)               (* [r1|r2] *)
| Cat (r1 r2 : regex)               (* [r1 r2] *)
| Group (r : regex).                (* [(r)], numbered in order *)

(** [p+] *)
Definition Plus (p : ascii -> bool) : regex := Cat (Cls p) (Star p).

Declare Scope regex_scope.
Delimit Scope regex_scope with re.
Bind Scope regex_scope with regex.
Notation "r1 ⋅ r2" := (Cat r1 r2) (at level 41, right associativity) : regex_scope.
Notation "'ws*'" := (Star is_space) : regex_scope.
Notation "'ws+'" := (Plus is_space) : regex_scope.

Section Matcher.
Context {A : Type}.

Fixpoint strip_prefix (l s : text) : option text :=
  match l, s with
  | [], _ => Some s
  | a :: l', c :: s' => if Ascii.eqb a c then strip_prefix l' s' else None
  | _ :: _, [] => None
  end.

(** Greedy repetition: take one more character first, give it back when
    the continuation fails. *)
Fixpoint star_greedy (p : ascii -> bool) (k : text -> option A) (s : text)
  : option A :=
  match s with
  | c :: s' =>
      if p c then
        match star_greedy p k s' with
        | Some a => Some a
        | None => k s
        end
      else k s
  | [] => k s
  end.

(** Lazy repetition: try the continuation first. *)
Fixpoint star_lazy (p : ascii -> bool) (k : text -> option A) (s : text)
  : option A :=
  match k s with
  | Some a => Some a
  | None =>
      match s with
      | c :: s' => if p c then star_lazy p k s' else None
      | [] => None
      end
  end.

(** [rmatch r s caps k]: match [r] at the head of [s]; [caps] are the
    groups closed so far, [k] is what must match afterwards. *)
Fixpoint rmatch (r : regex) (s : text) (caps : list text)
    (k : text -> list text -> option A) : option A :=
  match r with
  | Lit l =>
      match strip_prefix l s with
      | Some s' => k s' caps
      | None => None
      end
  | Cls p =>
      match s with
      | c :: s' => if p c then k s' caps else None
      | [] => None
      end
  | Star p => star_greedy p (fun s' => k s' caps) s
  | LazyStar p => star_lazy p (fun s' => k s' caps) s
  | Alt r1 r2 =>
      match rmatch r1 s caps k with
      | Some a => Some a
      | None => rmatch r2 s caps k
      end
  | Cat r1 r2 => rmatch r1 s caps (fun s' caps' => rmatch r2 s' caps' k)
  | Group r1 =>
      rmatch r1 s caps
        (fun s' caps' => k s' (caps' ++ [take (length s - length s') s]))
  end.
End Matcher.

(** A match object: [m.start()], [m.end()] and the groups 1, 2, ... *)
Record rematch : Type := MkMatch {
  m_start : nat;
  m_end : nat;
  m_groups : list text
}.

(** [m.group(n)] for [n >= 1]. *)
Definition group (n : nat) (m : rematch) : text := nth (n - 1) (m_groups m) [].

Definition match_here (r : regex) (s : text) : option (text * list text) :=
  rmatch r s [] (fun s' caps => Some (s', caps)).

(** Leftmost match in [s], which is the input from position [pos] on. *)
Fixpoint search_at (r : regex) (s : text) (pos : nat) : option rematch :=
  match match_here r s with
  | Some (s', caps) => Some (MkMatch pos (pos + (length s - length s')) caps)
  | None =>
      match s with
      | [] => None
      | _ :: s' => search_at r s' (S pos)
      end
  end.

(** [re.search(r, s)] *)
Definition re_search (r : regex) (s : text) : option rematch := search_at r s 0.

(** [re.finditer(r, s)]: successive non-overlapping matches, until the
    position passes the end of the input. The scan resumes where the
    previous match ended. No pattern of [converter.py] matches the empty
    string; for one that did, the model moves one character on after an
    empty match. Every round consumes a character, so [S (length s)] rounds
    exhaust the input. *)
Fixpoint finditer_from (n : nat) (r : regex) (s : text) (pos : nat)
  : list rematch :=
  match n with
  | 0 => []
  | S n' =>
      if length s <? pos then []
      else
        match search_at r (drop pos s) pos with
        | None => []
        | Some m =>
            m :: finditer_from n' r s
                   (if m_end m =? m_start m then S (m_end m) else m_end m)
        end
  end.

Definition re_finditer (r : regex) (s : text) : list rematch :=
  finditer_from (S (length s)) r s 0.

(** [re.findall] for a pattern with one group, and with two. *)
Definition re_findall1 (r : regex) (s : text) : list text :=
  map (group 1) (re_finditer r s).

Definition re_findall2 (r : regex) (s : text) : list (text * text) :=
  map (fun m => (group 1 m, group 2 m)) (re_finditer r s).

(** ** The balanced-region extractor *)

(** The loop of [extract_balanced]: [s] is what remains of [text[start:]],
    [i] the index of its head, [level] the running depth. The result is the
    index [i] at which the function returns. *)
Fixpoint scan_balanced (s : text) (level : Z) (i : nat) : option nat :=
  match s with
  | [] => None
  | c :: s' =>
      if Ascii.eqb c lbrace then scan_balanced s' (level + 1) (S i)
      else if Ascii.eqb c rbrace then
        let level := (level - 1)%Z in
        if (level =? 0)%Z then Some i else scan_balanced s' level (S i)
      else scan_balanced s' level (S i)
  end.

Definition extract_balanced (t : text) (start : nat) : text :=
  match scan_balanced (drop start t) 0 start with
  | Some i => slice t start (i + 1)
  | None => []
  end.

(** ** Values, records and the heap *)

(** What a key of a record can hold. [VRefs] is a list whose elements are
    mutable [{'id': ...}] dicts, given by their heap locations. *)
Inductive value : Type :=
| VStr (s : text)
| VBool (b : bool)
| VList (l : list value)
| VDict (d : list (string * value))
| VRefs (ls : list nat).

Abbreviation dict := (list (string * value)).

(** [d.get(k)] / [k in d] *)
Fixpoint dict_get (k : string) (d : dict) : option value :=
  match d with
  | [] => None
  | (k', v) :: d' => if String.eqb k k' then Some v else dict_get k d'
  end.

(** [d[k] = v]: an existing key keeps its place. *)
Fixpoint dict_set (k : string) (v : value) (d : dict) : dict :=
  match d with
  | [] => [(k, v)]
  | (k', v') :: d' =>
      if String.eqb k k' then (k', v) :: d' else (k', v') :: dict_set k v d'
  end.

(** [d.update(o)] *)
Definition dict_update (d o : dict) : dict :=
  fold_left (fun acc kv => dict_set (fst kv) (snd kv) acc) o d.

Abbreviation heap := (list dict).

Definition cell (h : heap) (l : nat) : dict := h !!! l.

(** [h[l][k] = v] *)
Definition set_item (h : heap) (l : nat) (k : string) (v : value) : heap :=
  <[l := dict_set k v (cell h l)]> h.

(** [[{'id': x.strip()} for x in xs]]: the new dicts take the next free
    locations. *)
Definition alloc_refs (xs : list text) (h : heap) : list nat * heap :=
  (seq (length h) (length xs),
   h ++ map (fun x => [("id"%string, VStr (strip x))]) xs).

(** ** Outcomes of the stateful part *)

Inductive pyexn : Type := KeyError | TypeError.

(** [Raise] is one of the two exceptions the dict operations of
    [map_project] could raise. [RecursionError] is the exception Python
    raises when the calls of [map_project] nest deeper than the recursion
    limit of the interpreter allows. [converter.py] catches neither. *)
Inductive result (A : Type) : Type :=
| Ret (a : A)
| Raise (e : pyexn)
| RecursionError.
Arguments Ret {A} a.
Arguments Raise {A} e.
Arguments RecursionError {A}.

Definition bind {A B} (m : result A) (f : A -> result B) : result B :=
  match m with
  | Ret a => f a
  | Raise e => Raise e
  | RecursionError => RecursionError
  end.

Notation "'let*' x ':=' m 'in' f" := (bind m (fun x => f))
  (at level 10, x name, m at level 100, f at level 200, only parsing).

(** [for x in xs: h = body(x, h)] *)
Fixpoint for_each {X} (body : X -> heap -> result heap) (xs : list X)
    (h : heap) : result heap :=
  match xs with
  | [] => Ret h
  | x :: xs' => let* h' := body x h in for_each body xs' h'
  end.

(** ** The patterns of [converter.py]

    In the comments [Q] stands for the double-quote character of the
    Python pattern. *)

Section Patterns.
Local Open Scope regex_scope.
Variable f : string.

(** [f\s*=\s*Q([^Q]+)Q] *)
Definition quoted_field : regex :=
  Lit (txt f) ⋅ ws* ⋅ Lit (txt "=") ⋅ ws* ⋅ Lit [dq]
  ⋅ Group (Plus (not_char dq)) ⋅ Lit [dq].

(** [f\s*=\s*(true|false)] *)
Definition bool_field : regex :=
  Lit (txt f) ⋅ ws* ⋅ Lit (txt "=") ⋅ ws*
  ⋅ Group (Alt (Lit (txt "true")) (Lit (txt "false"))).

(** [f\s*=\s*QQQ([^Q]+)QQQ] *)
Definition triple_plus : regex :=
  Lit (txt f) ⋅ ws* ⋅ Lit (txt "=") ⋅ ws* ⋅ Lit [dq; dq; dq]
  ⋅ Group (Plus (not_char dq)) ⋅ Lit [dq; dq; dq].

(** [f\s*=\s*QQQ(G)QQQ] with [G = [^Q]*] *)
Definition triple_star : regex :=
  Lit (txt f) ⋅ ws* ⋅ Lit (txt "=") ⋅ ws* ⋅ Lit [dq; dq; dq]
  ⋅ Group (Star (not_char dq)) ⋅ Lit [dq; dq; dq].

(** [f\s*=\s*QQQ(.*?)QQQ] with [re.DOTALL] *)
Definition triple_lazy : regex :=
  Lit (txt f) ⋅ ws* ⋅ Lit (txt "=") ⋅ ws* ⋅ Lit [dq; dq; dq]
  ⋅ Group (LazyStar any_char) ⋅ Lit [dq; dq; dq].

(** [f\(([^)]+)\)] *)
Definition call_arg : regex :=
  Lit (txt f) ⋅ Lit (txt "(") ⋅ Group (Plus (not_char ")")) ⋅ Lit (txt ")").

(** [f\s*\{] *)
Definition block_open : regex := Lit (txt f) ⋅ ws* ⋅ Lit [lbrace].

(** [f\s*\{([^}]+)\}] *)
Definition block_plus : regex :=
  Lit (txt f) ⋅ ws* ⋅ Lit [lbrace] ⋅ Group (Plus (not_char rbrace))
  ⋅ Lit [rbrace].

(** [f\s*\{(G)\}] with [G = [^}]*] *)
Definition block_star : regex :=
  Lit (txt f) ⋅ ws* ⋅ Lit [lbrace] ⋅ Group (Star (not_char rbrace))
  ⋅ Lit [rbrace].

(** [f\(Q([^Q]+)Q\s*,\s*Q([^Q]+)Q] *)
Definition pair_open : regex :=
  Lit (txt f) ⋅ Lit (txt "(") ⋅ Lit [dq] ⋅ Group (Plus (not_char dq))
  ⋅ Lit [dq] ⋅ ws* ⋅ Lit (txt ",") ⋅ ws* ⋅ Lit [dq]
  ⋅ Group (Plus (not_char dq)) ⋅ Lit [dq].

(** [f\(Q([^Q]+)Q\s*,\s*Q([^Q]+)Q\)] *)
Definition pair_call : regex := pair_open ⋅ Lit (txt ")").
End Patterns.

Local Open Scope regex_scope.

(** [object\s+(\w+)\s*:\s*(\w+)\(\{] *)
Definition object_re : regex :=
  Lit (txt "object") ⋅ ws+ ⋅ Group (Plus is_word) ⋅ ws* ⋅ Lit (txt ":") ⋅ ws*
  ⋅ Group (Plus is_word) ⋅ Lit (txt "(") ⋅ Lit [lbrace].

(** [command\s*=\s*script\s*\{([^}]+)\}] *)
Definition command_re : regex :=
  Lit (txt "command") ⋅ ws* ⋅ Lit (txt "=") ⋅ ws* ⋅ block_plus "script".

(** [scriptMode\s*=\s*script\s*\{] *)
Definition script_mode_re : regex :=
  Lit (txt "scriptMode") ⋅ ws* ⋅ Lit (txt "=") ⋅ ws* ⋅ block_open "script".

(** [executionMode\s*=\s*BuildStep\.ExecutionMode\.(\w+)] *)
Definition execution_mode_re : regex :=
  Lit (txt "executionMode") ⋅ ws* ⋅ Lit (txt "=") ⋅ ws*
  ⋅ Lit (txt "BuildStep.ExecutionMode.") ⋅ Group (Plus is_word).

Local Close Scope regex_scope.

(** ** Block decoders *)

Local Open Scope string_scope.

(** The records [{"type": t, "property": p, "value": v}] of a conditions
    block and [{"type": t, "name": k, "value": v}] of a params block. *)
Definition condition_record (t : string) (pv : text * text) : value :=
  VDict [("type", VStr (txt t)); ("property", VStr (fst pv));
         ("value", VStr (snd pv))].

Definition param_record (t : string) (kv : text * text) : value :=
  VDict [("type", VStr (txt t)); ("name", VStr (fst kv));
         ("value", VStr (snd kv))].

Definition parse_script_step (content : text) : dict :=
  let step := [("type", VStr (txt "script"))] in
  let step :=
    match re_search (quoted_field "name") content with
    | Some m => dict_set "name" (VStr (group 1 m)) step
    | None => step
    end in
  let step :=
    match re_search (quoted_field "id") content with
    | Some m => dict_set "id" (VStr (group 1 m)) step
    | None => step
    end in
  let step :=
    match re_search (bool_field "enabled") content with
    | Some m =>
        dict_set "enabled" (VBool (bool_decide (group 1 m = txt "true"))) step
    | None => step
    end in
  let step :=
    match re_search (quoted_field "workingDir") content with
    | Some m => dict_set "workingDir" (VStr (group 1 m)) step
    | None => step
    end in
  let step :=
    match re_search (triple_lazy "scriptContent") content with
    | Some m => dict_set "scriptContent" (VStr (strip (group 1 m))) step
    | None => step
    end in
  match re_search (block_star "conditions") content with
  | Some m =>
      let conditions_content := group 1 m in
      let conditions := [] in
      let conditions :=
        (conditions ++ map (condition_record "equals")
                        (re_findall2 (pair_call "equals") conditions_content))%list in
      let conditions :=
        (conditions ++ map (condition_record "contains")
                        (re_findall2 (pair_call "contains") conditions_content))%list in
      match conditions with
      | [] => step
      | _ :: _ => dict_set "conditions" (VList conditions) step
      end
  | None => step
  end.

Definition parse_python_step (content : text) : dict :=
  let step := [("type", VStr (txt "python"))] in
  let step :=
    match re_search (quoted_field "name") content with
    | Some m => dict_set "name" (VStr (group 1 m)) step
    | None => step
    end in
  let step :=
    match re_search (quoted_field "id") content with
    | Some m => dict_set "id" (VStr (group 1 m)) step
    | None => step
    end in
  match re_search command_re content with
  | Some m =>
      let command_content := group 1 m in
      match re_search (triple_star "content") command_content with
      | Some m' => dict_set "scriptContent" (VStr (strip (group 1 m'))) step
      | None => step
      end
  | None => step
  end.

Definition parse_powershell_step (content : text) : dict :=
  let step := [("type", VStr (txt "powershell"))] in
  let step :=
    match re_search (quoted_field "name") content with
    | Some m => dict_set "name" (VStr (group 1 m)) step
    | None => step
    end in
  let step :=
    match re_search (quoted_field "id") content with
    | Some m => dict_set "id" (VStr (group 1 m)) step
    | None => step
    end in
  let step :=
    match re_search script_mode_re content with
    | Some m =>
        let start := m_end m - 1 in
        let script_block := extract_balanced content start in
        match script_block with
        | [] => step
        | _ :: _ =>
            let script_content := slice_1_m1 script_block in
            match re_search (triple_lazy "content") script_content with
            | Some m' =>
                dict_set "scriptContent" (VStr (strip (group 1 m'))) step
            | None => step
            end
        end
    | None => step
    end in
  match re_search (block_star "conditions") content with
  | Some m =>
      let conditions_content := group 1 m in
      let conditions := [] in
      let conditions :=
        (conditions ++ map (condition_record "contains")
                        (re_findall2 (pair_call "contains") conditions_content))%list in
      match conditions with
      | [] => step
      | _ :: _ => dict_set "conditions" (VList conditions) step
      end
  | None => step
  end.

Definition parse_params (content : text) : list value :=
  let params := [] in
  let params :=
    (params ++ map (param_record "param") (re_findall2 (pair_open "param") content))%list in
  let params :=
    (params ++ map (param_record "select") (re_findall2 (pair_open "select") content))%list in
  let params :=
    (params ++ map (param_record "checkbox")
                (re_findall2 (pair_open "checkbox") content))%list in
  let params :=
    (params ++ map (param_record "text") (re_findall2 (pair_open "text") content))%list in
  params.

Definition parse_general_step (content : text) : dict :=
  let step := [] in
  let step :=
    match re_search (quoted_field "name") content with
    | Some m => dict_set "name" (VStr (group 1 m)) step
    | None => step
    end in
  let step :=
    match re_search (quoted_field "id") content with
    | Some m => dict_set "id" (VStr (group 1 m)) step
    | None => step
    end in
  let step :=
    match re_search (quoted_field "type") content with
    | Some m => dict_set "type" (VStr (group 1 m)) step
    | None => step
    end in
  let step :=
    match re_search (bool_field "enabled") content with
    | Some m =>
        dict_set "enabled" (VBool (bool_decide (group 1 m = txt "true"))) step
    | None => step
    end in
  let step :=
    match re_search execution_mode_re content with
    | Some m => dict_set "executionMode" (VStr (group 1 m)) step
    | None => step
    end in
  match re_search (block_star "params") content with
  | Some m => dict_set "params" (VList (parse_params (group 1 m))) step
  | None => step
  end.

Definition parse_kotlin_step (content : text) : dict :=
  let step := [("type", VStr (txt "kotlinScript"))] in
  let step :=
    match re_search (quoted_field "name") content with
    | Some m => dict_set "name" (VStr (group 1 m)) step
    | None => step
    end in
  let step :=
    match re_search (quoted_field "id") content with
    | Some m => dict_set "id" (VStr (group 1 m)) step
    | None => step
    end in
  let step :=
    match re_search (bool_field "enabled") content with
    | Some m =>
        dict_set "enabled" (VBool (bool_decide (group 1 m = txt "true"))) step
    | None => step
    end in
  match re_search (triple_star "content") content with
  | Some m => dict_set "content" (VStr (strip (group 1 m))) step
  | None => step
  end.

(** One [for match in re.finditer(kw\s*\{, content)] loop of [parse_steps]:
    every match whose balanced region is not empty appends one record. *)
Definition scan_steps (kw : string) (decode : text -> dict) (content : text)
    (steps : list value) : list value :=
  fold_left
    (fun steps m =>
       let start := m_end m - 1 in
       let block := extract_balanced content start in
       match block with
       | [] => steps
       | _ :: _ => (steps ++ [VDict (decode (slice_1_m1 block))])%list
       end)
    (re_finditer (block_open kw) content) steps.

Definition parse_steps (content : text) : list value :=
  let steps := [] in
  let steps := scan_steps "script" parse_script_step content steps in
  let steps := scan_steps "python" parse_python_step content steps in
  let steps := scan_steps "kotlinScript" parse_kotlin_step content steps in
  let steps := scan_steps "powerShell" parse_powershell_step content steps in
  let steps := scan_steps "step" parse_general_step content steps in
  steps.

(** [str(b).lower()] *)
Definition str_of_bool (b : bool) : text := if b then txt "True" else txt "False".

Definition lower_char (c : ascii) : ascii :=
  let n := nat_of_ascii c in
  if ((65 <=? n) && (n <=? 90))%nat then ascii_of_nat (n + 32) else c.

Definition lower (s : text) : text := map lower_char s.

Definition parse_triggers (content : text) : list value :=
  let vcs_matches := re_findall1 (block_star "vcs") content in
  map (fun vcs_content =>
         let trigger := [("type", VStr (txt "vcs"))] in
         let trigger :=
           match re_search (bool_field "enabled") vcs_content with
           | Some m =>
               dict_set "enabled"
                 (VStr (lower (str_of_bool
                                 (bool_decide (group 1 m = txt "true")))))
                 trigger
           | None => trigger
           end in
         VDict trigger)
      vcs_matches.

Definition parse_features (content : text) : list value :=
  map (fun _ => VDict [("type", VStr (txt "perfmon"))])
      (re_findall1 (block_star "perfmon") content).

Definition parse_vcs (content : text) : dict :=
  let vcs := [] in
  match re_search (call_arg "root") content with
  | Some m => dict_set "root" (VStr (strip (group 1 m))) vcs
  | None => vcs
  end.

Definition parse_build_type (content : text) : dict :=
  let bt := [] in
  let bt :=
    match re_search (quoted_field "name") content with
    | Some m => dict_set "name" (VStr (group 1 m)) bt
    | None => bt
    end in
  let bt :=
    match re_search (block_open "steps") content with
    | Some m =>
        let start := m_end m - 1 in
        let steps_block := extract_balanced content start in
        match steps_block with
        | [] => bt
        | _ :: _ =>
            let steps_content := slice_1_m1 steps_block in
            dict_set "steps" (VList (parse_steps steps_content)) bt
        end
    | None => bt
    end in
  let bt :=
    match re_search (block_plus "triggers") content with
    | Some m => dict_set "triggers" (VList (parse_triggers (group 1 m))) bt
    | None => bt
    end in
  let bt :=
    match re_search (block_plus "features") content with
    | Some m => dict_set "features" (VList (parse_features (group 1 m))) bt
    | None => bt
    end in
  let bt :=
    match re_search (block_plus "params") content with
    | Some m => dict_set "params" (VList (parse_params (group 1 m))) bt
    | None => bt
    end in
  let bt :=
    match re_search (block_plus "vcs") content with
    | Some m => dict_set "vcs" (VDict (parse_vcs (group 1 m))) bt
    | None => bt
    end in
  match re_search (triple_plus "artifactRules") content with
  | Some m => dict_set "artifactRules" (VStr (strip (group 1 m))) bt
  | None => bt
  end.

Definition parse_vcs_root (content : text) : dict :=
  let vcs := [] in
  let vcs :=
    match re_search (quoted_field "name") content with
    | Some m => dict_set "name" (VStr (group 1 m)) vcs
    | None => vcs
    end in
  let vcs :=
    match re_search (quoted_field "url") content with
    | Some m => dict_set "url" (VStr (group 1 m)) vcs
    | None => vcs
    end in
  match re_search (quoted_field "branch") content with
  | Some m => dict_set "branch" (VStr (group 1 m)) vcs
  | None => vcs
  end.

(** [parse_project] builds [{'id': ...}] dicts, so it threads the heap. *)
Definition parse_project (content : text) (h : heap) : dict * heap :=
  let proj := [] in
  let proj :=
    match re_search (quoted_field "name") content with
    | Some m => dict_set "name" (VStr (group 1 m)) proj
    | None => proj
    end in
  let '(proj, h) :=
    match re_findall1 (call_arg "buildType") content with
    | [] => (proj, h)
    | build_types =>
        let '(ls, h) := alloc_refs build_types h in
        (dict_set "buildTypes" (VRefs ls) proj, h)
    end in
  let '(proj, h) :=
    match re_findall1 (call_arg "subProject") content with
    | [] => (proj, h)
    | sub_projects =>
        let '(ls, h) := alloc_refs sub_projects h in
        (dict_set "subProjects" (VRefs ls) proj, h)
    end in
  match re_findall1 (call_arg "vcsRoot") content with
  | [] => (proj, h)
  | vcs_roots =>
      let '(ls, h) := alloc_refs vcs_roots h in
      (dict_set "vcsRoots" (VRefs ls) proj, h)
  end.

(** ** The registry and the project tree *)

(** The body of the loop over [re.finditer(object_re, content)] that fills
    [objects], and the loop. *)
Definition register_object (content : text) (st : gmap text dict * heap)
    (m : rematch) : gmap text dict * heap :=
  let '(objects, h) := st in
  let obj_name := group 1 m in
  let obj_type := group 2 m in
  let start := m_end m - 1 in
  let obj_content := extract_balanced content start in
  match obj_content with
  | [] => (objects, h)
  | _ :: _ =>
      let obj_content := slice_1_m1 obj_content in
      if decide (obj_type = txt "BuildType") then
        (<[obj_name := parse_build_type obj_content]> objects, h)
      else if decide (obj_type = txt "Project") then
        let '(proj, h) := parse_project obj_content h in
        (<[obj_name := proj]> objects, h)
      else if decide (obj_type = txt "GitVcsRoot") then
        (<[obj_name := parse_vcs_root obj_content]> objects, h)
      else if decide (obj_type = txt "Template") then
        (<[obj_name := parse_build_type obj_content]> objects, h)
      else (objects, h)
  end.

Definition register_objects (content : text) (h : heap)
    : gmap text dict * heap :=
  fold_left (register_object content) (re_finditer object_re content) (∅, h).

(** The body shared by the three loops of [map_project]:
    [if x['id'] in objects: x.update(objects[x['id']])]. A value of the
    registry is never [None], so the inner test always passes. The keys of
    the registry are strings: a boolean is in no registry, a list or a dict
    cannot be looked up at all. The result tells whether the update took
    place. *)
Definition merge_ref (objects : gmap text dict) (l : nat) (h : heap)
    : result (bool * heap) :=
  match dict_get "id" (cell h l) with
  | None => Raise KeyError
  | Some (VStr x) =>
      match objects !! x with
      | Some obj => Ret (true, <[l := dict_update (cell h l) obj]> h)
      | None => Ret (false, h)
      end
  | Some (VBool _) => Ret (false, h)
  | Some _ => Raise TypeError
  end.

(** [for x in proj[key]: body], when [key in proj]. *)
Definition for_refs (key : string) (body : nat -> heap -> result heap)
    (proj : nat) (h : heap) : result heap :=
  match dict_get key (cell h proj) with
  | None => Ret h
  | Some (VRefs ls) => for_each body ls h
  | Some _ => Raise TypeError
  end.

(** [map_project] with [fuel] nested calls still allowed: with none the
    call itself fails, otherwise the calls in the body have one less. *)
Fixpoint map_project (fuel : nat) (objects : gmap text dict) (proj : nat)
    (h : heap) : result heap :=
  match fuel with
  | 0 => RecursionError
  | S fuel' =>
      let* h :=
        for_refs "buildTypes"
          (fun bt h => let* r := merge_ref objects bt h in Ret (snd r))
          proj h in
      let* h :=
        for_refs "subProjects"
          (fun sp h =>
             let* r := merge_ref objects sp h in
             if fst r then map_project fuel' objects sp (snd r)
             else Ret (snd r))
          proj h in
      for_refs "vcsRoots"
        (fun vr h => let* r := merge_ref objects vr h in Ret (snd r))
        proj h
  end.

(** The returned [{'version': ..., 'project': ...}]: the version string and
    the location of the root project dict. *)
Record document : Type := MkDocument {
  version : text;
  project : nat
}.

(** [parse_kotlin_dsl] from the content of the file on, in two parts.
    [parse_kotlin_dsl_skeleton] is the body up to and including the loop
    that fills [objects]: it yields the document, the registry and the heap
    as they are when [map_project] is first called, or [None] where the
    function returns [None]. *)
Definition parse_kotlin_dsl_skeleton (content : text)
    : option (document * gmap text dict * heap) :=
  let version :=
    match re_search (quoted_field "version") content with
    | Some m => group 1 m
    | None => txt "2.1"
    end in
  match re_search (block_open "project") content with
  | None => None
  | Some project_match =>
      let start := m_end project_match - 1 in
      let project_block := extract_balanced content start in
      match project_block with
      | [] => None
      | _ :: _ =>
          let project_content := slice_1_m1 project_block in
          (* project = {'version': version, 'project': {}} *)
          let doc := MkDocument version 0 in
          let h : heap := [[]] in
          let h :=
            match re_search (quoted_field "description") project_content with
            | Some m => set_item h (project doc) "description" (VStr (group 1 m))
            | None => h
            end in
          let h :=
            match re_findall1 (call_arg "buildType") project_content with
            | [] => h
            | build_types =>
                let '(ls, h) := alloc_refs build_types h in
                set_item h (project doc) "buildTypes" (VRefs ls)
            end in
          let h :=
            match re_findall1 (call_arg "subProject") project_content with
            | [] => h
            | subprojects =>
                let '(ls, h) := alloc_refs subprojects h in
                set_item h (project doc) "subProjects" (VRefs ls)
            end in
          let h :=
            match re_findall1 (call_arg "vcsRoot") project_content with
            | [] => h
            | vcs_roots =>
                let '(ls, h) := alloc_refs vcs_roots h in
                set_item h (project doc) "vcsRoots" (VRefs ls)
            end in
          let h :=
            match re_search (block_plus "features") project_content with
            | Some m =>
                let features_content := group 1 m in
                match re_search (block_plus "githubConnection")
                        features_content with
                | Some _ =>
                    set_item h (project doc) "features"
                      (VList [VDict [("type", VStr (txt "githubConnection"))]])
                | None => h
                end
            | None => h
            end in
          let '(objects, h) := register_objects content h in
          Some (doc, objects, h)
      end
  end.

(** [fuel] is the number of nested calls of [map_project] that the
    recursion limit of the interpreter still allows when [parse_kotlin_dsl]
    makes the first one. *)
Definition parse_kotlin_dsl (fuel : nat) (content : text)
    : result (option (document * heap)) :=
  match parse_kotlin_dsl_skeleton content with
  | None => Ret None
  | Some (doc, objects, h) =>
      let* h := map_project fuel objects (project doc) h in
      Ret (Some (doc, h))
  end.

(** What [json.dumps] sees from a value on: every reference replaced by the
    dict it points to, to depth [n]. *)
Fixpoint snapshot (n : nat) (h : heap) (v : value) : option value :=
  match n with
  | 0 => None
  | S n' =>
      match v with
      | VRefs ls =>
          ds ← mapM (fun l => snapshot n' h (VDict (cell h l))) ls;
          Some (VList ds)
      | VDict d =>
          d' ← mapM (fun kv => v' ← snapshot n' h (snd kv); Some (fst kv, v')) d;
          Some (VDict d')
      | VList vs => vs' ← mapM (snapshot n' h) vs; Some (VList vs')
      | VStr _ | VBool _ => Some v
      end
  end.

Local Close Scope string_scope.

(** * Properties *)

(** ** The balanced-region extractor *)

(** Nesting depth of a piece of text: opening minus closing braces. *)
Definition brace_delta (c : ascii) : Z :=
  if Ascii.eqb c lbrace then 1 else if Ascii.eqb c rbrace then -1 else 0.

Fixpoint depth (s : text) : Z :=
  match s with
  | [] => 0
  | c :: s' => (brace_delta c + depth s')%Z
  end.

(** After [n] characters of [s] the depth is back at zero, for the first
    time. *)
Definition first_return (s : text) (n : nat) : Prop :=
  0 < n <= length s /\ depth (take n s) = 0%Z /\
  forall m, 0 < m < n -> depth (take m s) <> 0%Z.

Definition never_returns (s : text) : Prop :=
  forall n, 0 < n <= length s -> depth (take n s) <> 0%Z.

(** A region that opens with a brace, closes with the matching one and is
    balanced inside. *)
Definition balanced_region (r : text) : Prop :=
  exists mid, r = lbrace :: mid ++ [rbrace] /\ depth mid = 0%Z /\
    forall m, (0 <= depth (take m mid))%Z.

Lemma depth_app s1 s2 : depth (s1 ++ s2) = (depth s1 + depth s2)%Z.
Proof. induction s1 as [|c s1 IH]; simpl; [|rewrite IH]; lia. Qed.

Lemma depth_take_S s n c :
  s !! n = Some c -> depth (take (S n) s) = (depth (take n s) + depth [c])%Z.
Proof.
  intros H. rewrite (take_S_r _ _ _ H), depth_app. reflexivity.
Qed.

(** What the loop computes when it is entered below a positive level. *)
Lemma scan_balanced_spec s : forall (level : Z) (i : nat),
  (0 < level)%Z ->
  match scan_balanced s level i with
  | Some j =>
      exists n, j = i + n /\ s !! n = Some rbrace /\
        (level + depth (take (S n) s) = 0)%Z /\
        forall m, m <= n -> (0 < level + depth (take m s))%Z
  | None => forall m, (0 < level + depth (take m s))%Z
  end.
Proof.
  induction s as [|c s IH]; intros level i Hl; cbn [scan_balanced].
  - intros m. rewrite take_nil. simpl. lia.
  - assert (Hstep : forall lv,
        (0 < lv)%Z -> lv = (level + brace_delta c)%Z ->
        match scan_balanced s lv (S i) with
        | Some j =>
            exists n, j = i + n /\ (c :: s) !! n = Some rbrace /\
              (level + depth (take (S n) (c :: s)) = 0)%Z /\
              forall m, m <= n -> (0 < level + depth (take m (c :: s)))%Z
        | None => forall m, (0 < level + depth (take m (c :: s)))%Z
        end).
    { intros lv Hlv ->. specialize (IH _ (S i) Hlv).
      destruct (scan_balanced s (level + brace_delta c) (S i)) as [j|].
      - destruct IH as (n & -> & Hn & Hz & Hp).
        exists (S n). repeat split; [lia | exact Hn | |].
        + cbn [take firstn depth] in *. lia.
        + intros [|m] Hm; cbn [take firstn depth]; [lia|].
          specialize (Hp m ltac:(lia)). lia.
      - intros [|m]; cbn [take firstn depth]; [lia|]. specialize (IH m). lia. }
    unfold brace_delta in Hstep.
    destruct (Ascii.eqb c lbrace) eqn:Eo.
    + apply Hstep; lia.
    + destruct (Ascii.eqb c rbrace) eqn:Ec.
      * destruct (Z.eqb_spec (level - 1) 0) as [Hz|Hz].
        -- exists 0. repeat split; [lia | | |].
           ++ simpl. f_equal. now apply Ascii.eqb_eq.
           ++ cbn [take firstn depth]. unfold brace_delta.
              rewrite Eo, Ec, take_0. simpl. lia.
           ++ intros m Hm. replace m with 0 by lia. simpl. lia.
        -- apply Hstep; lia.
      * apply Hstep; lia.
Qed.

Lemma extract_balanced_cases t start :
  t !! start = Some lbrace ->
  let s := drop start t in
  (exists n, first_return s n /\ extract_balanced t start = take n s /\
             balanced_region (take n s))
  \/ (never_returns s /\ extract_balanced t start = []).
Proof.
  intros Hs s.
  assert (Es : s = lbrace :: drop (S start) t).
  { subst s. now apply drop_S. }
  unfold extract_balanced. fold s. rewrite Es. cbn [scan_balanced].
  change (Ascii.eqb lbrace lbrace) with true. cbn iota.
  set (s' := drop (S start) t) in *.
  pose proof (scan_balanced_spec s' 1%Z (S start) ltac:(lia)) as H.
  change (0 + 1)%Z with 1%Z.
  destruct (scan_balanced s' 1 (S start)) as [j|].
  - left. destruct H as (n & -> & Hn & Hz & Hp).
    assert (Hlen : n < length s') by (eapply lookup_lt_Some; eauto).
    exists (S (S n)). split; [|split].
    + repeat split.
      * lia.
      * simpl. lia.
      * cbn [take firstn depth]. change (brace_delta lbrace) with 1%Z. lia.
      * intros [|m] Hm; [lia|]. cbn [take firstn depth].
        change (brace_delta lbrace) with 1%Z.
        specialize (Hp m ltac:(lia)). lia.
    + unfold slice. rewrite <- Es. subst s. f_equal. lia.
    + exists (take n s'). split; [|split].
      * cbn [take firstn]. f_equal. now apply take_S_r.
      * rewrite (take_S_r _ _ _ Hn), depth_app in Hz.
        change (depth [rbrace]) with (-1)%Z in Hz. lia.
      * intros m. rewrite take_take.
        specialize (Hp (m `min` n) ltac:(lia)).
        assert (Hd : depth (take (S n) s') = (depth (take n s') - 1)%Z).
        { rewrite (take_S_r _ _ _ Hn), depth_app. reflexivity. }
        destruct (decide (m <= n)) as [Hmn|Hmn].
        -- replace (m `min` n) with m in * by lia.
           assert (m = n \/ m < n) as [->|Hlt] by lia; [lia|].
           (* the level stays at least 1 strictly inside *)
           lia.
        -- replace (m `min` n) with n in * by lia. lia.
  - right. split; [|reflexivity].
    intros [|m] Hm; [lia|]. cbn [take firstn depth].
    change (brace_delta lbrace) with 1%Z. specialize (H m). lia.
Qed.

(** ** What a pattern matches

    [matches r s caps]: the pattern [r] matches exactly the text [s], and
    [caps] are the texts of its groups, in order. *)
Inductive matches : regex -> text -> list text -> Prop :=
| M_Lit l : matches (Lit l) l []
| M_Cls p c : p c = true -> matches (Cls p) [c] []
| M_Star p s : Forall (fun c => p c = true) s -> matches (Star p) s []
| M_LazyStar p s : Forall (fun c => p c = true) s -> matches (LazyStar p) s []
| M_AltL r1 r2 s caps : matches r1 s caps -> matches (Alt r1 r2) s caps
| M_AltR r1 r2 s caps : matches r2 s caps -> matches (Alt r1 r2) s caps
| M_Cat r1 r2 s1 s2 c1 c2 :
    matches r1 s1 c1 -> matches r2 s2 c2 ->
    matches (Cat r1 r2) (s1 ++ s2) (c1 ++ c2)
| M_Group r s caps : matches r s caps -> matches (Group r) s (caps ++ [s]).

(** The pattern occurs somewhere in the text. *)
Definition occurs (r : regex) (t : text) : Prop :=
  exists pre mid post caps, t = pre ++ mid ++ post /\ matches r mid caps.

Section MatcherFacts.
Context {A : Type}.
Implicit Types (k : text -> option A) (s l : text).

Lemma strip_prefix_Some l s s' : strip_prefix l s = Some s' <-> s = l ++ s'.
Proof.
  revert s. induction l as [|a l IH]; intros s; simpl.
  - split; [intros [= ->] | intros ->]; reflexivity.
  - destruct s as [|c s]; [split; [discriminate | intros [=]]|].
    destruct (Ascii.eqb_spec a c) as [->|Hne].
    + rewrite IH. split; [intros -> | intros [= ->]]; reflexivity.
    + split; [discriminate | intros [= -> _]; congruence].
Qed.

Lemma star_greedy_Some p k s a :
  star_greedy p k s = Some a ->
  exists s1 s2, s = s1 ++ s2 /\ Forall (fun c => p c = true) s1 /\
                k s2 = Some a.
Proof.
  induction s as [|c s IH]; simpl; intros H.
  - exists [], []. auto.
  - destruct (p c) eqn:Hp; [|exists [], (c :: s); auto].
    destruct (star_greedy p k s) as [a'|] eqn:Hs.
    + injection H as ->. destruct (IH eq_refl) as (s1 & s2 & -> & Hf & Hk).
      exists (c :: s1), s2. auto.
    + exists [], (c :: s). auto.
Qed.

Lemma star_greedy_None p k s :
  star_greedy p k s = None ->
  forall s1 s2, s = s1 ++ s2 -> Forall (fun c => p c = true) s1 ->
                k s2 = None.
Proof.
  induction s as [|c s IH]; simpl; intros H s1 s2 E Hf.
  - symmetry in E. apply app_eq_nil in E as [-> ->]. exact H.
  - destruct s1 as [|c1 s1]; simpl in E.
    + subst s2. destruct (p c); [|exact H].
      destruct (star_greedy p k s); [discriminate | exact H].
    + injection E as <- ->. inversion_clear Hf as [|? ? Hc Hf'].
      rewrite Hc in H.
      destruct (star_greedy p k (s1 ++ s2)) eqn:Hs; [discriminate|].
      eapply IH; eauto.
Qed.

Lemma star_lazy_Some p k s a :
  star_lazy p k s = Some a ->
  exists s1 s2, s = s1 ++ s2 /\ Forall (fun c => p c = true) s1 /\
                k s2 = Some a.
Proof.
  induction s as [|c s IH]; simpl; intros H.
  - destruct (k []) eqn:Hk; [|discriminate]. injection H as ->.
    exists [], []. auto.
  - destruct (k (c :: s)) eqn:Hk; [injection H as ->; exists [], (c :: s); auto|].
    destruct (p c) eqn:Hp; [|discriminate].
    destruct (IH H) as (s1 & s2 & -> & Hf & Hk').
    exists (c :: s1), s2. auto.
Qed.

Lemma star_lazy_None p k s :
  star_lazy p k s = None ->
  forall s1 s2, s = s1 ++ s2 -> Forall (fun c => p c = true) s1 ->
                k s2 = None.
Proof.
  induction s as [|c s IH]; simpl; intros H s1 s2 E Hf.
  - symmetry in E. apply app_eq_nil in E as [-> ->].
    destruct (k []); [discriminate | reflexivity].
  - destruct (k (c :: s)) eqn:Hk; [discriminate|].
    destruct s1 as [|c1 s1]; simpl in E.
    + subst s2. exact Hk.
    + injection E as <- ->. inversion_clear Hf as [|? ? Hc Hf'].
      rewrite Hc in H. eapply IH; eauto.
Qed.
End MatcherFacts.

Lemma take_length_app_diff (s1 s2 : text) :
  take (length (s1 ++ s2) - length s2) (s1 ++ s2) = s1.
Proof.
  rewrite length_app. replace (length s1 + length s2 - length s2) with (length s1) by lia.
  apply take_app_length.
Qed.

(** The matcher is sound: a result comes from a match of the pattern
    followed by a success of the continuation. *)
Lemma rmatch_Some {A} r : forall s caps (k : text -> list text -> option A) a,
  rmatch r s caps k = Some a ->
  exists s1 s2 c1, s = s1 ++ s2 /\ matches r s1 c1 /\
                   k s2 (caps ++ c1) = Some a.
Proof.
  induction r as [l|p|p|p|r1 IH1 r2 IH2|r1 IH1 r2 IH2|r IH];
    intros s caps k a H; cbn [rmatch] in H.
  - destruct (strip_prefix l s) as [s'|] eqn:E; [|discriminate].
    apply strip_prefix_Some in E as ->.
    exists l, s', []. rewrite app_nil_r. repeat split; [constructor | exact H].
  - destruct s as [|c s]; [discriminate|].
    destruct (p c) eqn:Hp; [|discriminate].
    exists [c], s, []. rewrite app_nil_r. repeat split; [now constructor | exact H].
  - apply star_greedy_Some in H as (s1 & s2 & -> & Hf & Hk).
    exists s1, s2, []. rewrite app_nil_r. repeat split; [now constructor | exact Hk].
  - apply star_lazy_Some in H as (s1 & s2 & -> & Hf & Hk).
    exists s1, s2, []. rewrite app_nil_r. repeat split; [now constructor | exact Hk].
  - destruct (rmatch r1 s caps k) as [a'|] eqn:E.
    + injection H as ->. apply IH1 in E as (s1 & s2 & c1 & -> & Hm & Hk).
      exists s1, s2, c1. repeat split; [now apply M_AltL | exact Hk].
    + apply IH2 in H as (s1 & s2 & c1 & -> & Hm & Hk).
      exists s1, s2, c1. repeat split; [now apply M_AltR | exact Hk].
  - apply IH1 in H as (s1 & s2 & c1 & -> & Hm1 & H).
    apply IH2 in H as (s1' & s2' & c2 & -> & Hm2 & Hk).
    exists (s1 ++ s1'), s2', (c1 ++ c2).
    rewrite !app_assoc in *. repeat split; [now constructor | exact Hk].
  - apply IH in H as (s1 & s2 & c1 & -> & Hm & Hk).
    rewrite take_length_app_diff in Hk.
    exists s1, s2, (c1 ++ [s1]). rewrite app_assoc.
    repeat split; [now constructor | exact Hk].
Qed.

(** The matcher is complete: when it fails, the continuation fails after
    every match of the pattern. *)
Lemma rmatch_None {A} r : forall s caps (k : text -> list text -> option A),
  rmatch r s caps k = None ->
  forall s1 s2 c1, s = s1 ++ s2 -> matches r s1 c1 ->
                   k s2 (caps ++ c1) = None.
Proof.
  induction r as [l|p|p|p|r1 IH1 r2 IH2|r1 IH1 r2 IH2|r IH];
    intros s caps k H s1 s2 c1 -> Hm; cbn [rmatch] in H; inversion Hm; subst.
  - rewrite app_nil_r.
    destruct (strip_prefix s1 (s1 ++ s2)) as [s'|] eqn:E.
    + apply strip_prefix_Some, app_inv_head in E as <-. exact H.
    + assert (E' : strip_prefix s1 (s1 ++ s2) = Some s2)
        by now apply strip_prefix_Some.
      congruence.
  - rewrite app_nil_r. simpl in H.
    match goal with Hp : p _ = true |- _ => rewrite Hp in H end. exact H.
  - rewrite app_nil_r.
    eapply (star_greedy_None p (fun s' => k s' caps)); eauto.
  - rewrite app_nil_r.
    eapply (star_lazy_None p (fun s' => k s' caps)); eauto.
  - destruct (rmatch r1 (s1 ++ s2) caps k) eqn:E; [discriminate|].
    eapply IH1; eauto.
  - destruct (rmatch r1 (s1 ++ s2) caps k) eqn:E; [discriminate|].
    eapply IH2; eauto.
  - rewrite <- app_assoc in H.
    match goal with
    | H1 : matches r1 ?a ?ca, H2 : matches r2 ?b ?cb |- _ =>
        pose proof (IH1 _ _ _ H a (b ++ s2) ca eq_refl H1) as H';
        pose proof (IH2 _ _ _ H' b s2 cb eq_refl H2) as H''
    end.
    rewrite app_assoc. exact H''.
  - match goal with
    | H1 : matches r s1 ?ca |- _ =>
        pose proof (IH _ _ _ H s1 s2 ca eq_refl H1) as H'
    end.
    cbn beta in H'. rewrite take_length_app_diff in H'.
    rewrite app_assoc. exact H'.
Qed.

Lemma match_here_Some r s s' caps :
  match_here r s = Some (s', caps) ->
  exists s1, s = s1 ++ s' /\ matches r s1 caps.
Proof.
  intros H. apply rmatch_Some in H as (s1 & s2 & c1 & -> & Hm & [= <- <-]).
  now exists s1.
Qed.

Lemma match_here_None r s :
  match_here r s = None ->
  forall s1 s2 c, s = s1 ++ s2 -> ~ matches r s1 c.
Proof.
  intros H s1 s2 c E Hm.
  pose proof (rmatch_None r _ _ _ H s1 s2 c E Hm) as H'. discriminate.
Qed.

Lemma search_at_eq r s pos :
  search_at r s pos =
  match match_here r s with
  | Some (s', caps) => Some (MkMatch pos (pos + (length s - length s')) caps)
  | None =>
      match s with
      | [] => None
      | _ :: s' => search_at r s' (S pos)
      end
  end.
Proof. destruct s; reflexivity. Qed.

Lemma match_here_Some_len r s s' caps :
  match_here r s = Some (s', caps) ->
  exists s1, s = s1 ++ s' /\ matches r s1 caps /\
             length s - length s' = length s1.
Proof.
  intros H. apply match_here_Some in H as (s1 & -> & Hm).
  exists s1. repeat split; [exact Hm|]. rewrite length_app. lia.
Qed.

Lemma search_at_Some r s : forall pos m,
  search_at r s pos = Some m ->
  exists pre mid post,
    s = pre ++ mid ++ post /\ m_start m = pos + length pre /\
    m_end m = m_start m + length mid /\ matches r mid (m_groups m) /\
    forall pre' mid' post' c,
      s = pre' ++ mid' ++ post' -> matches r mid' c ->
      length pre <= length pre'.
Proof.
  induction s as [|c0 s IH]; intros pos m; rewrite search_at_eq.
  - destruct (match_here r []) as [[s' caps]|] eqn:E; [|discriminate].
    intros [= <-]. apply match_here_Some_len in E as (s1 & E & Hm & Hlen).
    exists [], s1, s'. cbn [app length m_start m_end m_groups] in *.
    repeat split; [exact E | lia | lia | exact Hm | lia].
  - destruct (match_here r (c0 :: s)) as [[s' caps]|] eqn:E.
    + intros [= <-]. apply match_here_Some_len in E as (s1 & E & Hm & Hlen).
      exists [], s1, s'. cbn [app length m_start m_end m_groups] in *.
      repeat split; [exact E | lia | lia | exact Hm | lia].
    + intros H. apply IH in H as (pre & mid & post & -> & Hs & He & Hm & Hl).
      exists (c0 :: pre), mid, post. cbn [length app].
      repeat split; [lia | lia | exact Hm |].
      intros [|c1 pre'] mid' post' c E' Hm'.
      * exfalso. exact (match_here_None _ _ E mid' post' c E' Hm').
      * injection E' as _ E'. cbn [length].
        specialize (Hl pre' mid' post' c E' Hm'). lia.
Qed.

Lemma search_at_None r s : forall pos,
  search_at r s pos = None <-> ~ occurs r s.
Proof.
  induction s as [|c0 s IH]; intros pos; rewrite search_at_eq.
  - destruct (match_here r []) as [[s' caps]|] eqn:E.
    + split; [discriminate|]. intros H. exfalso. apply H.
      apply match_here_Some in E as (s1 & E & Hm).
      now exists [], s1, s', caps.
    + split; [|reflexivity]. intros _ (pre & mid & post & c & E' & Hm).
      symmetry in E'. apply app_eq_nil in E' as [-> E'].
      symmetry in E'. exact (match_here_None _ _ E mid post c E' Hm).
  - destruct (match_here r (c0 :: s)) as [[s' caps]|] eqn:E.
    + split; [discriminate|]. intros H. exfalso. apply H.
      apply match_here_Some in E as (s1 & E & Hm).
      now exists [], s1, s', caps.
    + rewrite IH. split; intros H (pre & mid & post & c & E' & Hm); apply H.
      * destruct pre as [|c1 pre].
        -- exfalso. exact (match_here_None _ _ E mid post c E' Hm).
        -- injection E' as _ ->. now exists pre, mid, post, c.
      * subst s. now exists (c0 :: pre), mid, post, c.
Qed.

(** [re.search] returns the leftmost place where the pattern matches. *)
Lemma re_search_Some r t m :
  re_search r t = Some m ->
  exists pre mid post,
    t = pre ++ mid ++ post /\ m_start m = length pre /\
    m_end m = length pre + length mid /\ matches r mid (m_groups m).
Proof.
  intros H. apply search_at_Some in H as (pre & mid & post & E & Hs & He & Hm & _).
  exists pre, mid, post. simpl in Hs. repeat split; auto; lia.
Qed.

(** ... and finds nothing exactly when the pattern does not occur. *)
Lemma re_search_None r t : re_search r t = None <-> ~ occurs r t.
Proof. apply search_at_None. Qed.

(** ** C1 *)

(** C1. When [text[start]] is an opening brace, [extract_balanced] returns
    the slice from that brace through the closing brace at which the depth
    first returns to zero: it opens and closes with matching braces and is
    balanced inside. When the depth never returns to zero it returns the
    empty string. *)
Theorem extract_balanced_first_return (t : text) (start : nat) :
  t !! start = Some lbrace ->
  (forall n, first_return (drop start t) n ->
     extract_balanced t start = slice t start (start + n) /\
     balanced_region (extract_balanced t start))
  /\ (never_returns (drop start t) -> extract_balanced t start = []).
Proof.
  intros Hs.
  destruct (extract_balanced_cases t start Hs)
    as [(n0 & (Hn0 & Hz0 & Hmin0) & -> & Hb) | [Hnever ->]].
  - split.
    + intros n (Hn & Hz & Hmin).
      assert (n = n0) as ->.
      { destruct (Nat.lt_trichotomy n n0) as [Hlt|[->|Hgt]]; [|reflexivity|].
        - exfalso. apply (Hmin0 n); [lia | exact Hz].
        - exfalso. apply (Hmin n0); [lia | exact Hz0]. }
      split; [|exact Hb]. unfold slice. f_equal. lia.
    + intros Hnever. exfalso. apply (Hnever n0 Hn0 Hz0).
  - split; [|reflexivity].
    intros n (Hn & Hz & _). exfalso. apply (Hnever n Hn Hz).
Qed.

Lemma extract_balanced_first_return_witness :
  let t := txt "ab { c { d } e } f }" in
  t !! 3 = Some lbrace /\
  (forall n, first_return (drop 3 t) n ->
     extract_balanced t 3 = slice t 3 (3 + n) /\
     balanced_region (extract_balanced t 3))
  /\ (never_returns (drop 3 t) -> extract_balanced t 3 = []).
Proof.
  intros t. split; [reflexivity|].
  apply (extract_balanced_first_return t 3). reflexivity.
Defined.


(** ** Records *)

Lemma dict_get_set k k' v d :
  dict_get k (dict_set k' v d) =
  if String.eqb k k' then Some v else dict_get k d.
Proof.
  induction d as [|[k0 v0] d IH]; simpl.
  - reflexivity.
  - destruct (String.eqb_spec k' k0) as [->|Hne]; simpl.
    + destruct (String.eqb k k0); reflexivity.
    + rewrite IH. destruct (String.eqb_spec k k0) as [->|Hne'].
      * destruct (String.eqb_spec k0 k'); [congruence | reflexivity].
      * reflexivity.
Qed.

Lemma dict_get_set_ne k k' v d :
  k <> k' -> dict_get k (dict_set k' v d) = dict_get k d.
Proof.
  intros H. rewrite dict_get_set.
  destruct (String.eqb_spec k k'); [contradiction | reflexivity].
Qed.

Lemma dict_get_update_None k d o :
  dict_get k o = None -> dict_get k (dict_update d o) = dict_get k d.
Proof.
  unfold dict_update. revert d.
  induction o as [|[k0 v0] o IH]; intros d H; simpl in *.
  - reflexivity.
  - destruct (String.eqb_spec k k0) as [->|Hne]; [discriminate|].
    rewrite IH by exact H. now apply dict_get_set_ne.
Qed.

(** ** C3: the end-to-end scenario *)

Definition quoted (s : text) : text := dq :: s ++ [dq].

(** [project { buildType(Build1) }] and, on the next line,
    [object Build1 : BuildType({ name = Q..Q steps { script { ... } } })]. *)
Definition scenario : text :=
  txt "project { buildType(Build1) }" ++ ["010"%char]
  ++ txt "object Build1 : BuildType({ name = " ++ quoted (txt "Compile")
  ++ txt " steps { script { name = " ++ quoted (txt "Run")
  ++ txt " scriptContent = " ++ quoted (quoted (quoted (txt "echo hi")))
  ++ txt " } } })".

Definition scenario_build_type : dict :=
  [("id", VStr (txt "Build1")); ("name", VStr (txt "Compile"));
   ("steps",
    VList [VDict [("type", VStr (txt "script")); ("name", VStr (txt "Run"));
                  ("scriptContent", VStr (txt "echo hi"))]])]%string.

(** C3. On the scenario the parser returns a document (whatever positive
    recursion depth it is given) whose [project.buildTypes] has the single
    element [{id: Build1, name: Compile, steps: [{type: script, name: Run,
    scriptContent: echo hi}]}]. *)
Theorem scenario_decodes (n : nat) :
  exists h,
    parse_kotlin_dsl (S n) scenario = Ret (Some (MkDocument (txt "2.1") 0, h))
    /\ dict_get "buildTypes" (cell h 0) = Some (VRefs [1])
    /\ cell h 1 = scenario_build_type
    /\ snapshot 6 h (VDict (cell h 0))
       = Some (VDict [("buildTypes"%string, VList [VDict scenario_build_type])]).
Proof.
  eexists. split; [vm_compute; reflexivity|]. vm_compute. repeat split.
Qed.

(** ** C2: the order of decoded steps *)

(** The bodies that one loop of [parse_steps] decodes: for every match of
    [kw\s*\{] whose balanced region is not empty, the region without its
    outer braces. *)
Definition block_body (content : text) (m : rematch) : option text :=
  match extract_balanced content (m_end m - 1) with
  | [] => None
  | b => Some (slice_1_m1 b)
  end.

Definition blocks (kw : string) (content : text) : list text :=
  omap (block_body content) (re_finditer (block_open kw) content).

Definition step_of (decode : text -> dict) (body : text) : value :=
  VDict (decode body).

Lemma scan_steps_blocks kw decode content steps :
  scan_steps kw decode content steps
  = steps ++ map (step_of decode) (blocks kw content).
Proof.
  unfold scan_steps, blocks. revert steps.
  induction (re_finditer (block_open kw) content) as [|m ms IH];
    intros steps; cbn [fold_left].
  - cbn. now rewrite app_nil_r.
  - rewrite IH.
    change (omap (block_body content) (m :: ms))
      with (match block_body content m with
            | Some b => b :: omap (block_body content) ms
            | None => omap (block_body content) ms
            end).
    assert (Hb : block_body content m
                 = match extract_balanced content (m_end m - 1) with
                   | [] => None
                   | b => Some (slice_1_m1 b)
                   end) by reflexivity.
    rewrite Hb. clear Hb.
    destruct (extract_balanced content (m_end m - 1)) as [|c b].
    + reflexivity.
    + rewrite <- app_assoc. reflexivity.
Qed.

(** The order the design document gives: script, python, powershell,
    kotlinScript, generic. *)
Definition steps_in_documented_order (content : text) : list value :=
  map (step_of parse_script_step) (blocks "script" content)
  ++ map (step_of parse_python_step) (blocks "python" content)
  ++ map (step_of parse_powershell_step) (blocks "powerShell" content)
  ++ map (step_of parse_kotlin_step) (blocks "kotlinScript" content)
  ++ map (step_of parse_general_step) (blocks "step" content).

Definition powershell_then_kotlin : text :=
  txt "powerShell { } kotlinScript { }".

(** A block with a powerShell step and a kotlinScript step decodes to the
    kotlinScript record first: the documented order does not hold. *)
Lemma steps_not_in_documented_order :
  parse_steps powershell_then_kotlin
  = [VDict [("type"%string, VStr (txt "kotlinScript"))];
     VDict [("type"%string, VStr (txt "powershell"))]]
  /\ parse_steps powershell_then_kotlin
     <> steps_in_documented_order powershell_then_kotlin.
Proof. split; [reflexivity | vm_compute; discriminate]. Qed.

Definition python_then_script : text :=
  txt "python { name = " ++ quoted (txt "p") ++ txt " } script { name = "
  ++ quoted (txt "s") ++ txt " }".

(** C2 (amended). The step decoder scans the block once per step kind and
    appends one record per terminated match, without deduplication, in the
    fixed order script, python, kotlinScript, powershell, generic; a python
    step followed by a script step decodes to the script record first. *)
Theorem parse_steps_order :
  (forall content,
     parse_steps content
     = map (step_of parse_script_step) (blocks "script" content)
       ++ map (step_of parse_python_step) (blocks "python" content)
       ++ map (step_of parse_kotlin_step) (blocks "kotlinScript" content)
       ++ map (step_of parse_powershell_step) (blocks "powerShell" content)
       ++ map (step_of parse_general_step) (blocks "step" content))
  /\ parse_steps python_then_script
     = [VDict [("type", VStr (txt "script")); ("name", VStr (txt "s"))];
        VDict [("type", VStr (txt "python")); ("name", VStr (txt "p"))]]%string.
Proof.
  split; [|reflexivity].
  intros content. unfold parse_steps.
  rewrite !scan_steps_blocks, !app_assoc. reflexivity.
Qed.

(** ** Reading a match back *)

Ltac inv_matches :=
  repeat match goal with
    | H : matches (Cat _ _) _ _ |- _ => inversion H; subst; clear H
    | H : matches (Lit _) _ _ |- _ => inversion H; subst; clear H
    | H : matches (Cls _) _ _ |- _ => inversion H; subst; clear H
    | H : matches (Star _) _ _ |- _ => inversion H; subst; clear H
    | H : matches (LazyStar _) _ _ |- _ => inversion H; subst; clear H
    | H : matches (Group _) _ _ |- _ => inversion H; subst; clear H
    | H : matches (Alt _ _) _ _ |- _ => inversion H; subst; clear H
    end.


(** ** C8: the enabled flag of a vcs trigger *)



(** ** Leaf fields *)

(** [extracts r key decode f]: the decoder sets [key] from the leftmost
    match of [r] in its input, to [f] of the match, and leaves it out when
    there is none. *)
Definition extracts (r : regex) (key : string) (decode : text -> dict)
    (f : rematch -> value) : Prop :=
  forall content,
    dict_get key (decode content)
    = match re_search r content with
      | Some m => Some (f m)
      | None => None
      end.

(** A decoder leaves [key] out of its record when the pattern [r] does not
    occur in the text it is given. *)
Definition omits (r : regex) (key : string) (decode : text -> dict) : Prop :=
  forall content, ~ occurs r content -> dict_get key (decode content) = None.

Lemma extracts_omits r key decode f :
  extracts r key decode f -> omits r key decode.
Proof.
  intros He content Hn. rewrite He.
  apply re_search_None in Hn. now rewrite Hn.
Qed.

Ltac split_matches :=
  repeat match goal with
    | |- context [match extract_balanced ?c ?i with _ => _ end] =>
        destruct (extract_balanced c i)
    | |- context [match re_search ?r ?c with _ => _ end] =>
        destruct (re_search r c)
    | |- context [match re_findall1 ?r ?c with _ => _ end] =>
        destruct (re_findall1 r c)
    | |- context [match (?a ++ ?b)%list with _ => _ end] =>
        destruct (a ++ b)%list
    end.

Ltac solve_extracts decode :=
  let content := fresh "content" in
  intros content; unfold decode, alloc_refs; split_matches; reflexivity.

Definition captured (m : rematch) : value := VStr (group 1 m).
Definition captured_stripped (m : rematch) : value := VStr (strip (group 1 m)).
Definition captured_flag (m : rematch) : value :=
  VBool (bool_decide (group 1 m = txt "true")).

Section LeafFields.
Local Open Scope string_scope.

Lemma build_type_name :
  extracts (quoted_field "name") "name" parse_build_type captured.
Proof. solve_extracts parse_build_type. Qed.

Lemma build_type_artifact_rules :
  extracts (triple_plus "artifactRules") "artifactRules" parse_build_type
           captured_stripped.
Proof. solve_extracts parse_build_type. Qed.

Lemma script_step_name :
  extracts (quoted_field "name") "name" parse_script_step captured.
Proof. solve_extracts parse_script_step. Qed.

Lemma script_step_id :
  extracts (quoted_field "id") "id" parse_script_step captured.
Proof. solve_extracts parse_script_step. Qed.

Lemma script_step_enabled :
  extracts (bool_field "enabled") "enabled" parse_script_step captured_flag.
Proof. solve_extracts parse_script_step. Qed.

Lemma script_step_working_dir :
  extracts (quoted_field "workingDir") "workingDir" parse_script_step captured.
Proof. solve_extracts parse_script_step. Qed.

Lemma script_step_script_content :
  extracts (triple_lazy "scriptContent") "scriptContent" parse_script_step
           captured_stripped.
Proof. solve_extracts parse_script_step. Qed.

Lemma python_step_name :
  extracts (quoted_field "name") "name" parse_python_step captured.
Proof. solve_extracts parse_python_step. Qed.

Lemma python_step_id :
  extracts (quoted_field "id") "id" parse_python_step captured.
Proof. solve_extracts parse_python_step. Qed.

Lemma powershell_step_name :
  extracts (quoted_field "name") "name" parse_powershell_step captured.
Proof. solve_extracts parse_powershell_step. Qed.

Lemma powershell_step_id :
  extracts (quoted_field "id") "id" parse_powershell_step captured.
Proof. solve_extracts parse_powershell_step. Qed.

Lemma general_step_name :
  extracts (quoted_field "name") "name" parse_general_step captured.
Proof. solve_extracts parse_general_step. Qed.

Lemma general_step_id :
  extracts (quoted_field "id") "id" parse_general_step captured.
Proof. solve_extracts parse_general_step. Qed.

Lemma general_step_type :
  extracts (quoted_field "type") "type" parse_general_step captured.
Proof. solve_extracts parse_general_step. Qed.

Lemma general_step_enabled :
  extracts (bool_field "enabled") "enabled" parse_general_step captured_flag.
Proof. solve_extracts parse_general_step. Qed.

Lemma general_step_execution_mode :
  extracts execution_mode_re "executionMode" parse_general_step captured.
Proof. solve_extracts parse_general_step. Qed.

Lemma kotlin_step_name :
  extracts (quoted_field "name") "name" parse_kotlin_step captured.
Proof. solve_extracts parse_kotlin_step. Qed.

Lemma kotlin_step_id :
  extracts (quoted_field "id") "id" parse_kotlin_step captured.
Proof. solve_extracts parse_kotlin_step. Qed.

Lemma kotlin_step_enabled :
  extracts (bool_field "enabled") "enabled" parse_kotlin_step captured_flag.
Proof. solve_extracts parse_kotlin_step. Qed.

Lemma kotlin_step_content :
  extracts (triple_star "content") "content" parse_kotlin_step
           captured_stripped.
Proof. solve_extracts parse_kotlin_step. Qed.

Lemma vcs_root :
  extracts (call_arg "root") "root" parse_vcs captured_stripped.
Proof. solve_extracts parse_vcs. Qed.

Lemma vcs_root_name :
  extracts (quoted_field "name") "name" parse_vcs_root captured.
Proof. solve_extracts parse_vcs_root. Qed.

Lemma vcs_root_url :
  extracts (quoted_field "url") "url" parse_vcs_root captured.
Proof. solve_extracts parse_vcs_root. Qed.

Lemma vcs_root_branch :
  extracts (quoted_field "branch") "branch" parse_vcs_root captured.
Proof. solve_extracts parse_vcs_root. Qed.

Lemma project_name h :
  extracts (quoted_field "name") "name"
           (fun content => fst (parse_project content h)) captured.
Proof. solve_extracts parse_project. Qed.

(** The script text of a python step is looked for inside the nested
    [script { }] of its command; that of a powerShell step inside the
    balanced block of its script mode. *)
Lemma python_step_script_content content :
  dict_get "scriptContent" (parse_python_step content)
  = match re_search command_re content with
    | Some m =>
        match re_search (triple_star "content") (group 1 m) with
        | Some m' => Some (captured_stripped m')
        | None => None
        end
    | None => None
    end.
Proof. unfold parse_python_step. split_matches; reflexivity. Qed.

Lemma powershell_step_script_content content :
  dict_get "scriptContent" (parse_powershell_step content)
  = match re_search script_mode_re content with
    | Some m =>
        match extract_balanced content (m_end m - 1) with
        | [] => None
        | b =>
            match re_search (triple_lazy "content") (slice_1_m1 b) with
            | Some m' => Some (captured_stripped m')
            | None => None
            end
        end
    | None => None
    end.
Proof. unfold parse_powershell_step. split_matches; reflexivity. Qed.
End LeafFields.

(** ** The heap the tree assembly starts from *)

Local Open Scope string_scope.

Definition ref_keys : list string := ["buildTypes"; "subProjects"; "vcsRoots"].

(** [{'id': x}] *)
Definition fresh_ref (x : text) : dict := [("id", VStr x)].

(** The reference lists of a record hold locations of [{'id': ...}] dicts
    of a heap of size [n]. *)
Definition refs_in_range (n : nat) (d : dict) : Prop :=
  forall k v, k ∈ ref_keys -> dict_get k d = Some v ->
    exists ls, v = VRefs ls /\ forall l, l ∈ ls -> 0 < l < n.

Record record_ok (n : nat) (rec : dict) : Prop := {
  rec_no_id : dict_get "id" rec = None;
  rec_nodup : NoDup rec.*1;
  rec_refs : refs_in_range n rec
}.

(** Location 0 is the root project dict, every other location a
    [{'id': ...}] dict, and the registry holds decoded records. *)
Record skeleton_ok (objs : gmap text dict) (h : heap) : Prop := {
  sk_root : exists root, h !! 0 = Some root /\ dict_get "id" root = None /\
                         refs_in_range (length h) root;
  sk_refs : forall l d, 0 < l -> h !! l = Some d -> exists x, d = fresh_ref x;
  sk_objs : forall x rec, objs !! x = Some rec -> record_ok (length h) rec
}.

Lemma cell_lookup (h : heap) l d : h !! l = Some d -> cell h l = d.
Proof. intros H. unfold cell. now apply list_lookup_total_correct. Qed.

Lemma refs_in_range_mono n n' d :
  n <= n' -> refs_in_range n d -> refs_in_range n' d.
Proof.
  intros Hn H k v Hk Hv. destruct (H k v Hk Hv) as (ls & -> & Hls).
  exists ls. split; [reflexivity|]. intros l Hl. specialize (Hls l Hl). lia.
Qed.

Lemma record_ok_mono n n' d : n <= n' -> record_ok n d -> record_ok n' d.
Proof.
  intros Hn [H1 H2 H3]. split; auto. eapply refs_in_range_mono; eauto.
Qed.

Lemma skeleton_ok_init : skeleton_ok ∅ [[]].
Proof.
  split.
  - exists []. repeat split. intros k v _ [=].
  - intros [|[|l]] d Hl [=]. lia.
  - intros x rec H. now rewrite lookup_empty in H.
Qed.

Lemma skeleton_ok_alloc objs h xs :
  skeleton_ok objs h ->
  skeleton_ok objs (alloc_refs xs h).2 /\
  (forall l, l ∈ (alloc_refs xs h).1 -> 0 < l < length (alloc_refs xs h).2) /\
  (alloc_refs xs h).2 !! 0 = h !! 0.
Proof.
  intros [(root & Hr & Hid & Hrr) Hrefs Hobjs]. unfold alloc_refs. cbn [fst snd].
  assert (Hlen : 0 < length h) by (apply lookup_lt_is_Some; eauto).
  split; [split|split].
  - exists root. split; [now apply lookup_app_l_Some|]. split; [exact Hid|].
    eapply refs_in_range_mono; [|exact Hrr]. rewrite length_app. lia.
  - intros l d Hl Hd. apply lookup_app_Some in Hd as [Hd | [_ Hd]].
    + eauto.
    + rewrite list_lookup_fmap in Hd.
      destruct (xs !! (l - length h)) as [x|]; [|discriminate].
      injection Hd as <-. now exists (strip x).
  - intros x rec Hx. eapply record_ok_mono; [|eauto]. rewrite length_app. lia.
  - intros l Hl. apply elem_of_seq in Hl.
    rewrite length_app, length_map. lia.
  - now apply lookup_app_l.
Qed.

Lemma skeleton_ok_set_root objs h k v :
  skeleton_ok objs h -> k <> "id" ->
  (k ∈ ref_keys -> exists ls, v = VRefs ls /\ forall l, l ∈ ls -> 0 < l < length h) ->
  skeleton_ok objs (set_item h 0 k v).
Proof.
  intros [(root & Hr & Hid & Hrr) Hrefs Hobjs] Hk Hv. unfold set_item.
  assert (Hlen : 0 < length h) by (apply lookup_lt_is_Some; eauto).
  rewrite (cell_lookup _ _ _ Hr).
  split.
  - exists (dict_set k v root). rewrite length_insert.
    split; [now apply list_lookup_insert_eq|].
    split; [rewrite dict_get_set_ne; auto|].
    intros k' v' Hk' Hget. rewrite dict_get_set in Hget.
    destruct (String.eqb_spec k' k) as [->|Hne].
    + injection Hget as <-. auto.
    + eauto.
  - intros l d Hl Hd. rewrite list_lookup_insert_ne in Hd by lia. eauto.
  - intros x rec Hx. rewrite length_insert. eauto.
Qed.

Lemma skeleton_ok_insert objs h x rec :
  skeleton_ok objs h -> record_ok (length h) rec ->
  skeleton_ok (<[x := rec]> objs) h.
Proof.
  intros [Hroot Hrefs Hobjs] Hrec. split; auto.
  intros y rec' Hy. destruct (decide (x = y)) as [->|Hne].
  - rewrite lookup_insert_eq in Hy. now injection Hy as <-.
  - rewrite lookup_insert_ne in Hy by exact Hne. eauto.
Qed.

Ltac solve_nodup_keys :=
  cbn [fmap list_fmap fst dict_set String.eqb Ascii.eqb Bool.eqb];
  apply (bool_decide_unpack _); vm_compute; exact I.

Ltac solve_no_ref_keys :=
  let k := fresh "k" in
  let v := fresh "v" in
  let Hk := fresh "Hk" in
  let Hv := fresh "Hv" in
  intros k v Hk Hv; exfalso; revert Hv;
  unfold ref_keys in Hk;
  repeat (apply elem_of_cons in Hk as [-> | Hk]);
  [ .. | now apply elem_of_nil in Hk ];
  split_matches; discriminate.

Lemma parse_build_type_ok n content : record_ok n (parse_build_type content).
Proof.
  split; unfold parse_build_type.
  - split_matches; reflexivity.
  - split_matches; solve_nodup_keys.
  - solve_no_ref_keys.
Qed.

Lemma parse_vcs_root_ok n content : record_ok n (parse_vcs_root content).
Proof.
  split; unfold parse_vcs_root.
  - split_matches; reflexivity.
  - split_matches; solve_nodup_keys.
  - solve_no_ref_keys.
Qed.

(** One reference list of [parse_project]: when the calls are found, their
    [{'id': ...}] dicts are allocated and the list is stored under [k]. *)
Definition add_refs (k : string) (xs : list text) (st : dict * heap)
    : dict * heap :=
  match xs with
  | [] => st
  | _ :: _ =>
      (dict_set k (VRefs (alloc_refs xs st.2).1) st.1, (alloc_refs xs st.2).2)
  end.

Lemma parse_project_eq content h :
  parse_project content h
  = add_refs "vcsRoots" (re_findall1 (call_arg "vcsRoot") content)
      (add_refs "subProjects" (re_findall1 (call_arg "subProject") content)
         (add_refs "buildTypes" (re_findall1 (call_arg "buildType") content)
            (match re_search (quoted_field "name") content with
             | Some m => dict_set "name" (VStr (group 1 m)) []
             | None => []
             end, h))).
Proof.
  unfold parse_project, add_refs.
  destruct (re_findall1 (call_arg "buildType") content);
    destruct (re_findall1 (call_arg "subProject") content);
    destruct (re_findall1 (call_arg "vcsRoot") content); reflexivity.
Qed.

(** A record under construction together with the heap. *)
Definition partial_ok (objs : gmap text dict) (st : dict * heap) : Prop :=
  skeleton_ok objs st.2 /\ dict_get "id" st.1 = None /\
  refs_in_range (length st.2) st.1.

Lemma add_refs_ok objs k xs st :
  k ∈ ref_keys -> partial_ok objs st -> partial_ok objs (add_refs k xs st).
Proof.
  intros Hk (Hsk & Hid & Hrefs). unfold add_refs.
  destruct xs as [|x xs]; [split; [|split]; assumption|].
  destruct (skeleton_ok_alloc objs st.2 (x :: xs) Hsk) as (Hsk' & Hin & _).
  split; [|split]; cbn [fst snd].
  - exact Hsk'.
  - rewrite dict_get_set_ne; [exact Hid|].
    intros E. rewrite <- E in Hk. revert Hk.
    unfold ref_keys. rewrite !elem_of_cons, elem_of_nil.
    intros [[=]|[[=]|[[=]|[]]]].
  - intros k' v' Hk' Hget. rewrite dict_get_set in Hget.
    destruct (String.eqb_spec k' k) as [->|Hne].
    + injection Hget as <-. eauto.
    + destruct (Hrefs k' v' Hk' Hget) as (ls & -> & Hls).
      exists ls. split; [reflexivity|]. intros l Hl. specialize (Hls l Hl).
      unfold alloc_refs. cbn [snd]. rewrite length_app. lia.
Qed.

Lemma add_refs_root k xs st : st.2 !! 0 <> None -> (add_refs k xs st).2 !! 0 = st.2 !! 0.
Proof.
  intros H. unfold add_refs. destruct xs as [|x xs]; [reflexivity|].
  unfold alloc_refs. cbn [snd]. apply lookup_app_l.
  apply lookup_lt_is_Some. destruct (st.2 !! 0); [eauto | contradiction].
Qed.

Lemma parse_project_ok objs content h :
  skeleton_ok objs h ->
  skeleton_ok objs (parse_project content h).2 /\
  record_ok (length (parse_project content h).2) (parse_project content h).1 /\
  (parse_project content h).2 !! 0 = h !! 0.
Proof.
  intros Hsk.
  assert (Hp : partial_ok objs (parse_project content h)).
  { rewrite parse_project_eq.
    repeat (apply add_refs_ok; [unfold ref_keys; set_solver|]).
    split; [exact Hsk|]. split; [destruct (re_search _ _); reflexivity|].
    intros k v Hk. unfold ref_keys in Hk.
    repeat (apply elem_of_cons in Hk as [-> | Hk]);
      [ .. | now apply elem_of_nil in Hk ];
      destruct (re_search _ _); discriminate. }
  destruct Hp as (Hsk' & Hid & Hrefs).
  split; [exact Hsk'|]. split.
  - split; [exact Hid | | exact Hrefs].
    unfold parse_project, alloc_refs. split_matches; solve_nodup_keys.
  - rewrite parse_project_eq.
    assert (Hr : h !! 0 <> None).
    { destruct Hsk as [(root & -> & _) _ _]. discriminate. }
    rewrite !add_refs_root; cbn [snd]; try exact Hr.
    + reflexivity.
    + rewrite add_refs_root; exact Hr.
    + rewrite !add_refs_root; cbn [snd]; try exact Hr.
      rewrite add_refs_root; exact Hr.
Qed.

Lemma register_object_ok content st m :
  skeleton_ok st.1 st.2 ->
  skeleton_ok (register_object content st m).1 (register_object content st m).2
  /\ (register_object content st m).2 !! 0 = st.2 !! 0.
Proof.
  destruct st as [objs h]. cbn [fst snd]. intros Hsk. unfold register_object.
  destruct (extract_balanced content (m_end m - 1)) as [|c b]; [now split|].
  repeat case_decide; cbn [fst snd].
  - split; [|reflexivity].
    apply skeleton_ok_insert; [exact Hsk | apply parse_build_type_ok].
  - destruct (parse_project_ok objs (slice_1_m1 (c :: b)) h Hsk)
      as (Hsk' & Hrec & Hroot).
    destruct (parse_project (slice_1_m1 (c :: b)) h) as [proj h'].
    cbn [fst snd] in *. split; [|exact Hroot].
    now apply skeleton_ok_insert.
  - split; [|reflexivity].
    apply skeleton_ok_insert; [exact Hsk | apply parse_vcs_root_ok].
  - split; [|reflexivity].
    apply skeleton_ok_insert; [exact Hsk | apply parse_build_type_ok].
  - now split.
Qed.

Lemma register_fold_ok content ms : forall st,
  skeleton_ok st.1 st.2 ->
  skeleton_ok (fold_left (register_object content) ms st).1
              (fold_left (register_object content) ms st).2
  /\ (fold_left (register_object content) ms st).2 !! 0 = st.2 !! 0.
Proof.
  induction ms as [|m ms IH]; intros st Hsk; cbn [fold_left].
  - split; [exact Hsk | reflexivity].
  - destruct (register_object_ok content st m Hsk) as [Hsk' Hroot].
    destruct (IH _ Hsk') as [Hsk'' Hroot'].
    split; [exact Hsk''|]. now rewrite Hroot'.
Qed.

Lemma register_objects_ok content h :
  skeleton_ok ∅ h ->
  skeleton_ok (register_objects content h).1 (register_objects content h).2
  /\ (register_objects content h).2 !! 0 = h !! 0.
Proof. intros Hsk. now apply (register_fold_ok content _ (∅, h)). Qed.

(** One reference list of the root project: as [add_refs], on the dict at
    location 0. *)
Definition add_root_refs (k : string) (xs : list text) (h : heap) : heap :=
  match xs with
  | [] => h
  | _ :: _ => set_item (alloc_refs xs h).2 0 k (VRefs (alloc_refs xs h).1)
  end.

(** The heap when the root project has been decoded and the registry is
    still to be filled. *)
Definition root_heap (project_content : text) : heap :=
  let h : heap := [[]] in
  let h :=
    match re_search (quoted_field "description") project_content with
    | Some m => set_item h 0 "description" (VStr (group 1 m))
    | None => h
    end in
  let h :=
    add_root_refs "buildTypes"
      (re_findall1 (call_arg "buildType") project_content) h in
  let h :=
    add_root_refs "subProjects"
      (re_findall1 (call_arg "subProject") project_content) h in
  let h :=
    add_root_refs "vcsRoots"
      (re_findall1 (call_arg "vcsRoot") project_content) h in
  match re_search (block_plus "features") project_content with
  | Some m =>
      match re_search (block_plus "githubConnection") (group 1 m) with
      | Some _ =>
          set_item h 0 "features"
            (VList [VDict [("type", VStr (txt "githubConnection"))]])
      | None => h
      end
  | None => h
  end.

Lemma skeleton_Some content doc objs h :
  parse_kotlin_dsl_skeleton content = Some (doc, objs, h) ->
  exists m c b,
    re_search (block_open "project") content = Some m /\
    extract_balanced content (m_end m - 1) = c :: b /\
    doc = MkDocument
            (match re_search (quoted_field "version") content with
             | Some m' => group 1 m'
             | None => txt "2.1"
             end) 0 /\
    (objs, h) = register_objects content (root_heap (slice_1_m1 (c :: b))).
Proof.
  unfold parse_kotlin_dsl_skeleton.
  destruct (re_search (block_open "project") content) as [m|]; [|discriminate].
  destruct (extract_balanced content (m_end m - 1)) as [|c b] eqn:Eb;
    [discriminate|].
  intros H. exists m, c, b. split; [reflexivity|]. split; [exact Eb|].
  revert H. cbn [project].
  match goal with
  | |- (let '(_, _) := register_objects content ?h0 in _) = _ -> _ =>
      replace h0 with (root_heap (slice_1_m1 (c :: b)))
  end.
  - destruct (register_objects content (root_heap (slice_1_m1 (c :: b)))).
    intros [= <- <- <-]. split; reflexivity.
  - unfold root_heap, add_root_refs.
    destruct (re_findall1 (call_arg "buildType") _);
      destruct (re_findall1 (call_arg "subProject") _);
      destruct (re_findall1 (call_arg "vcsRoot") _); reflexivity.
Qed.


Lemma add_root_refs_ok k xs h :
  k ∈ ref_keys -> skeleton_ok ∅ h -> skeleton_ok ∅ (add_root_refs k xs h).
Proof.
  intros Hk Hsk. unfold add_root_refs. destruct xs as [|x xs]; [exact Hsk|].
  destruct (skeleton_ok_alloc ∅ h (x :: xs) Hsk) as (Hsk' & Hin & _).
  apply skeleton_ok_set_root; [exact Hsk' | | eauto].
  intros ->. revert Hk. unfold ref_keys. rewrite !elem_of_cons, elem_of_nil.
  intros [[=]|[[=]|[[=]|[]]]].
Qed.

Lemma root_heap_ok project_content : skeleton_ok ∅ (root_heap project_content).
Proof.
  unfold root_heap.
  assert (H0 : skeleton_ok ∅
            match re_search (quoted_field "description") project_content with
            | Some m => set_item [[]] 0 "description" (VStr (group 1 m))
            | None => [[]]
            end).
  { destruct (re_search _ _).
    - apply skeleton_ok_set_root; [apply skeleton_ok_init | discriminate |].
      unfold ref_keys. rewrite !elem_of_cons, elem_of_nil.
      intros [[=]|[[=]|[[=]|[]]]].
    - apply skeleton_ok_init. }
  apply (add_root_refs_ok "buildTypes"
           (re_findall1 (call_arg "buildType") project_content)) in H0;
    [|unfold ref_keys; set_solver].
  apply (add_root_refs_ok "subProjects"
           (re_findall1 (call_arg "subProject") project_content)) in H0;
    [|unfold ref_keys; set_solver].
  apply (add_root_refs_ok "vcsRoots"
           (re_findall1 (call_arg "vcsRoot") project_content)) in H0;
    [|unfold ref_keys; set_solver].
  cbv zeta.
  destruct (re_search (block_plus "features") _); [|exact H0].
  destruct (re_search (block_plus "githubConnection") _); [|exact H0].
  apply skeleton_ok_set_root; [exact H0 | discriminate |].
  unfold ref_keys. rewrite !elem_of_cons, elem_of_nil.
  intros [[=]|[[=]|[[=]|[]]]].
Qed.

Lemma skeleton_is_ok content doc objs h :
  parse_kotlin_dsl_skeleton content = Some (doc, objs, h) ->
  skeleton_ok objs h /\ project doc = 0.
Proof.
  intros H. apply skeleton_Some in H as (m & c & b & _ & _ & -> & E).
  split; [|reflexivity].
  pose proof (register_objects_ok content _ (root_heap_ok (slice_1_m1 (c :: b))))
    as [Hsk _].
  now rewrite <- E in Hsk.
Qed.

(** ** The tree assembly *)

Lemma dict_get_update k d o :
  NoDup o.*1 ->
  dict_get k (dict_update d o)
  = match dict_get k o with
    | Some v => Some v
    | None => dict_get k d
    end.
Proof.
  unfold dict_update. revert d.
  induction o as [|[k0 v0] o IH]; intros d Hnd; cbn [fold_left dict_get fst snd].
  - reflexivity.
  - apply NoDup_cons in Hnd as [Hk0 Hnd]. rewrite IH by exact Hnd.
    destruct (String.eqb_spec k k0) as [->|Hne].
    + assert (Hn : dict_get k0 o = None).
      { clear -Hk0. induction o as [|[k1 v1] o IH]; [reflexivity|].
        cbn [dict_get]. destruct (String.eqb_spec k0 k1) as [->|Hne].
        - exfalso. apply Hk0. cbn. left.
        - apply IH. intros Hin. apply Hk0. cbn. now right. }
      rewrite Hn, dict_get_set, String.eqb_refl. reflexivity.
    + rewrite dict_get_set_ne by exact Hne. reflexivity.
Qed.

Section Merge.
Variable objs : gmap text dict.
Variable h0 : heap.
Hypothesis Hsk : skeleton_ok objs h0.

(** A [{'id': x}] dict, as built or after [update] with the record
    registered under [x]. *)
Definition merged (x : text) (d : dict) : Prop :=
  dict_get "id" d = Some (VStr x) /\
  (d = fresh_ref x \/
   exists rec, objs !! x = Some rec /\
               forall k, k <> "id" -> dict_get k d = dict_get k rec).

(** The heaps [map_project] goes through. *)
Record inv (h : heap) : Prop := {
  inv_len : length h = length h0;
  inv_root : h !! 0 = h0 !! 0;
  inv_refs : forall l x, 0 < l -> h0 !! l = Some (fresh_ref x) ->
               exists d, h !! l = Some d /\ merged x d
}.

Lemma inv_init : inv h0.
Proof.
  split; [reflexivity | reflexivity |].
  intros l x Hl Hx. exists (fresh_ref x). repeat split; auto.
Qed.

Lemma ref_at l : 0 < l < length h0 -> exists x, h0 !! l = Some (fresh_ref x).
Proof.
  intros Hl. destruct (lookup_lt_is_Some_2 h0 l ltac:(lia)) as [d Hd].
  destruct (sk_refs _ _ Hsk l d ltac:(lia) Hd) as [x ->]. eauto.
Qed.

Lemma ref_key_not_id k : k ∈ ref_keys -> k <> "id".
Proof.
  unfold ref_keys. rewrite !elem_of_cons, elem_of_nil.
  intros [->|[->|[->|[]]]]; discriminate.
Qed.

(** Every dict of such a heap keeps locations of [{'id': ...}] dicts in
    its reference lists. *)
Lemma inv_cell_refs h proj :
  inv h -> proj < length h0 -> refs_in_range (length h0) (cell h proj).
Proof.
  intros [Hlen Hroot Hrefs] Hp. destruct proj as [|p].
  - destruct (sk_root _ _ Hsk) as (root & Hr & _ & Hrr).
    rewrite <- Hroot in Hr. now rewrite (cell_lookup _ _ _ Hr).
  - destruct (ref_at (S p) ltac:(lia)) as [x Hx].
    destruct (Hrefs (S p) x ltac:(lia) Hx) as (d & Hd & Hid & Hm).
    rewrite (cell_lookup _ _ _ Hd). intros k v Hk Hget.
    destruct Hm as [-> | (rec & Hrec & Hsame)].
    + exfalso. apply ref_key_not_id in Hk. cbn in Hget.
      destruct (String.eqb_spec k "id"); [contradiction | discriminate].
    + rewrite Hsame in Hget by now apply ref_key_not_id.
      exact (rec_refs _ _ (sk_objs _ _ Hsk _ _ Hrec) k v Hk Hget).
Qed.

Lemma merge_ref_inv l h :
  inv h -> 0 < l < length h0 ->
  exists x b h',
    h0 !! l = Some (fresh_ref x) /\
    merge_ref objs l h = Ret (b, h') /\ inv h' /\
    (b = true -> is_Some (objs !! x)).
Proof.
  intros Hinv Hl. destruct (ref_at l Hl) as [x Hx]. exists x.
  destruct (inv_refs _ Hinv l x ltac:(lia) Hx) as (d & Hd & Hid & Hm).
  unfold merge_ref. rewrite (cell_lookup _ _ _ Hd), Hid.
  destruct (objs !! x) as [rec|] eqn:Hrec.
  - exists true, (<[l := dict_update d rec]> h).
    split; [exact Hx|]. split; [reflexivity|]. split; [|eauto].
    destruct (sk_objs _ _ Hsk _ _ Hrec) as [Hnoid Hnd _].
    destruct Hinv as [Hlen Hroot Hrefs]. split.
    + now rewrite length_insert.
    + rewrite list_lookup_insert_ne by lia. exact Hroot.
    + intros l' x' Hl' Hx'. destruct (decide (l = l')) as [<-|Hne].
      * rewrite Hx in Hx'. injection Hx' as <-.
        exists (dict_update d rec).
        split; [apply list_lookup_insert_eq; lia|].
        split; [now rewrite dict_get_update_None|].
        right. exists rec. split; [exact Hrec|].
        intros k Hk. rewrite dict_get_update by exact Hnd.
        destruct (dict_get k rec) as [v|] eqn:Hget; [reflexivity|].
        destruct Hm as [-> | (rec' & Hrec' & Hsame)].
        -- cbn. destruct (String.eqb_spec k "id");
             [contradiction | reflexivity].
        -- rewrite Hsame by exact Hk.
           injection Hrec' as <-. exact Hget.
      * rewrite list_lookup_insert_ne by exact Hne. eauto.
  - exists false, h. split; [exact Hx|]. split; [reflexivity|].
    split; [exact Hinv | discriminate].
Qed.

(** A run ends in a heap of the invariant, raises nothing, and may stop
    with a [RecursionError] only where [b] allows it. *)
Definition post (b : Prop) (r : result heap) : Prop :=
  match r with
  | Ret h' => inv h'
  | Raise _ => False
  | RecursionError => b
  end.

Lemma post_mono (b b' : Prop) r : (b -> b') -> post b r -> post b' r.
Proof. destruct r; cbn; auto. Qed.

Lemma for_each_post b (body : nat -> heap -> result heap) ls : forall h,
  inv h ->
  (forall l h', l ∈ ls -> inv h' -> post b (body l h')) ->
  post b (for_each body ls h).
Proof.
  induction ls as [|l ls IH]; intros h Hinv Hbody; cbn [for_each].
  - exact Hinv.
  - pose proof (Hbody l h ltac:(left) Hinv) as Hb.
    destruct (body l h) as [h'| |]; cbn in *; auto.
    apply IH; [exact Hb|]. intros l' h'' Hl'. apply Hbody. now right.
Qed.

Lemma for_refs_post b key (body : nat -> heap -> result heap) proj h :
  key ∈ ref_keys -> inv h -> proj < length h0 ->
  (forall ls l h',
     dict_get key (cell h proj) = Some (VRefs ls) -> l ∈ ls ->
     0 < l < length h0 -> inv h' -> post b (body l h')) ->
  post b (for_refs key body proj h).
Proof.
  intros Hk Hinv Hp Hbody. unfold for_refs.
  pose proof (inv_cell_refs h proj Hinv Hp key) as Hr.
  destruct (dict_get key (cell h proj)) as [v|]; [|exact Hinv].
  destruct (Hr v Hk eq_refl) as (ls & -> & Hls).
  apply for_each_post; [exact Hinv|].
  intros l h' Hl Hinv'. apply (Hbody ls); auto.
Qed.

Lemma merge_only_post l h :
  inv h -> 0 < l < length h0 ->
  post False (let* r := merge_ref objs l h in Ret (snd r)).
Proof.
  intros Hinv Hl.
  destruct (merge_ref_inv l h Hinv Hl) as (x & b & h' & _ & -> & Hinv' & _).
  exact Hinv'.
Qed.

(** A ranking of the registered names that decreases along every
    sub-project reference between registered projects. *)
Variable rank : text -> nat.
Variable N : nat.

Definition acyclic : Prop :=
  (forall x, rank x < N) /\
  forall x rec ls l y,
    objs !! x = Some rec -> dict_get "subProjects" rec = Some (VRefs ls) ->
    l ∈ ls -> h0 !! l = Some (fresh_ref y) -> is_Some (objs !! y) ->
    rank y < rank x.

Definition lvl (proj : nat) : nat :=
  match proj with
  | 0 => N
  | S _ =>
      match dict_get "id" (cell h0 proj) with
      | Some (VStr x) => rank x
      | _ => 0
      end
  end.

Lemma map_project_post fuel : forall proj h,
  inv h -> proj < length h0 ->
  post (~ (acyclic /\ lvl proj < fuel)) (map_project fuel objs proj h).
Proof.
  induction fuel as [|fuel IH]; intros proj h Hinv Hp; cbn [map_project].
  - cbn. intros [_ H]. lia.
  - set (b := ~ (acyclic /\ lvl proj < S fuel)).
    assert (H1 : post b
              (for_refs "buildTypes"
                 (fun bt h => let* r := merge_ref objs bt h in Ret (snd r))
                 proj h)).
    { apply for_refs_post; [unfold ref_keys; set_solver | auto | auto |].
      intros ls l h' _ _ Hl Hinv'.
      eapply post_mono; [|now apply merge_only_post]. contradiction. }
    destruct (for_refs "buildTypes" _ proj h) as [h1| |];
      cbn [bind]; [|exact H1|exact H1]. cbn in H1.
    assert (H2 : post b
              (for_refs "subProjects"
                 (fun sp h =>
                    let* r := merge_ref objs sp h in
                    if fst r then map_project fuel objs sp (snd r)
                    else Ret (snd r))
                 proj h1)).
    { apply for_refs_post; [unfold ref_keys; set_solver | auto | auto |].
      intros ls l h' Hget Hin Hl Hinv'.
      destruct (merge_ref_inv l h' Hinv' Hl)
        as (y & m & h'' & Hy & -> & Hinv'' & Hm).
      cbn [bind fst snd]. destruct m; [|exact Hinv''].
      specialize (Hm eq_refl).
      eapply post_mono; [|apply IH; [exact Hinv'' | lia]].
      intros Hno [Hac Hlvl]. apply Hno. split; [exact Hac|].
      assert (Hly : lvl l = rank y).
      { unfold lvl. destruct l as [|l]; [lia|].
        now rewrite (cell_lookup _ _ _ Hy). }
      rewrite Hly. destruct Hac as [Hbound Hedge].
      destruct proj as [|p].
      - cbn [lvl] in Hlvl. specialize (Hbound y). lia.
      - destruct (ref_at (S p) ltac:(lia)) as [x Hx].
        assert (Hlx : lvl (S p) = rank x).
        { unfold lvl. now rewrite (cell_lookup _ _ _ Hx). }
        destruct (inv_refs _ H1 (S p) x ltac:(lia) Hx) as (d & Hd & Hid & Hmd).
        rewrite (cell_lookup _ _ _ Hd) in Hget.
        destruct Hmd as [-> | (rec & Hrec & Hsame)]; [discriminate|].
        rewrite Hsame in Hget by discriminate.
        specialize (Hedge x rec ls l y Hrec Hget Hin Hy Hm). lia. }
    destruct (for_refs "subProjects" _ proj h1) as [h2| |];
      cbn [bind]; [|exact H2|exact H2]. cbn in H2.
    apply for_refs_post; [unfold ref_keys; set_solver | auto | auto |].
    intros ls l h' _ _ Hl Hinv'.
    eapply post_mono; [|now apply merge_only_post]. contradiction.
Qed.
End Merge.

(** ** C6: references without a registered object *)





(** ** C5: when the parser returns no result *)

Lemma lookup_last_of_middle {A} (pre a post : list A) (c : A) :
  ((pre ++ (a ++ [c]) ++ post) !! (length pre + length (a ++ [c]) - 1))%list
  = Some c.
Proof.
  rewrite length_app. cbn [length].
  replace (length pre + (length a + 1) - 1) with (length pre + length a) by lia.
  rewrite lookup_app_r by lia.
  replace (length pre + length a - length pre) with (length a) by lia.
  rewrite <- app_assoc. rewrite lookup_app_r by lia.
  now replace (length a - length a) with 0 by lia.
Qed.

(** A match of [f\s*\{] ends just after an opening brace. *)
Lemma block_open_brace f t m :
  re_search (block_open f) t = Some m -> t !! (m_end m - 1) = Some lbrace.
Proof.
  intros H. apply re_search_Some in H as (pre & mid & post & -> & _ & -> & Hm).
  remember (m_groups m) as caps eqn:Ec. clear Ec.
  unfold block_open in Hm. inv_matches.
  rewrite (app_assoc (txt f)). apply lookup_last_of_middle.
Qed.













(** ** C4: fields whose pattern does not occur *)

Lemma cell_set_item (h : heap) k v :
  0 < length h -> cell (set_item h 0 k v) 0 = dict_set k v (cell h 0).
Proof.
  intros Hl. unfold set_item, cell at 1.
  now rewrite list_lookup_total_insert_eq.
Qed.

Lemma cell_add_root_refs k' k xs (h : heap) :
  0 < length h -> k' <> k ->
  dict_get k' (cell (add_root_refs k xs h) 0) = dict_get k' (cell h 0).
Proof.
  intros Hl Hk. unfold add_root_refs. destruct xs as [|x xs]; [reflexivity|].
  unfold alloc_refs. cbn [fst snd].
  rewrite cell_set_item by (rewrite length_app; lia).
  rewrite dict_get_set_ne by exact Hk.
  unfold cell. now rewrite lookup_total_app_l.
Qed.

Lemma add_root_refs_length k xs (h : heap) :
  0 < length h -> 0 < length (add_root_refs k xs h).
Proof.
  intros Hl. unfold add_root_refs. destruct xs as [|x xs]; [exact Hl|].
  unfold set_item, alloc_refs. cbn [fst snd].
  rewrite length_insert, length_app. lia.
Qed.

(** The description of the root project comes from the leftmost match in
    the project block. *)
Lemma root_heap_description project_content :
  dict_get "description" (cell (root_heap project_content) 0)
  = match re_search (quoted_field "description") project_content with
    | Some m => Some (captured m)
    | None => None
    end.
Proof.
  unfold root_heap.
  set (hd := match re_search (quoted_field "description") project_content with
             | Some m => set_item [[]] 0 "description" (VStr (group 1 m))
             | None => [[]]
             end).
  assert (Hd : 0 < length hd /\
               dict_get "description" (cell hd 0)
               = match re_search (quoted_field "description") project_content with
                 | Some m => Some (captured m)
                 | None => None
                 end).
  { subst hd. destruct (re_search _ _); split; cbn; auto. }
  destruct Hd as [Hl Hd]. cbv zeta.
  set (h1 := add_root_refs "buildTypes" _ hd).
  set (h2 := add_root_refs "subProjects" _ h1).
  set (h3 := add_root_refs "vcsRoots" _ h2).
  assert (Hl1 : 0 < length h1) by now apply add_root_refs_length.
  assert (Hl2 : 0 < length h2) by now apply add_root_refs_length.
  assert (Hl3 : 0 < length h3) by now apply add_root_refs_length.
  assert (H3 : dict_get "description" (cell h3 0)
               = dict_get "description" (cell hd 0)).
  { subst h3 h2 h1. rewrite !cell_add_root_refs; auto; discriminate. }
  rewrite <- Hd, <- H3.
  destruct (re_search (block_plus "features") _); [|reflexivity].
  destruct (re_search (block_plus "githubConnection") _); [|reflexivity].
  rewrite cell_set_item by exact Hl3. now rewrite dict_get_set_ne.
Qed.

(** What the returned document holds for the two leaf fields of
    [parse_kotlin_dsl] itself. *)
Lemma skeleton_leaf_fields content doc objs h :
  parse_kotlin_dsl_skeleton content = Some (doc, objs, h) ->
  exists m,
    re_search (block_open "project") content = Some m /\
    version doc
    = match re_search (quoted_field "version") content with
      | Some m' => group 1 m'
      | None => txt "2.1"
      end /\
    dict_get "description" (cell h (project doc))
    = match re_search (quoted_field "description")
              (slice_1_m1 (extract_balanced content (m_end m - 1))) with
      | Some m' => Some (captured m')
      | None => None
      end.
Proof.
  intros H. apply skeleton_Some in H as (m & c & b & Hm & Hb & -> & E).
  exists m. split; [exact Hm|]. split; [reflexivity|]. cbn [project].
  rewrite Hb, <- root_heap_description.
  pose proof (register_objects_ok content _ (root_heap_ok (slice_1_m1 (c :: b))))
    as [_ Hroot].
  rewrite <- E in Hroot. cbn [snd] in Hroot.
  unfold cell. now rewrite !list_lookup_total_alt, Hroot.
Qed.

(** The leaf fields the decoders set from one pattern each. *)
Definition leaf_fields : list (regex * string * (text -> dict)) :=
  [ (quoted_field "name", "name", parse_build_type);
    (triple_plus "artifactRules", "artifactRules", parse_build_type);
    (quoted_field "name", "name", parse_script_step);
    (quoted_field "id", "id", parse_script_step);
    (bool_field "enabled", "enabled", parse_script_step);
    (quoted_field "workingDir", "workingDir", parse_script_step);
    (triple_lazy "scriptContent", "scriptContent", parse_script_step);
    (quoted_field "name", "name", parse_python_step);
    (quoted_field "id", "id", parse_python_step);
    (command_re, "scriptContent", parse_python_step);
    (quoted_field "name", "name", parse_powershell_step);
    (quoted_field "id", "id", parse_powershell_step);
    (script_mode_re, "scriptContent", parse_powershell_step);
    (quoted_field "name", "name", parse_general_step);
    (quoted_field "id", "id", parse_general_step);
    (quoted_field "type", "type", parse_general_step);
    (bool_field "enabled", "enabled", parse_general_step);
    (execution_mode_re, "executionMode", parse_general_step);
    (quoted_field "name", "name", parse_kotlin_step);
    (quoted_field "id", "id", parse_kotlin_step);
    (bool_field "enabled", "enabled", parse_kotlin_step);
    (triple_star "content", "content", parse_kotlin_step);
    (call_arg "root", "root", parse_vcs);
    (quoted_field "name", "name", parse_vcs_root);
    (quoted_field "url", "url", parse_vcs_root);
    (quoted_field "branch", "branch", parse_vcs_root);
    (quoted_field "name", "name", fun content => (parse_project content []).1) ].

Lemma leaf_fields_omitted :
  Forall (fun f => omits f.1.1 f.1.2 f.2) leaf_fields.
Proof.
  unfold leaf_fields.
  repeat (apply Forall_cons; split;
          [cbn [fst snd];
           first
             [ eapply extracts_omits;
               first
                 [ apply build_type_name | apply build_type_artifact_rules
                 | apply script_step_name | apply script_step_id
                 | apply script_step_enabled | apply script_step_working_dir
                 | apply script_step_script_content
                 | apply python_step_name | apply python_step_id
                 | apply powershell_step_name | apply powershell_step_id
                 | apply general_step_name | apply general_step_id
                 | apply general_step_type | apply general_step_enabled
                 | apply general_step_execution_mode
                 | apply kotlin_step_name | apply kotlin_step_id
                 | apply kotlin_step_enabled | apply kotlin_step_content
                 | apply vcs_root | apply vcs_root_name | apply vcs_root_url
                 | apply vcs_root_branch | apply (project_name []) ]
             | intros content Hn; apply re_search_None in Hn;
               first [ rewrite python_step_script_content
                     | rewrite powershell_step_script_content ];
               now rewrite Hn ]
          |]).
  apply Forall_nil. exact I.
Qed.



(** ** C7: triple-quoted block fields *)

Local Close Scope string_scope.

Definition all_space (s : text) : Prop := Forall (fun c => is_space c = true) s.

(** [v] is [g] without its leading and trailing whitespace. *)
Definition trimmed (g v : text) : Prop :=
  exists l r, g = l ++ v ++ r /\ all_space l /\ all_space r /\
    (forall c v', v = c :: v' -> is_space c = false) /\
    (forall c v', v = v' ++ [c] -> is_space c = false).

Definition substring (s t : text) : Prop := exists a b, t = a ++ s ++ b.

Lemma lstrip_spec s :
  exists l, s = l ++ lstrip s /\ all_space l /\
            forall c v, lstrip s = c :: v -> is_space c = false.
Proof.
  induction s as [|c s (l & E & Hl & Hh)]; cbn [lstrip].
  - exists []. repeat split; [constructor | discriminate].
  - destruct (is_space c) eqn:Hc.
    + exists (c :: l). repeat split; [cbn; congruence | now constructor | exact Hh].
    + exists []. repeat split; [constructor|]. now intros c' v [= <- _].
Qed.

Lemma rstrip_spec s :
  exists r, s = rstrip s ++ r /\ all_space r /\
            forall c v, rstrip s = v ++ [c] -> is_space c = false.
Proof.
  unfold rstrip. destruct (lstrip_spec (rev s)) as (l & E & Hl & Hh).
  exists (rev l). repeat split.
  - rewrite <- rev_app_distr, <- E. now rewrite rev_involutive.
  - now apply Forall_rev.
  - intros c v Hv. apply (Hh c (rev v)).
    rewrite <- (rev_involutive (lstrip (rev s))), Hv, rev_app_distr.
    reflexivity.
Qed.

Lemma strip_trimmed g : trimmed g (strip g).
Proof.
  unfold strip. destruct (lstrip_spec g) as (l & El & Hl & Hhead).
  destruct (rstrip_spec (lstrip g)) as (r & Er & Hr & Hlast).
  exists l, r. repeat split; auto.
  - now rewrite <- Er.
  - intros c v' Hv. apply (Hhead c (v' ++ r)). now rewrite Er, Hv.
Qed.

Lemma group_1_single (m : rematch) g : m_groups m = [g] -> group 1 m = g.
Proof. unfold group. now intros ->. Qed.

Ltac read_match H :=
  apply re_search_Some in H as (pre & mid & post & -> & _ & _ & Hm);
  remember (m_groups _) as caps eqn:Ec in Hm;
  cbv [triple_lazy triple_star triple_plus quoted_field block_plus block_star
       block_open command_re script_mode_re Plus] in Hm;
  inv_matches;
  cbn [app] in *;
  match goal with E : _ = m_groups _ |- _ => symmetry in E end.

Ltac norm_app :=
  cbn [app txt list_ascii_of_string];
  repeat (rewrite <- app_assoc; cbn [app]).

Ltac reassoc := repeat (rewrite <- app_assoc; cbn [app]).

Ltac found_between pre post :=
  match goal with
  | Ha : Forall (fun c => is_space c = true) ?a,
    Hb : Forall (fun c => is_space c = true) ?b |- _ =>
      exists pre, a, b, post;
      split; [norm_app; reflexivity | split; assumption]
  end.






Lemma slice_substring (t : text) a b : substring (slice t a b) t.
Proof.
  unfold slice. exists (take a t), (drop (b - a) (drop a t)).
  now rewrite take_drop, take_drop.
Qed.

Lemma slice_1_m1_substring (s t : text) :
  substring s t -> substring (slice_1_m1 s) t.
Proof.
  intros (a & b & ->). destruct (slice_substring s 1 (length s - 1)) as (a' & b' & E).
  unfold slice_1_m1. exists (a ++ a'), (b' ++ b).
  rewrite E at 1. now rewrite <- !app_assoc.
Qed.

Lemma extract_balanced_substring (t : text) start :
  substring (extract_balanced t start) t.
Proof.
  unfold extract_balanced. destruct (scan_balanced _ _ _).
  - apply slice_substring.
  - exists [], t. reflexivity.
Qed.

Definition newline : ascii := "010"%char.

(** [scriptContent = QQQ\n  echo hi  \nQQQ] *)
Definition padded_script : text :=
  txt "scriptContent = " ++ [dq; dq; dq] ++ [newline] ++ txt "  echo hi  "
  ++ [newline] ++ [dq; dq; dq].

(** ** C9: a quoted field with an empty value *)

Definition quote_free (s : text) : Prop :=
  Forall (fun c => not_char dq c = true) s.

Lemma all_space_quote_free s : all_space s -> quote_free s.
Proof.
  intros H. eapply Forall_impl; [exact H|]. intros c Hc. cbn beta. unfold not_char.
  destruct (Ascii.eqb_spec c dq) as [->|]; [discriminate | reflexivity].
Qed.

Lemma quote_free_no_quote (b u v : text) : quote_free b -> b <> u ++ dq :: v.
Proof.
  intros Hb ->. apply Forall_app in Hb as [_ Hb].
  apply Forall_cons in Hb as [Hb _]. discriminate.
Qed.

(** Two texts that agree after runs of a class, each run closed by a
    character outside the class, have the same runs. *)
Lemma span_unique (p : ascii -> bool) (a b x y : text) (c d : ascii) :
  Forall (fun e => p e = true) a -> Forall (fun e => p e = true) b ->
  p c = false -> p d = false ->
  a ++ c :: x = b ++ d :: y -> a = b /\ c = d /\ x = y.
Proof.
  intros Ha. revert b. induction Ha as [|e a He Ha IH]; intros b Hb Hc Hd E.
  - destruct Hb as [|e' b He' Hb]; cbn in E.
    + now injection E as -> ->.
    + injection E as -> _. congruence.
  - destruct Hb as [|e' b He' Hb]; cbn in E.
    + injection E as -> _. congruence.
    + injection E as -> E. destruct (IH b Hb Hc Hd E) as (-> & -> & ->). auto.
Qed.

(** Where the first quote of a text is. *)
Lemma first_quote_split (a r x r' : text) :
  quote_free a -> a ++ dq :: r = x ++ dq :: r' ->
  (x = a /\ r = r') \/ exists x', x = a ++ dq :: x'.
Proof.
  intros Ha. revert x. induction Ha as [|c a Hc Ha IH]; intros x E.
  - destruct x as [|e x]; cbn in E.
    + injection E as ->. now left.
    + injection E as <- _. right. now exists x.
  - destruct x as [|e x]; cbn in E.
    + injection E as -> _. discriminate.
    + injection E as <- E. destruct (IH x E) as [[-> ->] | [x' ->]].
      * now left.
      * right. now exists x'.
Qed.

(** The only quotes of [t] are the two of an empty value of [f]. *)
Definition only_empty_value (f : string) (t : text) : Prop :=
  exists pre ws1 ws2 post,
    t = pre ++ txt f ++ ws1 ++ txt "=" ++ ws2 ++ [dq; dq] ++ post /\
    quote_free pre /\ quote_free (txt f) /\ all_space ws1 /\ all_space ws2 /\
    quote_free post.

(** The pattern cannot match at a field whose value is empty, whatever
    follows. *)
Lemma empty_value_no_match f ws1 ws2 post :
  all_space ws1 -> all_space ws2 ->
  match_here (quoted_field f)
             (txt f ++ ws1 ++ txt "=" ++ ws2 ++ [dq; dq] ++ post) = None.
Proof.
  intros H1 H2.
  destruct (match_here _ _) as [[s' caps]|] eqn:E; [exfalso | reflexivity].
  apply match_here_Some in E as (mid & E & Hm).
  cbv [quoted_field Plus] in Hm. inv_matches. revert E. norm_app. intros E.
  apply app_inv_head in E.
  match goal with
  | Ha : Forall (fun c => is_space c = true) ?a,
    Hb : Forall (fun c => is_space c = true) ?b,
    E : ws1 ++ _ :: ws2 ++ _ = ?a ++ _ :: ?b ++ _ |- _ =>
      apply (span_unique is_space) in E as (_ & _ & E);
      [|assumption|assumption|reflexivity|reflexivity];
      apply (span_unique is_space) in E as (_ & _ & E);
      [|assumption|assumption|reflexivity|reflexivity]
  end.
  injection E as <- _.
  match goal with H : not_char dq dq = true |- _ => discriminate H end.
Qed.

(** The fields decoded by [f\s*=\s*Q([^Q]+)Q], by key and decoder. *)
Definition quoted_leaf_fields : list (string * (text -> dict)) :=
  [ ("name", parse_build_type);
    ("name", parse_script_step); ("id", parse_script_step);
    ("workingDir", parse_script_step);
    ("name", parse_python_step); ("id", parse_python_step);
    ("name", parse_powershell_step); ("id", parse_powershell_step);
    ("name", parse_general_step); ("id", parse_general_step);
    ("type", parse_general_step);
    ("name", parse_kotlin_step); ("id", parse_kotlin_step);
    ("name", parse_vcs_root); ("url", parse_vcs_root);
    ("branch", parse_vcs_root) ]%string.

Lemma quoted_leaf_fields_omitted :
  Forall (fun fld => omits (quoted_field fld.1) fld.1 fld.2) quoted_leaf_fields.
Proof.
  pose proof leaf_fields_omitted as H. rewrite Forall_forall in H.
  unfold quoted_leaf_fields.
  repeat (apply Forall_cons; split;
          [match goal with
           | |- omits (quoted_field (?k, ?d).1) _ _ =>
               apply (H (quoted_field k, k, d)); unfold leaf_fields;
               repeat first [apply list_elem_of_here | apply list_elem_of_further]
           end|]).
  apply Forall_nil. exact I.
Qed.

(** The start of a quoted field up to its opening quote, [f\s*=\s*Q]. *)
Definition quoted_open (f : string) : regex :=
  (Lit (txt f) ⋅ ws* ⋅ Lit (txt "=") ⋅ ws* ⋅ Lit [dq])%re.

(** Wherever the text has [f = Q], the value is empty: the next character
    is the closing quote. *)
Definition always_empty (f : string) (t : text) : Prop :=
  forall pre mid post caps,
    t = pre ++ mid ++ post -> matches (quoted_open f) mid caps ->
    exists post', post = dq :: post'.

Lemma quoted_open_matches f w1 w2 :
  all_space w1 -> all_space w2 ->
  matches (quoted_open f) (txt f ++ w1 ++ txt "=" ++ w2 ++ [dq]) [].
Proof.
  intros H1 H2.
  exact (M_Cat _ _ _ _ _ _ (M_Lit _)
           (M_Cat _ _ _ _ _ _ (M_Star _ _ H1)
              (M_Cat _ _ _ _ _ _ (M_Lit _)
                 (M_Cat _ _ _ _ _ _ (M_Star _ _ H2) (M_Lit _))))).
Qed.

Lemma always_empty_no_value f t :
  always_empty f t -> ~ occurs (quoted_field f) t.
Proof.
  intros Ha (pre & mid & post & caps & -> & Hm).
  cbv [quoted_field Plus] in Hm. inv_matches.
  match type of Ha with
  | always_empty _ (pre ++ (?a ++ ?w1 ++ ?e ++ ?w2 ++ ?q ++ (?c1 ++ ?g) ++ ?q2)
                    ++ post) =>
      destruct (Ha pre (txt f ++ w1 ++ txt "=" ++ w2 ++ [dq])
                  ((c1 ++ g) ++ q2 ++ post) []) as [post' E];
      [ reassoc; reflexivity
      | apply quoted_open_matches; assumption
      | ]
  end.
  cbn [app] in E. injection E as -> _.
  match goal with H : not_char dq dq = true |- _ => discriminate H end.
Qed.

Lemma all_space_last_not_quote (x w a : text) :
  all_space w -> x ++ "="%char :: w <> a ++ [dq].
Proof.
  intros Hw E. destruct w as [|c w _] using rev_ind.
  - change (x ++ ["="%char]) with (x ++ ["="%char]) in E.
    apply app_inj_tail in E as [_ E]. discriminate.
  - rewrite app_comm_cons, app_assoc in E. apply app_inj_tail in E as [_ ->].
    apply Forall_app in Hw as [_ Hw]. apply Forall_cons in Hw as [Hw _].
    discriminate.
Qed.

(** A text whose only quotes are those of one empty value has no field with
    a value. *)
Lemma only_empty_always_empty f t g : only_empty_value f t -> always_empty g t.
Proof.
  intros (pre0 & ws1 & ws2 & post0 & -> & Hpre & Hf & H1 & H2 & Hpost)
         pre mid post caps E Hm.
  unfold quoted_open in Hm. inv_matches.
  assert (Ha : quote_free (pre0 ++ txt f ++ ws1 ++ txt "=" ++ ws2)).
  { apply all_space_quote_free in H1, H2.
    unfold quote_free in *. rewrite !Forall_app.
    repeat split; try assumption. repeat constructor. }
  revert E.
  replace (pre0 ++ txt f ++ ws1 ++ txt "=" ++ ws2 ++ [dq; dq] ++ post0)
    with ((pre0 ++ txt f ++ ws1 ++ txt "=" ++ ws2) ++ dq :: dq :: post0)
    by (reassoc; reflexivity).
  remember (pre0 ++ txt f ++ ws1 ++ txt "=" ++ ws2) as a eqn:Ea. clear Ea.
  match goal with
  | |- _ = pre ++ (?a ++ ?w1 ++ ?e ++ ?w2 ++ ?q) ++ post -> _ =>
      replace (pre ++ (a ++ w1 ++ e ++ w2 ++ q) ++ post)
        with (((pre ++ a ++ w1) ++ "="%char :: w2) ++ dq :: post)
        by (reassoc; reflexivity);
      intros E; pose proof E as E2;
      apply first_quote_split in E2; [|exact Ha];
      destruct E2 as [[_ E2] | [x' E2]]
  end.
  - eauto.
  - exfalso. rewrite E2, <- app_assoc in E. cbn [app] in E.
    apply app_inv_head in E. injection E as E.
    destruct x' as [|c x']; cbn [app] in E.
    + eapply all_space_last_not_quote; [|exact E2]. assumption.
    + injection E as _ E. eapply quote_free_no_quote; [exact Hpost | exact E].
Qed.

Definition empty_name : text := txt "name = " ++ [dq; dq].

(** C9 (amended). A quoted field written with an empty value is never
    extracted: the pattern cannot match at it, whatever follows, so a value
    found for the field never comes from there; and when the value is empty
    wherever the text has the field, every decoder leaves the field out of
    its record, as it does for a text without the field. The version of the
    document is the exception: it is not left out, the document then
    carries the placeholder [2.1], as it does without the field. *)
Theorem empty_quoted_value_absent :
  (forall f ws1 ws2 post,
     all_space ws1 -> all_space ws2 ->
     match_here (quoted_field f)
                (txt f ++ ws1 ++ txt "=" ++ ws2 ++ [dq; dq] ++ post) = None)
  /\ (forall f pre ws1 ws2 post m,
        all_space ws1 -> all_space ws2 ->
        re_search (quoted_field f)
                  (pre ++ txt f ++ ws1 ++ txt "=" ++ ws2 ++ [dq; dq] ++ post)
        = Some m ->
        m_start m <> length pre)
  /\ (forall content,
        Forall (fun fld => always_empty fld.1 content ->
                           dict_get fld.1 (fld.2 content) = None)
               quoted_leaf_fields
        /\ forall h, always_empty "name" content ->
                     dict_get "name" (parse_project content h).1 = None)
  /\ (forall content doc objs h,
        parse_kotlin_dsl_skeleton content = Some (doc, objs, h) ->
        exists m,
          re_search (block_open "project") content = Some m /\
          (always_empty "description"
             (slice_1_m1 (extract_balanced content (m_end m - 1))) ->
           dict_get "description" (cell h (project doc)) = None) /\
          (always_empty "version" content -> version doc = txt "2.1")).
Proof.
  split; [exact empty_value_no_match|]. split; [|split].
  - intros f pre ws1 ws2 post m H1 H2 Hm Hs.
    apply re_search_Some in Hm as (pre' & mid & post' & E & Hs' & _ & Hm).
    apply app_inj_1 in E as [_ E]; [|congruence].
    exact (match_here_None _ _ (empty_value_no_match f ws1 ws2 post H1 H2)
             mid post' _ E Hm).
  - intros content. split.
    + eapply Forall_impl; [exact quoted_leaf_fields_omitted|].
      intros [k d] Ho Hc. apply Ho. now apply always_empty_no_value.
    + intros h Hc. apply (extracts_omits _ _ _ _ (project_name h)).
      now apply always_empty_no_value.
  - intros content doc objs h Hsk.
    destruct (skeleton_leaf_fields _ _ _ _ Hsk) as (m & Hm & Hv & Hd).
    exists m. split; [exact Hm|]. split.
    + intros Hc. rewrite Hd.
      apply always_empty_no_value, re_search_None in Hc. now rewrite Hc.
    + intros Hc. rewrite Hv.
      apply always_empty_no_value, re_search_None in Hc. now rewrite Hc.
Qed.

Lemma empty_quoted_value_absent_witness :
  always_empty "name" empty_name /\
  dict_get "name" (parse_build_type empty_name) = None.
Proof.
  assert (Ha : always_empty "name" empty_name).
  { apply (only_empty_always_empty "name").
    exists [], [" "%char], [" "%char], [].
    split; [reflexivity|]. repeat split; repeat constructor. }
  split; [exact Ha|].
  destruct empty_quoted_value_absent as (_ & _ & H & _).
  destruct (H empty_name) as [Hf _].
  apply Forall_cons in Hf as [Hf _]. exact (Hf Ha).
Defined.

(** ** C10: a python step whose command nests a script block *)

Lemma occurs_of_search r t m : re_search r t = Some m -> occurs r t.
Proof.
  intros H. apply re_search_Some in H as (pre & mid & post & E & _ & _ & Hm).
  now exists pre, mid, post, (m_groups m).
Qed.

(** The matches [re.finditer] yields are matches of the pattern in the
    text. *)
Lemma finditer_from_elem n r (t : text) : forall pos m,
  m ∈ finditer_from n r t pos ->
  exists pre mid post,
    t = pre ++ mid ++ post /\ m_start m = length pre /\
    m_end m = length pre + length mid /\ matches r mid (m_groups m).
Proof.
  induction n as [|n IH]; intros pos m Hin; cbn [finditer_from] in Hin.
  - now apply elem_of_nil in Hin.
  - destruct (Nat.ltb_spec (length t) pos) as [Hlt|Hle];
      [now apply elem_of_nil in Hin|].
    destruct (search_at r (drop pos t) pos) as [m0|] eqn:E;
      [|now apply elem_of_nil in Hin].
    apply elem_of_cons in Hin as [-> | Hin]; [|eauto].
    apply search_at_Some in E as (pre & mid & post & E & Hs & He & Hm & _).
    exists (take pos t ++ pre), mid, post.
    rewrite <- app_assoc, <- E, take_drop, length_app, length_take_le by lia.
    repeat split; auto; lia.
Qed.


(** What [kw\s*\{] matches. *)
Lemma block_open_shape kw mid caps :
  matches (block_open kw) mid caps ->
  exists w, mid = txt kw ++ w ++ [lbrace] /\ all_space w.
Proof.
  intros Hm. unfold block_open in Hm. inv_matches. eauto.
Qed.




Lemma app_eq_split {A} (a x b y : list A) :
  a ++ x = b ++ y -> length a <= length b ->
  exists c, b = a ++ c /\ x = c ++ y.
Proof.
  revert b. induction a as [|e a IH]; intros b E Hl; cbn in *.
  - exists b. auto.
  - destruct b as [|e' b]; cbn in *; [lia|].
    injection E as -> E. destruct (IH b E ltac:(lia)) as (c & -> & ->).
    now exists c.
Qed.



Lemma slice_1_m1_braces (mid : text) :
  slice_1_m1 (lbrace :: mid ++ [rbrace]) = mid.
Proof.
  unfold slice_1_m1, slice. cbn [length drop]. rewrite length_app. cbn [length].
  rewrite drop_0.
  replace (S (length mid + 1) - 1 - 1) with (length mid) by lia.
  apply take_app_length.
Qed.

(** The balanced region of a brace that is closed later on: its body ends
    before any place where the depth is back at the level of the brace. *)
Lemma extract_balanced_inside (t : text) start (rest : text) k :
  drop start t = lbrace :: rest ->
  (1 + depth (take k rest) <= 0)%Z ->
  exists body tail,
    rest = body ++ rbrace :: tail /\
    extract_balanced t start = lbrace :: body ++ [rbrace] /\
    length body < k /\ depth body = 0%Z /\
    forall m, (0 <= depth (take m body))%Z.
Proof.
  intros Hd Hk. unfold extract_balanced, slice. rewrite Hd.
  cbn [scan_balanced]. change (Ascii.eqb lbrace lbrace) with true. cbn iota.
  change (0 + 1)%Z with 1%Z.
  pose proof (scan_balanced_spec rest 1%Z (S start) ltac:(lia)) as H.
  destruct (scan_balanced rest 1 (S start)) as [j|].
  - destruct H as (n & -> & Hn & Hz & Hp).
    exists (take n rest), (drop (S n) rest).
    assert (Hd' : depth (take (S n) rest) = (depth (take n rest) - 1)%Z).
    { rewrite (take_S_r _ _ _ Hn), depth_app. reflexivity. }
    split; [symmetry; now apply take_drop_middle|]. split; [|split; [|split]].
    + replace (S start + n + 1 - start) with (S (S n)) by lia.
      cbn [take firstn]. f_equal. now apply take_S_r.
    + rewrite length_take. destruct (Nat.le_gt_cases k n) as [Hle|]; [|lia].
      specialize (Hp k Hle). lia.
    + lia.
    + intros m. rewrite take_take. specialize (Hp (m `min` n) ltac:(lia)).
      destruct (Nat.le_gt_cases n m) as [Hle|Hgt].
      * replace (m `min` n) with n in * by lia. lia.
      * lia.
  - exfalso. specialize (H k). lia.
Qed.







(** * Further properties of the converter

    Properties of the same functions that the code shows beyond the ones
    above: the extractor at any start, what the decoders keep and drop, the
    registry, and what the merge leaves in the document. *)

(** ** The balanced-region extractor at any start *)

(** The loop from any level: it stops at the first closing brace that
    brings the running depth to zero. *)
Lemma scan_balanced_any s : forall (level : Z) (i : nat),
  match scan_balanced s level i with
  | Some j =>
      exists n, j = i + n /\ s !! n = Some rbrace /\
        (level + depth (take (S n) s) = 0)%Z /\
        forall m, m < n -> s !! m = Some rbrace ->
                  (level + depth (take (S m) s))%Z <> 0%Z
  | None =>
      forall n, s !! n = Some rbrace -> (level + depth (take (S n) s))%Z <> 0%Z
  end.
Proof.
  induction s as [|c s IH]; intros level i; cbn [scan_balanced].
  - intros n [=].
  - assert (Hrec : (c = rbrace -> (level + brace_delta c)%Z <> 0%Z) ->
        match scan_balanced s (level + brace_delta c) (S i) with
        | Some j =>
            exists n, j = i + n /\ (c :: s) !! n = Some rbrace /\
              (level + depth (take (S n) (c :: s)) = 0)%Z /\
              forall m, m < n -> (c :: s) !! m = Some rbrace ->
                        (level + depth (take (S m) (c :: s)))%Z <> 0%Z
        | None =>
            forall n, (c :: s) !! n = Some rbrace ->
                      (level + depth (take (S n) (c :: s)))%Z <> 0%Z
        end).
    { intros Hc. specialize (IH (level + brace_delta c)%Z (S i)).
      destruct (scan_balanced s (level + brace_delta c) (S i)) as [j|].
      - destruct IH as (n & -> & Hn & Hz & Hmin).
        exists (S n). repeat split; [lia | exact Hn | |].
        + cbn [take firstn depth] in *. lia.
        + intros [|m] Hm Hcm.
          * injection Hcm as ->. cbn [take firstn depth]. specialize (Hc eq_refl).
            rewrite take_0. cbn [depth]. lia.
          * cbn [take firstn depth]. specialize (Hmin m ltac:(lia) Hcm).
            cbn [take firstn] in Hmin. lia.
      - intros [|n] Hcn.
        + injection Hcn as ->. cbn [take firstn depth]. specialize (Hc eq_refl).
          rewrite take_0. cbn [depth]. lia.
        + cbn [take firstn depth]. specialize (IH n Hcn).
          cbn [take firstn] in IH. lia. }
    unfold brace_delta in Hrec.
    destruct (Ascii.eqb_spec c lbrace) as [->|Ho].
    + apply Hrec. intros [=].
    + destruct (Ascii.eqb_spec c rbrace) as [->|Hc].
      * change (level + -1)%Z with (level - 1)%Z in Hrec.
        destruct (Z.eqb_spec (level - 1) 0) as [Hz|Hz].
        -- exists 0. repeat split; [lia | | lia].
           cbn [take firstn depth]. unfold brace_delta.
           change (Ascii.eqb rbrace lbrace) with false.
           change (Ascii.eqb rbrace rbrace) with true. cbn iota.
           rewrite take_0. cbn [depth]. lia.
        -- apply Hrec. intros _. exact Hz.
      * replace (level + 0)%Z with level in Hrec by lia.
        apply Hrec. intros ->. contradiction.
Qed.

(** Where the loop stops depends only on the text up to that place. *)
Lemma scan_balanced_prefix s : forall (level : Z) (i j : nat),
  scan_balanced s level i = Some j ->
  exists n, j = i + n /\ n < length s /\
    forall u, scan_balanced (take (S n) s ++ u) level i = Some j.
Proof.
  induction s as [|c s IH]; intros level i j; cbn [scan_balanced]; [discriminate|].
  assert (Hrec : forall lv,
      scan_balanced s lv (S i) = Some j ->
      exists n, j = i + n /\ n < length (c :: s) /\
        forall u, scan_balanced (take n s ++ u) lv (S i) = Some j /\ 0 < n).
  { intros lv H. destruct (IH lv (S i) j H) as (n & -> & Hn & Hu).
    exists (S n). cbn [length]. repeat split; [lia | lia | apply Hu | lia]. }
  destruct (Ascii.eqb c lbrace) eqn:Eo.
  - intros H. destruct (Hrec _ H) as (n & -> & Hn & Hu).
    exists n. repeat split; [exact Hn|]. intros u.
    destruct (Hu u) as [Hs Hpos]. destruct n as [|n]; [lia|].
    cbn [take firstn app scan_balanced]. rewrite Eo. exact Hs.
  - destruct (Ascii.eqb c rbrace) eqn:Ec.
    + cbv zeta. destruct (Z.eqb_spec (level - 1) 0) as [Hz|Hz].
      * intros [= <-]. exists 0. cbn [length]. repeat split; [lia | lia |].
        intros u. cbn [take firstn app scan_balanced]. rewrite Eo, Ec.
        cbv zeta. destruct (Z.eqb_spec (level - 1) 0); [f_equal; lia | contradiction].
      * intros H. destruct (Hrec _ H) as (n & -> & Hn & Hu).
        exists n. repeat split; [exact Hn|]. intros u.
        destruct (Hu u) as [Hs Hpos]. destruct n as [|n]; [lia|].
        cbn [take firstn app scan_balanced]. rewrite Eo, Ec. cbv zeta.
        destruct (Z.eqb_spec (level - 1) 0); [contradiction | exact Hs].
    + intros H. destruct (Hrec _ H) as (n & -> & Hn & Hu).
      exists n. repeat split; [exact Hn|]. intros u.
      destruct (Hu u) as [Hs Hpos]. destruct n as [|n]; [lia|].
      cbn [take firstn app scan_balanced]. rewrite Eo, Ec. exact Hs.
Qed.

Lemma extract_balanced_scan t start :
  extract_balanced t start <> [] ->
  exists n, scan_balanced (drop start t) 0 start = Some (start + n) /\
    n < length (drop start t) /\
    extract_balanced t start = take (S n) (drop start t) /\
    forall u, scan_balanced (take (S n) (drop start t) ++ u) 0 start
              = Some (start + n).
Proof.
  unfold extract_balanced.
  destruct (scan_balanced (drop start t) 0 start) as [j|] eqn:E; [|congruence].
  intros _. destruct (scan_balanced_prefix _ _ _ _ E) as (n & -> & Hn & Hu).
  exists n. repeat split; auto. unfold slice. f_equal. lia.
Qed.

Lemma scan_balanced_shift s : forall (level : Z) (i i' : nat),
  scan_balanced s level i' =
  match scan_balanced s level i with
  | Some j => Some (j - i + i')
  | None => None
  end.
Proof.
  induction s as [|c s IH]; intros level i i'; cbn [scan_balanced]; [reflexivity|].
  destruct (Ascii.eqb c lbrace).
  - rewrite (IH _ (S i) (S i')).
    destruct (scan_balanced s (level + 1) (S i)) as [j|] eqn:E; [|reflexivity].
    apply scan_balanced_prefix in E as (n & -> & _). f_equal. lia.
  - destruct (Ascii.eqb c rbrace).
    + cbv zeta. destruct (level - 1 =? 0)%Z; [f_equal; lia|].
      rewrite (IH _ (S i) (S i')).
      destruct (scan_balanced s (level - 1) (S i)) as [j|] eqn:E; [|reflexivity].
      apply scan_balanced_prefix in E as (n & -> & _). f_equal. lia.
    + rewrite (IH _ (S i) (S i')).
      destruct (scan_balanced s level (S i)) as [j|] eqn:E; [|reflexivity].
      apply scan_balanced_prefix in E as (n & -> & _). f_equal. lia.
Qed.

(** X1. [extract_balanced] at any start, on a brace or not, in range or not:
    the result runs from [start] through the first closing brace before
    which (the brace included) as many braces have opened as have closed;
    when there is no such closing brace the result is empty. *)
Theorem extract_balanced_any_start (t : text) (start : nat) :
  (exists body post,
      drop start t = body ++ rbrace :: post /\
      extract_balanced t start = body ++ [rbrace] /\
      depth (body ++ [rbrace]) = 0%Z /\
      forall body' post', drop start t = body' ++ rbrace :: post' ->
        length body' < length body -> depth (body' ++ [rbrace]) <> 0%Z)
  \/ (extract_balanced t start = [] /\
      forall body' post', drop start t = body' ++ rbrace :: post' ->
        depth (body' ++ [rbrace]) <> 0%Z).
Proof.
  unfold extract_balanced.
  pose proof (scan_balanced_any (drop start t) 0 start) as H.
  destruct (scan_balanced (drop start t) 0 start) as [j|].
  - left. destruct H as (n & -> & Hn & Hz & Hmin).
    exists (take n (drop start t)), (drop (S n) (drop start t)).
    assert (Et : take (S n) (drop start t) = take n (drop start t) ++ [rbrace])
      by now apply take_S_r.
    split; [symmetry; now apply take_drop_middle|].
    split; [unfold slice; rewrite <- Et; f_equal; lia|].
    split; [rewrite <- Et; lia|].
    intros body' post' E Hlen. rewrite length_take in Hlen.
    assert (Hb : drop start t !! length body' = Some rbrace).
    { rewrite E. apply list_lookup_middle. reflexivity. }
    specialize (Hmin (length body') ltac:(lia) Hb).
    assert (Et' : take (S (length body')) (drop start t) = body' ++ [rbrace]).
    { rewrite E. rewrite (cons_middle rbrace), app_assoc.
      rewrite take_app_length'; [reflexivity|].
      rewrite length_app. cbn. lia. }
    rewrite Et' in Hmin. lia.
  - right. split; [reflexivity|]. intros body' post' E.
    assert (Hb : drop start t !! length body' = Some rbrace).
    { rewrite E. apply list_lookup_middle. reflexivity. }
    specialize (H (length body') Hb).
    assert (Et' : take (S (length body')) (drop start t) = body' ++ [rbrace]).
    { rewrite E. rewrite (cons_middle rbrace), app_assoc.
      rewrite take_app_length'; [reflexivity|].
      rewrite length_app. cbn. lia. }
    rewrite Et' in H. lia.
Qed.

(** X2. Extracting the region of an extracted region gives it back. *)
Theorem extract_balanced_idempotent (t : text) (start : nat) :
  extract_balanced (extract_balanced t start) 0 = extract_balanced t start.
Proof.
  destruct (extract_balanced t start) as [|c r] eqn:E; [reflexivity|].
  assert (Hne : extract_balanced t start <> []) by congruence.
  destruct (extract_balanced_scan t start Hne) as (n & _ & Hn & Ex & Hu).
  rewrite E in Ex. unfold extract_balanced. rewrite drop_0.
  specialize (Hu []). rewrite app_nil_r, <- Ex in Hu.
  rewrite (scan_balanced_shift _ _ start 0), Hu.
  unfold slice. rewrite drop_0.
  replace (start + n - start + 0 + 1 - 0) with (S n) by lia.
  rewrite Ex, take_take. f_equal. lia.
Qed.

(** X3. A region that closes is not affected by the text after it. *)
Theorem extract_balanced_ignores_rest (t u : text) (start : nat) :
  extract_balanced t start <> [] ->
  extract_balanced (t ++ u) start = extract_balanced t start.
Proof.
  intros Hne.
  destruct (extract_balanced_scan t start Hne) as (n & _ & Hn & Ex & Hu).
  rewrite Ex. rewrite length_drop in Hn.
  unfold extract_balanced. rewrite drop_app_le by lia.
  rewrite <- (take_drop (S n) (drop start t)) at 1. rewrite <- app_assoc.
  rewrite Hu. unfold slice. rewrite drop_app_le by lia.
  replace (start + n + 1 - start) with (S n) by lia.
  rewrite take_app_le; [reflexivity|]. rewrite length_drop. lia.
Qed.

Lemma extract_balanced_ignores_rest_witness :
  extract_balanced (txt "a { b { c } } d") 2 <> [] /\
  extract_balanced (txt "a { b { c } } d" ++ txt " } } {") 2
  = extract_balanced (txt "a { b { c } } d") 2.
Proof.
  split; [discriminate|].
  apply (extract_balanced_ignores_rest (txt "a { b { c } } d")). discriminate.
Defined.

(** ** Blocks cut at the first closing brace *)

Definition brace_free (s : text) : Prop :=
  Forall (fun c => not_char rbrace c = true) s.

(** The body captured by [f\s*\{([^}]+)\}] holds no closing brace. *)
Lemma block_plus_group f t m :
  re_search (block_plus f) t = Some m ->
  group 1 m <> [] /\ brace_free (group 1 m) /\
  exists pre w post,
    t = pre ++ txt f ++ w ++ lbrace :: group 1 m ++ rbrace :: post /\
    all_space w.
Proof.
  intros H. apply re_search_Some in H as (pre & mid & post & -> & _ & _ & Hm).
  unfold group. remember (m_groups m) as caps eqn:Ec. clear Ec.
  unfold block_plus, Plus in Hm. inv_matches. cbn [nth app Nat.sub].
  split; [discriminate|]. split; [now constructor|].
  match goal with
  | Hw : Forall (fun c => is_space c = true) ?w |- _ =>
      exists pre, w, post; split; [|exact Hw]
  end.
  repeat (rewrite <- ?app_assoc; cbn [app]). reflexivity.
Qed.

(** A pattern that does not occur in a text is found nowhere by
    [re.finditer]. *)
Lemma re_finditer_not_occurs r (t : text) : ~ occurs r t -> re_finditer r t = [].
Proof.
  intros Hn. destruct (re_finditer r t) as [|m ms] eqn:E; [reflexivity|].
  exfalso. apply Hn.
  assert (Hin : m ∈ re_finditer r t) by (rewrite E; left).
  apply finditer_from_elem in Hin as (pre & mid & post & Et & _ & _ & Hm).
  now exists pre, mid, post, (m_groups m).
Qed.

Lemma brace_free_not_elem (t : text) : brace_free t -> rbrace ∉ t.
Proof.
  intros Ht Hin. unfold brace_free in Ht. rewrite Forall_forall in Ht.
  specialize (Ht _ Hin). discriminate.
Qed.

(** [f\s*\{(G)\}] and [f\s*\{(G+)\}] only occur in a text with a closing
    brace. *)
Lemma block_star_not_in_brace_free f (t : text) :
  brace_free t -> ~ occurs (block_star f) t.
Proof.
  intros Ht (pre & mid & post & caps & E & Hm).
  apply brace_free_not_elem in Ht. apply Ht. clear Ht.
  unfold block_star in Hm. inv_matches.
  rewrite !elem_of_app, !elem_of_cons. tauto.
Qed.

Lemma block_plus_not_in_brace_free f (t : text) :
  brace_free t -> ~ occurs (block_plus f) t.
Proof.
  intros Ht (pre & mid & post & caps & E & Hm).
  apply brace_free_not_elem in Ht. apply Ht. clear Ht.
  unfold block_plus, Plus in Hm. inv_matches.
  rewrite !elem_of_app, !elem_of_cons. tauto.
Qed.

Lemma parse_triggers_brace_free (t : text) : brace_free t -> parse_triggers t = [].
Proof.
  intros Ht. unfold parse_triggers, re_findall1.
  rewrite re_finditer_not_occurs; [reflexivity|].
  now apply block_star_not_in_brace_free.
Qed.

Lemma parse_features_brace_free (t : text) : brace_free t -> parse_features t = [].
Proof.
  intros Ht. unfold parse_features, re_findall1.
  rewrite re_finditer_not_occurs; [reflexivity|].
  now apply block_star_not_in_brace_free.
Qed.

(** X4. The [triggers] of a build type is set when the text has
    [triggers { ... }] with a body of at least one character and no closing
    brace, and the list it holds is always empty: the body handed to
    [parse_triggers] stops before the first closing brace, so no
    [vcs { ... }] in it is closed. *)
Theorem build_type_triggers_always_empty (content : text) :
  (occurs (block_plus "triggers") content ->
   dict_get "triggers" (parse_build_type content) = Some (VList []))
  /\ (~ occurs (block_plus "triggers") content ->
      dict_get "triggers" (parse_build_type content) = None).
Proof.
  assert (E : dict_get "triggers" (parse_build_type content)
              = match re_search (block_plus "triggers") content with
                | Some m => Some (VList (parse_triggers (group 1 m)))
                | None => None
                end).
  { unfold parse_build_type. split_matches; reflexivity. }
  rewrite E. split; intros H.
  - destruct (re_search (block_plus "triggers") content) as [m|] eqn:Em.
    + destruct (block_plus_group _ _ _ Em) as (_ & Hg & _).
      now rewrite parse_triggers_brace_free.
    + exfalso. now apply re_search_None in Em.
  - apply re_search_None in H. now rewrite H.
Qed.

Definition build_type_with_trigger : text :=
  txt "triggers { vcs { enabled = true } }".

Lemma build_type_triggers_always_empty_witness :
  dict_get "triggers" (parse_build_type build_type_with_trigger)
  = Some (VList []).
Proof.
  apply (build_type_triggers_always_empty build_type_with_trigger).
  eapply occurs_of_search. vm_compute. reflexivity.
Defined.

(** X5. Likewise the [features] of a build type: present for a
    [features { ... }] with such a body, and always the empty list, since no
    [perfmon { ... }] is closed in what [parse_features] is given. *)
Theorem build_type_features_always_empty (content : text) :
  (occurs (block_plus "features") content ->
   dict_get "features" (parse_build_type content) = Some (VList []))
  /\ (~ occurs (block_plus "features") content ->
      dict_get "features" (parse_build_type content) = None).
Proof.
  assert (E : dict_get "features" (parse_build_type content)
              = match re_search (block_plus "features") content with
                | Some m => Some (VList (parse_features (group 1 m)))
                | None => None
                end).
  { unfold parse_build_type. split_matches; reflexivity. }
  rewrite E. split; intros H.
  - destruct (re_search (block_plus "features") content) as [m|] eqn:Em.
    + destruct (block_plus_group _ _ _ Em) as (_ & Hg & _).
      now rewrite parse_features_brace_free.
    + exfalso. now apply re_search_None in Em.
  - apply re_search_None in H. now rewrite H.
Qed.

Definition build_type_with_feature : text :=
  txt "features { perfmon { } }".

Lemma build_type_features_always_empty_witness :
  dict_get "features" (parse_build_type build_type_with_feature)
  = Some (VList []).
Proof.
  apply (build_type_features_always_empty build_type_with_feature).
  eapply occurs_of_search. vm_compute. reflexivity.
Defined.

(** ** The record of the root project *)

(** A run of the parser that returns a document: the registry and the heap
    it had before the merge, and the invariant of the merge. *)
Lemma parse_returns fuel content doc h :
  parse_kotlin_dsl fuel content = Ret (Some (doc, h)) ->
  exists objs h0,
    parse_kotlin_dsl_skeleton content = Some (doc, objs, h0) /\
    skeleton_ok objs h0 /\ project doc = 0 /\
    map_project fuel objs 0 h0 = Ret h /\ inv objs h0 h.
Proof.
  unfold parse_kotlin_dsl.
  destruct (parse_kotlin_dsl_skeleton content) as [[[doc' objs] h0]|] eqn:Esk;
    [|discriminate].
  destruct (skeleton_is_ok _ _ _ _ Esk) as [Hsk Hproj]. rewrite Hproj.
  assert (Hlen : 0 < length h0).
  { destruct (sk_root _ _ Hsk) as (root & Hr & _).
    apply lookup_lt_is_Some. eauto. }
  pose proof (map_project_post objs h0 Hsk (fun _ => 0) 0 fuel 0 h0
                (inv_init objs h0) Hlen) as Hpost.
  destruct (map_project fuel objs 0 h0) as [h'| |] eqn:Emp; cbn [bind];
    try discriminate.
  intros [= -> ->]. exists objs, h0.
  split; [reflexivity|]. split; [exact Hsk|]. split; [exact Hproj|].
  split; [exact Emp | exact Hpost].
Qed.

(** The root dict of the returned document is the one decoded from the
    project block. *)
Lemma parse_returns_root fuel content doc h :
  parse_kotlin_dsl fuel content = Ret (Some (doc, h)) ->
  exists m c b,
    re_search (block_open "project") content = Some m /\
    extract_balanced content (m_end m - 1) = c :: b /\
    project doc = 0 /\
    cell h 0 = cell (root_heap (slice_1_m1 (c :: b))) 0.
Proof.
  intros H. destruct (parse_returns _ _ _ _ H) as (objs & h0 & Esk & _ & Hp & _ & Hinv).
  apply skeleton_Some in Esk as (m & c & b & Hm & Hb & _ & E).
  exists m, c, b. repeat split; auto.
  pose proof (register_objects_ok content _ (root_heap_ok (slice_1_m1 (c :: b))))
    as [_ Hroot].
  rewrite <- E in Hroot. cbn [snd] in Hroot.
  unfold cell. rewrite !list_lookup_total_alt, (inv_root _ _ _ Hinv), Hroot.
  reflexivity.
Qed.

Definition root_keys : list string :=
  ["description"; "buildTypes"; "subProjects"; "vcsRoots"]%string.

Lemma root_heap_keys project_content k :
  k ∉ root_keys -> dict_get k (cell (root_heap project_content) 0) = None.
Proof.
  intros Hk. unfold root_keys in Hk.
  rewrite !not_elem_of_cons in Hk. destruct Hk as (Hd & Hb & Hs & Hv & _).
  unfold root_heap.
  set (hd := match re_search (quoted_field "description") project_content with
             | Some m => set_item [[]] 0 "description" (VStr (group 1 m))
             | None => [[]]
             end).
  assert (Hhd : 0 < length hd /\ dict_get k (cell hd 0) = None).
  { subst hd. destruct (re_search _ _); split; cbn; auto.
    destruct (String.eqb_spec k "description"); [contradiction | reflexivity]. }
  destruct Hhd as [Hl Hhd]. cbv zeta.
  set (h1 := add_root_refs "buildTypes" _ hd).
  set (h2 := add_root_refs "subProjects" _ h1).
  set (h3 := add_root_refs "vcsRoots" _ h2).
  assert (Hl1 : 0 < length h1) by now apply add_root_refs_length.
  assert (Hl2 : 0 < length h2) by now apply add_root_refs_length.
  assert (H3 : dict_get k (cell h3 0) = None).
  { subst h3 h2 h1. rewrite !cell_add_root_refs; auto. }
  destruct (re_search (block_plus "features") project_content) as [m|] eqn:Em;
    [|exact H3].
  destruct (block_plus_group _ _ _ Em) as (_ & Hg & _).
  apply (block_plus_not_in_brace_free "githubConnection") in Hg.
  apply re_search_None in Hg. rewrite Hg. exact H3.
Qed.

(** X6. The root project dict of a returned document only ever has the keys
    [description], [buildTypes], [subProjects] and [vcsRoots]: the root gets
    no [name] and no [id], and its [features] is never set, because the body
    searched for [githubConnection { ... }] stops before the first closing
    brace. *)
Theorem root_project_keys fuel content doc h k v :
  parse_kotlin_dsl fuel content = Ret (Some (doc, h)) ->
  dict_get k (cell h (project doc)) = Some v ->
  k ∈ root_keys.
Proof.
  intros H Hget.
  destruct (parse_returns_root _ _ _ _ H) as (m & c & b & _ & _ & Hp & Hroot).
  rewrite Hp, Hroot in Hget.
  destruct (decide (k ∈ root_keys)) as [Hin|Hout]; [exact Hin|].
  rewrite (root_heap_keys _ _ Hout) in Hget. discriminate.
Qed.

Definition project_with_feature : text :=
  txt "project { description = " ++ quoted (txt "d") ++ txt " name = "
  ++ quoted (txt "n") ++ txt " features { githubConnection { id = "
  ++ quoted (txt "g") ++ txt " } } }".

Lemma root_project_keys_witness :
  parse_kotlin_dsl 1 project_with_feature
  = Ret (Some (MkDocument (txt "2.1") 0,
               [[("description"%string, VStr (txt "d"))]]))
  /\ "description"%string ∈ root_keys.
Proof.
  assert (H : parse_kotlin_dsl 1 project_with_feature
              = Ret (Some (MkDocument (txt "2.1") 0,
                           [[("description"%string, VStr (txt "d"))]])))
    by (vm_compute; reflexivity).
  split; [exact H|].
  apply (root_project_keys 1 project_with_feature (MkDocument (txt "2.1") 0)
           [[("description"%string, VStr (txt "d"))]] "description"
           (VStr (txt "d")) H).
  reflexivity.
Defined.

(** ** What the merge resolves *)

Lemma bind_Ret {A B} (m : result A) (f : A -> result B) b :
  bind m f = Ret b -> exists a, m = Ret a /\ f a = Ret b.
Proof. destruct m as [a| |]; cbn; [eauto | discriminate | discriminate]. Qed.

Lemma ref_keys_all :
  "buildTypes"%string ∈ ref_keys /\ "subProjects"%string ∈ ref_keys /\
  "vcsRoots"%string ∈ ref_keys.
Proof.
  unfold ref_keys. repeat split;
    repeat first [apply list_elem_of_here | apply list_elem_of_further].
Qed.

Section Resolve.
Variable objs : gmap text dict.
Variable h0 : heap.
Hypothesis Hsk : skeleton_ok objs h0.

(** The dict at [l] has all the fields of the record registered under its
    id, when there is one. *)
Definition resolved (h : heap) (l : nat) : Prop :=
  forall x rec, h0 !! l = Some (fresh_ref x) -> objs !! x = Some rec ->
    forall k, k <> "id"%string -> dict_get k (cell h l) = dict_get k rec.

Definition registered (l : nat) : Prop :=
  exists x, h0 !! l = Some (fresh_ref x) /\ is_Some (objs !! x).

(** Resolved dicts stay resolved. *)
Definition keeps (h h' : heap) : Prop := forall l, resolved h l -> resolved h' l.

Lemma keeps_refl h : keeps h h.
Proof. intros l H. exact H. Qed.

Lemma keeps_trans h1 h2 h3 : keeps h1 h2 -> keeps h2 h3 -> keeps h1 h3.
Proof. intros H12 H23 l H. apply H23, H12, H. Qed.

Lemma fresh_ref_inj x y : fresh_ref x = fresh_ref y -> x = y.
Proof. now intros [= ->]. Qed.

Lemma merge_ref_resolves l h :
  inv objs h0 h -> 0 < l < length h0 ->
  exists b h',
    merge_ref objs l h = Ret (b, h') /\ inv objs h0 h' /\ keeps h h' /\
    resolved h' l /\ (b = true -> registered l).
Proof.
  intros Hinv Hl. destruct (ref_at objs h0 Hsk l Hl) as [x Hx].
  destruct (inv_refs _ _ _ Hinv l x ltac:(lia) Hx) as (d & Hd & Hid & Hm).
  destruct (merge_ref_inv objs h0 Hsk l h Hinv Hl)
    as (x' & b & h' & Hx' & Hmr & Hinv' & Hb).
  rewrite Hx in Hx'. apply (inj Some), fresh_ref_inj in Hx' as <-.
  exists b, h'. split; [exact Hmr|]. split; [exact Hinv'|].
  unfold merge_ref in Hmr. rewrite (cell_lookup _ _ _ Hd), Hid in Hmr.
  destruct (objs !! x) as [rec|] eqn:Hrec.
  - injection Hmr as <- <-.
    destruct (sk_objs _ _ Hsk _ _ Hrec) as [Hnoid Hnd _].
    assert (Hll : l < length h) by (rewrite (inv_len _ _ _ Hinv); lia).
    assert (Hnew : forall k, k <> "id"%string ->
              dict_get k (dict_update d rec) = dict_get k rec).
    { intros k Hk. rewrite dict_get_update by exact Hnd.
      destruct (dict_get k rec) as [v|] eqn:Hget; [reflexivity|].
      destruct Hm as [-> | (rec' & Hrec' & Hsame)].
      - cbn. destruct (String.eqb_spec k "id"); [contradiction | reflexivity].
      - rewrite Hsame by exact Hk. injection Hrec' as <-. exact Hget. }
    assert (Hres : resolved (<[l:=dict_update d rec]> h) l).
    { intros y rec' Hy Hrec' k Hk.
      rewrite Hx in Hy. apply (inj Some), fresh_ref_inj in Hy as <-.
      rewrite Hrec in Hrec'. injection Hrec' as <-.
      unfold cell. rewrite list_lookup_total_insert_eq by exact Hll.
      now apply Hnew. }
    split; [|split; [exact Hres | intros _; exists x; eauto]].
    intros l' Hl'. destruct (decide (l' = l)) as [->|Hne]; [exact Hres|].
    intros y rec' Hy Hrec' k Hk. unfold cell.
    rewrite list_lookup_total_insert_ne by congruence.
    now apply (Hl' y rec').
  - injection Hmr as <- <-. split; [apply keeps_refl|]. split.
    + intros y rec' Hy Hrec'.
      rewrite Hx in Hy. apply (inj Some), fresh_ref_inj in Hy as <-. congruence.
    + discriminate.
Qed.

(** A loop over a list of locations whose body resolves, for the location
    [l] it is given, the locations [R l]. *)
Lemma for_each_resolves (R : nat -> nat -> Prop)
    (body : nat -> heap -> result heap) ls : forall h h',
  inv objs h0 h ->
  (forall l h1 h2, l ∈ ls -> inv objs h0 h1 -> body l h1 = Ret h2 ->
     inv objs h0 h2 /\ keeps h1 h2 /\ forall l', R l l' -> resolved h2 l') ->
  for_each body ls h = Ret h' ->
  inv objs h0 h' /\ keeps h h' /\
  forall l l', l ∈ ls -> R l l' -> resolved h' l'.
Proof.
  induction ls as [|l ls IH]; intros h h' Hinv Hbody; cbn [for_each].
  - intros [= <-]. split; [exact Hinv|]. split; [apply keeps_refl|].
    intros l l' Hl. now apply elem_of_nil in Hl.
  - intros H. apply bind_Ret in H as (h1 & Hb & H).
    destruct (Hbody l h h1 ltac:(left) Hinv Hb) as (Hinv1 & Hk1 & Hres1).
    destruct (IH h1 h' Hinv1) as (Hinv' & Hk' & Hres'); [|exact H|].
    { intros l2 h2 h3 Hl2. apply Hbody. now right. }
    split; [exact Hinv'|]. split; [eapply keeps_trans; eauto|].
    intros l2 l' Hl2 HR. apply elem_of_cons in Hl2 as [-> | Hl2].
    + apply Hk', Hres1, HR.
    + eapply Hres'; eauto.
Qed.

Lemma for_refs_resolves (R : nat -> nat -> Prop) key
    (body : nat -> heap -> result heap) proj h h' :
  key ∈ ref_keys -> inv objs h0 h -> proj < length h0 ->
  (forall ls l h1 h2,
     dict_get key (cell h proj) = Some (VRefs ls) -> l ∈ ls ->
     0 < l < length h0 -> inv objs h0 h1 -> body l h1 = Ret h2 ->
     inv objs h0 h2 /\ keeps h1 h2 /\ forall l', R l l' -> resolved h2 l') ->
  for_refs key body proj h = Ret h' ->
  inv objs h0 h' /\ keeps h h' /\
  forall ls l l', dict_get key (cell h proj) = Some (VRefs ls) -> l ∈ ls ->
                  R l l' -> resolved h' l'.
Proof.
  intros Hk Hinv Hp Hbody. unfold for_refs.
  pose proof (inv_cell_refs objs h0 Hsk h proj Hinv Hp key) as Hr.
  destruct (dict_get key (cell h proj)) as [v|].
  - destruct (Hr v Hk eq_refl) as (ls & -> & Hls). intros H.
    destruct (for_each_resolves R body ls h h' Hinv) as (Hinv' & Hk' & Hres);
      [|exact H|].
    { intros l h1 h2 Hl. apply (Hbody ls); auto. }
    split; [exact Hinv'|]. split; [exact Hk'|].
    intros ls' l l' [= <-]. apply Hres.
  - intros [= <-]. split; [exact Hinv|]. split; [apply keeps_refl|].
    intros ls l l' [=].
Qed.

(** The reference lists a dict has once it is resolved: those of the root
    at location 0, those of the registered record elsewhere. *)
Definition lists_of (proj : nat) (key : string) : option value :=
  match proj with
  | 0 => dict_get key (cell h0 0)
  | S _ =>
      match dict_get "id" (cell h0 proj) with
      | Some (VStr x) =>
          match objs !! x with
          | Some rec => dict_get key rec
          | None => None
          end
      | _ => None
      end
  end.

Lemma lists_of_cell h proj key :
  inv objs h0 h -> proj < length h0 -> resolved h proj -> key ∈ ref_keys ->
  dict_get key (cell h proj) = lists_of proj key.
Proof.
  intros Hinv Hp Hres Hk. destruct proj as [|p]; cbn [lists_of].
  - unfold cell. now rewrite !list_lookup_total_alt, (inv_root _ _ _ Hinv).
  - destruct (ref_at objs h0 Hsk (S p) ltac:(lia)) as [x Hx].
    rewrite (cell_lookup _ _ _ Hx).
    change (dict_get "id" (fresh_ref x)) with (Some (VStr x)). cbn iota.
    destruct (objs !! x) as [rec|] eqn:Hrec.
    + apply (Hres x rec Hx Hrec). now apply ref_key_not_id.
    + destruct (inv_refs _ _ _ Hinv (S p) x ltac:(lia) Hx) as (d & Hd & _ & Hm).
      rewrite (cell_lookup _ _ _ Hd).
      destruct Hm as [-> | (rec & Hrec' & _)]; [|congruence].
      apply ref_key_not_id in Hk. cbn.
      destruct (String.eqb_spec key "id"); [contradiction | reflexivity].
Qed.

(** The locations [map_project] is called on below [proj]: the entries of
    the sub-project lists with a registered id. *)
Inductive below (proj : nat) : nat -> Prop :=
| below_here : below proj proj
| below_sub ls l p :
    lists_of proj "subProjects" = Some (VRefs ls) -> l ∈ ls -> registered l ->
    below l p -> below proj p.

(** The entries of the reference lists of [p]. *)
Definition listed (p l : nat) : Prop :=
  exists key ls, key ∈ ref_keys /\ lists_of p key = Some (VRefs ls) /\ l ∈ ls.

Lemma map_project_resolves fuel : forall proj h h',
  inv objs h0 h -> proj < length h0 -> resolved h proj ->
  map_project fuel objs proj h = Ret h' ->
  inv objs h0 h' /\ keeps h h' /\
  forall p l, below proj p -> listed p l -> resolved h' l.
Proof.
  induction fuel as [|fuel IH]; intros proj h h' Hinv Hp Hres;
    cbn [map_project]; [discriminate|].
  intros H. apply bind_Ret in H as (h1 & H1 & H).
  apply bind_Ret in H as (h2 & H2 & H3).
  (* the buildTypes loop *)
  assert (A1 : inv objs h0 h1 /\ keeps h h1 /\
            forall ls l l', dict_get "buildTypes" (cell h proj) = Some (VRefs ls) ->
                            l ∈ ls -> l' = l -> resolved h1 l').
  { eapply (for_refs_resolves (fun l l' => l' = l));
      [apply ref_keys_all | exact Hinv | exact Hp | | exact H1].
    intros ls l h3 h4 _ _ Hl Hinv3 Hb.
    destruct (merge_ref_resolves l h3 Hinv3 Hl)
      as (b & h5 & Hm & Hinv5 & Hk5 & Hr5 & _).
    cbv beta in Hb. rewrite Hm in Hb. cbn in Hb. injection Hb as <-.
    split; [exact Hinv5|]. split; [exact Hk5|]. now intros l' ->. }
  destruct A1 as (Hinv1 & Hk1 & Hr1).
  (* the subProjects loop *)
  assert (A2 : inv objs h0 h2 /\ keeps h1 h2 /\
            forall ls l l', dict_get "subProjects" (cell h1 proj) = Some (VRefs ls) ->
              l ∈ ls ->
              l' = l \/ (registered l /\ exists p, below l p /\ listed p l') ->
              resolved h2 l').
  { eapply (for_refs_resolves
              (fun l l' => l' = l \/
                           (registered l /\ exists p, below l p /\ listed p l')));
      [apply ref_keys_all | exact Hinv1 | exact Hp | | exact H2].
    intros ls l h3 h4 _ _ Hl Hinv3 Hb.
    destruct (merge_ref_resolves l h3 Hinv3 Hl)
      as (b & h5 & Hm & Hinv5 & Hk5 & Hr5 & Hreg).
    cbv beta in Hb. rewrite Hm in Hb. cbn [bind fst snd] in Hb. destruct b.
    - destruct (IH l h5 h4 Hinv5 ltac:(lia) Hr5 Hb) as (Hinv4 & Hk4 & Hr4).
      split; [exact Hinv4|]. split; [eapply keeps_trans; eauto|].
      intros l' [-> | (_ & p & Hbel & Hlis)]; [now apply Hk4 | eauto].
    - injection Hb as <-. split; [exact Hinv5|]. split; [exact Hk5|].
      intros l' [-> | (Hr & _)]; [exact Hr5|].
      exfalso. destruct Hr as (x & Hx & Hsome).
      unfold merge_ref in Hm.
      destruct (inv_refs _ _ _ Hinv3 l x ltac:(lia) Hx) as (d & Hd & Hid & _).
      rewrite (cell_lookup _ _ _ Hd), Hid in Hm.
      destruct Hsome as [rec Hrec]. rewrite Hrec in Hm. discriminate. }
  destruct A2 as (Hinv2 & Hk2 & Hr2).
  (* the vcsRoots loop *)
  assert (A3 : inv objs h0 h' /\ keeps h2 h' /\
            forall ls l l', dict_get "vcsRoots" (cell h2 proj) = Some (VRefs ls) ->
                            l ∈ ls -> l' = l -> resolved h' l').
  { eapply (for_refs_resolves (fun l l' => l' = l));
      [apply ref_keys_all | exact Hinv2 | exact Hp | | exact H3].
    intros ls l h3 h4 _ _ Hl Hinv3 Hb.
    destruct (merge_ref_resolves l h3 Hinv3 Hl)
      as (b & h5 & Hm & Hinv5 & Hk5 & Hr5 & _).
    cbv beta in Hb. rewrite Hm in Hb. cbn in Hb. injection Hb as <-.
    split; [exact Hinv5|]. split; [exact Hk5|]. now intros l' ->. }
  destruct A3 as (Hinv3 & Hk3 & Hr3).
  split; [exact Hinv3|].
  split; [eapply keeps_trans; [|exact Hk3]; eapply keeps_trans; eauto|].
  assert (Hres1 : resolved h1 proj) by now apply Hk1.
  assert (Hres2 : resolved h2 proj) by now apply Hk2.
  intros p l Hbel Hlis. destruct Hbel as [|ls l1 p Hls Hl1 Hreg Hbel].
  - destruct Hlis as (key & ls & Hkey & Hls & Hl).
    unfold ref_keys in Hkey.
    repeat (apply elem_of_cons in Hkey as [-> | Hkey]);
      [ | | | now apply elem_of_nil in Hkey ].
    + apply Hk3, Hk2. apply (Hr1 ls l l); auto.
      rewrite lists_of_cell; auto. apply ref_keys_all.
    + apply Hk3. apply (Hr2 ls l l); auto.
      rewrite lists_of_cell; auto. apply ref_keys_all.
    + apply (Hr3 ls l l); auto.
      rewrite lists_of_cell; auto. apply ref_keys_all.
  - apply Hk3. apply (Hr2 ls l1 l); [|exact Hl1|right; eauto].
    rewrite lists_of_cell; auto. apply ref_keys_all.
Qed.
End Resolve.

(** The dicts [map_project] is called on, read off the returned heap: the
    root, and the entries of their sub-project lists whose id is registered. *)
Inductive visited (objs : gmap text dict) (h : heap) : nat -> Prop :=
| visited_root : visited objs h 0
| visited_sub p ls l x :
    visited objs h p ->
    dict_get "subProjects" (cell h p) = Some (VRefs ls) -> l ∈ ls ->
    dict_get "id" (cell h l) = Some (VStr x) -> is_Some (objs !! x) ->
    visited objs h l.

Lemma below_snoc objs h0 a p ls l :
  below objs h0 a p ->
  lists_of objs h0 p "subProjects" = Some (VRefs ls) -> l ∈ ls ->
  registered objs h0 l -> below objs h0 a l.
Proof.
  intros Hb Hls Hl Hreg. induction Hb as [a | a ls' l' p Hls' Hl' Hreg' Hb IH].
  - eapply below_sub; eauto. apply below_here.
  - eapply below_sub; eauto.
Qed.

(** The id of a [{'id': ...}] dict is the one it was built with. *)
Lemma inv_id objs h0 h l x :
  skeleton_ok objs h0 -> inv objs h0 h -> 0 < l < length h0 ->
  dict_get "id" (cell h l) = Some (VStr x) -> h0 !! l = Some (fresh_ref x).
Proof.
  intros Hsk Hinv Hl Hid. destruct (ref_at objs h0 Hsk l Hl) as [y Hy].
  destruct (inv_refs _ _ _ Hinv l y ltac:(lia) Hy) as (d & Hd & Hid' & _).
  rewrite (cell_lookup _ _ _ Hd), Hid' in Hid. now injection Hid as <-.
Qed.

Lemma root_resolved objs h0 h : skeleton_ok objs h0 -> resolved objs h0 h 0.
Proof.
  intros Hsk x rec Hx. destruct (sk_root _ _ Hsk) as (root & Hr & Hid & _).
  rewrite Hr in Hx. injection Hx as ->. discriminate.
Qed.

(** X7. In a returned document, start at the root project and follow the
    sub-project entries whose id is registered. Every entry met on the way,
    in any of the three reference lists, whose id is registered has all the
    fields of the registered record: the reference is resolved by its id
    alone, whatever kind of object was declared under that name. *)
Theorem registered_references_resolved fuel content doc h :
  parse_kotlin_dsl fuel content = Ret (Some (doc, h)) ->
  exists objs h0,
    parse_kotlin_dsl_skeleton content = Some (doc, objs, h0) /\
    forall p key ls l x rec,
      visited objs h p -> key ∈ ref_keys ->
      dict_get key (cell h p) = Some (VRefs ls) -> l ∈ ls ->
      dict_get "id" (cell h l) = Some (VStr x) -> objs !! x = Some rec ->
      forall k, k <> "id"%string -> dict_get k (cell h l) = dict_get k rec.
Proof.
  intros H.
  destruct (parse_returns _ _ _ _ H) as (objs & h0 & Esk & Hsk & _ & Hmp & Hinv).
  exists objs, h0. split; [exact Esk|].
  assert (Hlen : 0 < length h0).
  { destruct (sk_root _ _ Hsk) as (root & Hr & _).
    apply lookup_lt_is_Some. eauto. }
  destruct (map_project_resolves objs h0 Hsk fuel 0 h0 h (inv_init objs h0) Hlen
              (root_resolved objs h0 h0 Hsk) Hmp) as (_ & _ & Hres).
  assert (Hentry : forall p key ls l,
            p < length h0 -> resolved objs h0 h p -> key ∈ ref_keys ->
            dict_get key (cell h p) = Some (VRefs ls) -> l ∈ ls ->
            0 < l < length h0 /\ listed objs h0 p l).
  { intros p key ls l Hp Hrp Hkey Hget Hl. split.
    - destruct (inv_cell_refs objs h0 Hsk h p Hinv Hp key _ Hkey Hget)
        as (ls' & [= <-] & Hls). auto.
    - exists key, ls. split; [exact Hkey|]. split; [|exact Hl].
      now rewrite <- (lists_of_cell objs h0 Hsk h p key Hinv Hp Hrp Hkey). }
  assert (Hvis : forall p, visited objs h p ->
            p < length h0 /\ below objs h0 0 p /\ resolved objs h0 h p).
  { intros p Hv. induction Hv as [|p ls l x Hv (Hp & Hb & Hrp) Hget Hl Hid Hx].
    - split; [exact Hlen|]. split; [apply below_here|].
      now apply root_resolved.
    - destruct (Hentry p "subProjects"%string ls l Hp Hrp
                  ltac:(apply ref_keys_all) Hget Hl) as [Hlr Hlis].
      split; [lia|]. split; [|now apply (Hres p l)].
      eapply below_snoc; [exact Hb | | exact Hl |].
      + now rewrite <- (lists_of_cell objs h0 Hsk h p "subProjects" Hinv Hp Hrp
                          ltac:(apply ref_keys_all)).
      + exists x. split; [|exact Hx]. now apply (inv_id objs h0 h). }
  intros p key ls l x rec Hv Hkey Hget Hl Hid Hx k Hk.
  destruct (Hvis p Hv) as (Hp & Hb & Hrp).
  destruct (Hentry p key ls l Hp Hrp Hkey Hget Hl) as [Hlr Hlis].
  apply (Hres p l Hb Hlis x rec); [|exact Hx | exact Hk].
  now apply (inv_id objs h0 h).
Qed.

(** [project { subProject(A) }], [object A : Project({ name = Qa Q
    buildType(B) })] and [object B : BuildType({ name = Qb Q })]. *)
Definition project_tree : text :=
  txt "project { subProject(A) } object A : Project({ name = "
  ++ quoted (txt "a") ++ txt " buildType(B) }) object B : BuildType({ name = "
  ++ quoted (txt "b") ++ txt " })".

Definition project_tree_heap : heap :=
  [[("subProjects", VRefs [1])];
   [("id", VStr (txt "A")); ("name", VStr (txt "a")); ("buildTypes", VRefs [2])];
   [("id", VStr (txt "B")); ("name", VStr (txt "b"))]]%string.

Lemma registered_references_resolved_witness :
  exists objs h0,
    parse_kotlin_dsl_skeleton project_tree
    = Some (MkDocument (txt "2.1") 0, objs, h0) /\
    forall p key ls l x rec,
      visited objs project_tree_heap p -> key ∈ ref_keys ->
      dict_get key (cell project_tree_heap p) = Some (VRefs ls) -> l ∈ ls ->
      dict_get "id" (cell project_tree_heap l) = Some (VStr x) ->
      objs !! x = Some rec ->
      forall k, k <> "id"%string ->
                dict_get k (cell project_tree_heap l) = dict_get k rec.
Proof.
  apply (registered_references_resolved 2 project_tree). vm_compute. reflexivity.
Defined.

(** ** The reference lists of the root project *)

(** The locations [ls] hold the [{'id': ...}] dicts built from the call
    arguments [xs], in order. *)
Definition stored (h : heap) (ls : list nat) (xs : list text) : Prop :=
  Forall2 (fun l x => 0 < l /\ h !! l = Some (fresh_ref (strip x))) ls xs.

(** The heap [h'] has every [{'id': ...}] dict of [h] where it was. *)
Definition extends (h h' : heap) : Prop :=
  forall l d, 0 < l -> h !! l = Some d -> h' !! l = Some d.

Lemma stored_extends h h' ls xs : extends h h' -> stored h ls xs -> stored h' ls xs.
Proof.
  intros He Hs. eapply Forall2_impl; [exact Hs|].
  intros l x [Hl Hx]. split; [exact Hl | now apply He].
Qed.

Lemma extends_refl h : extends h h.
Proof. intros l d _ H. exact H. Qed.

Lemma extends_trans h1 h2 h3 : extends h1 h2 -> extends h2 h3 -> extends h1 h3.
Proof. intros H12 H23 l d Hl H. apply H23, H12; auto. Qed.

Lemma alloc_refs_extends xs h : extends h (alloc_refs xs h).2.
Proof. intros l d _ H. unfold alloc_refs. cbn [snd]. now apply lookup_app_l_Some. Qed.

Lemma alloc_refs_stored xs h :
  0 < length h -> stored (alloc_refs xs h).2 (alloc_refs xs h).1 xs.
Proof.
  intros Hlen. unfold stored, alloc_refs. cbn [fst snd].
  apply Forall2_same_length_lookup. split; [now rewrite length_seq|].
  intros i l x Hl Hx. apply lookup_seq in Hl as [-> Hi].
  split; [lia|]. rewrite lookup_app_r by lia.
  replace (length h + i - length h) with i by lia.
  now rewrite list_lookup_fmap, Hx.
Qed.

Lemma set_item_root_extends h k v : extends h (set_item h 0 k v).
Proof.
  intros l d Hl H. unfold set_item. now rewrite list_lookup_insert_ne by lia.
Qed.

Lemma add_root_refs_extends k xs h : extends h (add_root_refs k xs h).
Proof.
  unfold add_root_refs. destruct xs as [|x xs]; [apply extends_refl|].
  eapply extends_trans; [apply alloc_refs_extends | apply set_item_root_extends].
Qed.

(** What the root dict holds under [key] for the calls [xs]. *)
Definition refs_at_root (h : heap) (key : string) (xs : list text) : Prop :=
  match xs with
  | [] => dict_get key (cell h 0) = None
  | _ :: _ =>
      exists ls, dict_get key (cell h 0) = Some (VRefs ls) /\ stored h ls xs
  end.

Lemma add_root_refs_sets k xs h :
  0 < length h -> dict_get k (cell h 0) = None ->
  refs_at_root (add_root_refs k xs h) k xs.
Proof.
  intros Hlen Hk. unfold refs_at_root, add_root_refs.
  destruct xs as [|x xs]; [exact Hk|].
  exists (alloc_refs (x :: xs) h).1. split.
  - rewrite cell_set_item.
    + now rewrite dict_get_set, String.eqb_refl.
    + unfold alloc_refs. cbn [snd]. rewrite length_app. lia.
  - eapply stored_extends; [apply set_item_root_extends|].
    now apply alloc_refs_stored.
Qed.

Lemma refs_at_root_keeps h h' key xs :
  extends h h' -> dict_get key (cell h' 0) = dict_get key (cell h 0) ->
  refs_at_root h key xs -> refs_at_root h' key xs.
Proof.
  intros He Hk. unfold refs_at_root. destruct xs as [|x xs].
  - now rewrite Hk.
  - rewrite Hk. intros (ls & Hget & Hs). exists ls.
    split; [exact Hget | eapply stored_extends; eauto].
Qed.

Lemma root_heap_refs project_content :
  let rh := root_heap project_content in
  refs_at_root rh "buildTypes"
    (re_findall1 (call_arg "buildType") project_content) /\
  refs_at_root rh "subProjects"
    (re_findall1 (call_arg "subProject") project_content) /\
  refs_at_root rh "vcsRoots"
    (re_findall1 (call_arg "vcsRoot") project_content).
Proof.
  unfold root_heap.
  set (hd := match re_search (quoted_field "description") project_content with
             | Some m => set_item [[]] 0 "description" (VStr (group 1 m))
             | None => [[]]
             end).
  assert (Hhd : 0 < length hd /\
                forall k, k <> "description"%string -> dict_get k (cell hd 0) = None).
  { subst hd. destruct (re_search _ _); split; cbn; auto.
    intros k Hk. destruct (String.eqb_spec k "description");
      [contradiction | reflexivity]. }
  destruct Hhd as [Hl Hhd]. cbv zeta.
  set (h1 := add_root_refs "buildTypes" _ hd).
  set (h2 := add_root_refs "subProjects" _ h1).
  set (h3 := add_root_refs "vcsRoots" _ h2).
  assert (Hl1 : 0 < length h1) by now apply add_root_refs_length.
  assert (Hl2 : 0 < length h2) by now apply add_root_refs_length.
  assert (Hl3 : 0 < length h3) by now apply add_root_refs_length.
  assert (H1 : refs_at_root h1 "buildTypes"
                 (re_findall1 (call_arg "buildType") project_content)).
  { apply add_root_refs_sets; [exact Hl | now apply Hhd]. }
  assert (H2 : refs_at_root h2 "subProjects"
                 (re_findall1 (call_arg "subProject") project_content)).
  { apply add_root_refs_sets; [exact Hl1|]. subst h1.
    rewrite cell_add_root_refs by (auto; discriminate). now apply Hhd. }
  assert (H3 : refs_at_root h3 "vcsRoots"
                 (re_findall1 (call_arg "vcsRoot") project_content)).
  { apply add_root_refs_sets; [exact Hl2|]. subst h2 h1.
    rewrite !cell_add_root_refs by (auto; discriminate). now apply Hhd. }
  assert (H123 :
    refs_at_root h3 "buildTypes"
      (re_findall1 (call_arg "buildType") project_content) /\
    refs_at_root h3 "subProjects"
      (re_findall1 (call_arg "subProject") project_content) /\
    refs_at_root h3 "vcsRoots"
      (re_findall1 (call_arg "vcsRoot") project_content)).
  { split; [|split; [|exact H3]].
    - apply (refs_at_root_keeps h1).
      + eapply extends_trans; apply add_root_refs_extends.
      + subst h3 h2. rewrite !cell_add_root_refs by (auto; discriminate).
        reflexivity.
      + exact H1.
    - apply (refs_at_root_keeps h2); [apply add_root_refs_extends | | exact H2].
      subst h3. rewrite cell_add_root_refs by (auto; discriminate). reflexivity. }
  destruct (re_search (block_plus "features") project_content) as [m|] eqn:Em;
    [|exact H123].
  destruct (block_plus_group _ _ _ Em) as (_ & Hg & _).
  apply (block_plus_not_in_brace_free "githubConnection") in Hg.
  apply re_search_None in Hg. rewrite Hg. exact H123.
Qed.

(** Filling the registry only adds [{'id': ...}] dicts. *)
Lemma add_refs_extends k xs st : extends st.2 (add_refs k xs st).2.
Proof.
  unfold add_refs. destruct xs as [|x xs]; [apply extends_refl|].
  cbn [snd]. apply alloc_refs_extends.
Qed.

Lemma parse_project_extends content h : extends h (parse_project content h).2.
Proof.
  rewrite parse_project_eq.
  eapply extends_trans; [|apply add_refs_extends].
  eapply extends_trans; [|apply add_refs_extends].
  apply (add_refs_extends "buildTypes" _ (_, h)).
Qed.

Lemma register_object_extends content st m :
  extends st.2 (register_object content st m).2.
Proof.
  destruct st as [objs h]. cbn [snd]. unfold register_object.
  destruct (extract_balanced content (m_end m - 1)) as [|c b];
    [apply extends_refl|].
  repeat case_decide; cbn [snd]; try apply extends_refl.
  pose proof (parse_project_extends (slice_1_m1 (c :: b)) h) as He.
  destruct (parse_project (slice_1_m1 (c :: b)) h) as [proj h']. exact He.
Qed.

Lemma register_objects_extends content h :
  extends h (register_objects content h).2.
Proof.
  unfold register_objects.
  assert (H : forall ms st,
            extends st.2 (fold_left (register_object content) ms st).2).
  { induction ms as [|m ms IH]; intros st; cbn [fold_left];
      [apply extends_refl|].
    eapply extends_trans; [apply register_object_extends | apply IH]. }
  apply (H _ (∅, h)).
Qed.

(** What the root dict of the returned document holds under [key] for the
    calls [xs]: no key when there is no call, otherwise one dict per call,
    in the order of the calls, with the trimmed argument as its id. *)
Definition refs_in_document (h : heap) (key : string) (xs : list text) : Prop :=
  match xs with
  | [] => dict_get key (cell h 0) = None
  | _ :: _ =>
      exists ls, dict_get key (cell h 0) = Some (VRefs ls) /\
        Forall2 (fun l x => dict_get "id" (cell h l) = Some (VStr (strip x)))
                ls xs
  end.

Lemma refs_in_document_of objs h0 h key xs :
  inv objs h0 h -> refs_at_root h0 key xs -> refs_in_document h key xs.
Proof.
  intros Hinv. unfold refs_at_root, refs_in_document.
  assert (Hroot : cell h 0 = cell h0 0).
  { unfold cell. now rewrite !list_lookup_total_alt, (inv_root _ _ _ Hinv). }
  rewrite Hroot. destruct xs as [|x xs]; [auto|].
  intros (ls & Hget & Hs). exists ls. split; [exact Hget|].
  eapply Forall2_impl; [exact Hs|]. intros l y [Hl Hy]. cbn beta.
  destruct (inv_refs _ _ _ Hinv l _ Hl Hy) as (d & Hd & Hid & _).
  now rewrite (cell_lookup _ _ _ Hd).
Qed.

(** X8. The three reference lists of the root project in a returned
    document: for each of [buildType(...)], [subProject(...)] and
    [vcsRoot(...)] the key is absent when the project block has no such call
    (never an empty list) and otherwise lists one dict per call, in source
    order, whose id is the call argument without surrounding whitespace;
    the merge leaves every id as it was. *)
Theorem root_references_in_source_order fuel content doc h :
  parse_kotlin_dsl fuel content = Ret (Some (doc, h)) ->
  project doc = 0 /\
  exists m,
    re_search (block_open "project") content = Some m /\
    let project_content :=
      slice_1_m1 (extract_balanced content (m_end m - 1)) in
    refs_in_document h "buildTypes"
      (re_findall1 (call_arg "buildType") project_content) /\
    refs_in_document h "subProjects"
      (re_findall1 (call_arg "subProject") project_content) /\
    refs_in_document h "vcsRoots"
      (re_findall1 (call_arg "vcsRoot") project_content).
Proof.
  intros H.
  destruct (parse_returns _ _ _ _ H) as (objs & h0 & Esk & Hsk & Hp & _ & Hinv).
  split; [exact Hp|].
  apply skeleton_Some in Esk as (m & c & b & Hm & Hb & _ & E).
  exists m. split; [exact Hm|]. rewrite Hb. cbv zeta.
  pose proof (register_objects_ok content _ (root_heap_ok (slice_1_m1 (c :: b))))
    as [_ Hroot].
  pose proof (register_objects_extends content (root_heap (slice_1_m1 (c :: b))))
    as Hext.
  rewrite <- E in Hroot, Hext. cbn [snd] in Hroot, Hext.
  assert (Hcell : dict_get "buildTypes" (cell h0 0)
                  = dict_get "buildTypes" (cell (root_heap (slice_1_m1 (c :: b))) 0)
                  /\ dict_get "subProjects" (cell h0 0)
                  = dict_get "subProjects" (cell (root_heap (slice_1_m1 (c :: b))) 0)
                  /\ dict_get "vcsRoots" (cell h0 0)
                  = dict_get "vcsRoots" (cell (root_heap (slice_1_m1 (c :: b))) 0)).
  { unfold cell. rewrite !list_lookup_total_alt, Hroot. auto. }
  destruct Hcell as (Hc1 & Hc2 & Hc3).
  destruct (root_heap_refs (slice_1_m1 (c :: b))) as (H1 & H2 & H3).
  repeat split; apply (refs_in_document_of objs h0); auto;
    eapply refs_at_root_keeps; eauto.
Qed.

Definition padded_calls : text :=
  txt "project { buildType( B ) vcsRoot(V) buildType(A) } object A : BuildType({ name = "
  ++ quoted (txt "a") ++ txt " })".

Definition padded_calls_heap : heap :=
  [[("buildTypes", VRefs [1; 2]); ("vcsRoots", VRefs [3])];
   [("id", VStr (txt "B"))];
   [("id", VStr (txt "A")); ("name", VStr (txt "a"))];
   [("id", VStr (txt "V"))]]%string.

Lemma root_references_in_source_order_witness :
  exists m,
    re_search (block_open "project") padded_calls = Some m /\
    let project_content :=
      slice_1_m1 (extract_balanced padded_calls (m_end m - 1)) in
    refs_in_document padded_calls_heap "buildTypes"
      (re_findall1 (call_arg "buildType") project_content) /\
    refs_in_document padded_calls_heap "subProjects"
      (re_findall1 (call_arg "subProject") project_content) /\
    refs_in_document padded_calls_heap "vcsRoots"
      (re_findall1 (call_arg "vcsRoot") project_content).
Proof.
  apply (root_references_in_source_order 1 padded_calls (MkDocument (txt "2.1") 0)).
  vm_compute. reflexivity.
Defined.

(** ** The registry of declared objects *)

Definition object_kinds : list text :=
  [txt "BuildType"; txt "Project"; txt "GitVcsRoot"; txt "Template"].

(** The declaration matched by [m] is registered: its balanced region
    closes and its type is one of the four the loop knows. *)
Definition declares (content : text) (m : rematch) : Prop :=
  extract_balanced content (m_end m - 1) <> [] /\ group 2 m ∈ object_kinds.

(** The record the loop stores for the declaration matched by [m]. *)
Definition decoded_as (content : text) (m : rematch) (rec : dict) : Prop :=
  let body := slice_1_m1 (extract_balanced content (m_end m - 1)) in
  ((group 2 m = txt "BuildType" \/ group 2 m = txt "Template") /\
   rec = parse_build_type body)
  \/ (group 2 m = txt "GitVcsRoot" /\ rec = parse_vcs_root body)
  \/ (group 2 m = txt "Project" /\ exists h, rec = (parse_project body h).1).

Lemma register_object_lookup content st m x :
  (group 1 m = x -> declares content m ->
   exists rec, (register_object content st m).1 !! x = Some rec /\
               decoded_as content m rec)
  /\ (~ (group 1 m = x /\ declares content m) ->
      (register_object content st m).1 !! x = st.1 !! x).
Proof.
  destruct st as [objs h]. unfold register_object, declares, decoded_as.
  cbn [fst]. cbv zeta.
  destruct (extract_balanced content (m_end m - 1)) as [|c b].
  { split; [intros _ [Hne _]; contradiction | reflexivity]. }
  repeat case_decide; cbn [fst].
  - split.
    + intros <- _. rewrite lookup_insert_eq. eauto 10.
    + intros Hn. apply lookup_insert_ne. intros E. apply Hn.
      split; [exact E|]. split; [discriminate|].
      unfold object_kinds. rewrite !elem_of_cons. auto.
  - destruct (parse_project (slice_1_m1 (c :: b)) h) as [proj h'] eqn:Ep.
    cbn [fst]. split.
    + intros <- _. rewrite lookup_insert_eq. eexists. split; [reflexivity|].
      right. right. split; [assumption|]. exists h. now rewrite Ep.
    + intros Hn. apply lookup_insert_ne. intros E. apply Hn.
      split; [exact E|]. split; [discriminate|].
      unfold object_kinds. rewrite !elem_of_cons. auto.
  - split.
    + intros <- _. rewrite lookup_insert_eq. eauto 10.
    + intros Hn. apply lookup_insert_ne. intros E. apply Hn.
      split; [exact E|]. split; [discriminate|].
      unfold object_kinds. rewrite !elem_of_cons. auto.
  - split.
    + intros <- _. rewrite lookup_insert_eq. eauto 10.
    + intros Hn. apply lookup_insert_ne. intros E. apply Hn.
      split; [exact E|]. split; [discriminate|].
      unfold object_kinds. rewrite !elem_of_cons. auto.
  - split; [|reflexivity].
    intros _ [_ Hk]. exfalso. unfold object_kinds in Hk.
    rewrite !elem_of_cons, elem_of_nil in Hk. tauto.
Qed.

Lemma declares_dec content m x :
  (group 1 m = x /\ declares content m) \/ ~ (group 1 m = x /\ declares content m).
Proof.
  unfold declares.
  destruct (decide (group 1 m = x)); [|right; tauto].
  destruct (decide (extract_balanced content (m_end m - 1) = [])); [right; tauto|].
  destruct (decide (group 2 m ∈ object_kinds)); [left | right]; tauto.
Qed.

Lemma register_fold_keeps content x ms : forall st,
  (forall m, m ∈ ms -> ~ (group 1 m = x /\ declares content m)) ->
  (fold_left (register_object content) ms st).1 !! x = st.1 !! x.
Proof.
  induction ms as [|m ms IH]; intros st Hn; cbn [fold_left]; [reflexivity|].
  rewrite IH by (intros m' Hm'; apply Hn; now right).
  apply register_object_lookup, Hn. left.
Qed.

Lemma register_fold_dom content x ms : forall st,
  is_Some ((fold_left (register_object content) ms st).1 !! x) <->
  is_Some (st.1 !! x) \/
  exists m, m ∈ ms /\ group 1 m = x /\ declares content m.
Proof.
  induction ms as [|m ms IH]; intros st; cbn [fold_left].
  - split; [auto|]. intros [H | (m & Hm & _)]; [exact H|].
    now apply elem_of_nil in Hm.
  - rewrite IH. destruct (register_object_lookup content st m x) as [Hyes Hno].
    split.
    + intros [H | (m' & Hm' & Hx)].
      * destruct (declares_dec content m x) as [[Hg Hd] | Hn].
        -- right. exists m. split; [left | auto].
        -- rewrite (Hno Hn) in H. now left.
      * right. exists m'. split; [now right | exact Hx].
    + intros [H | (m' & Hm' & Hg & Hd)].
      * destruct (declares_dec content m x) as [[Hg Hd] | Hn].
        -- left. destruct (Hyes Hg Hd) as (rec & -> & _). eauto.
        -- left. now rewrite (Hno Hn).
      * apply elem_of_cons in Hm' as [-> | Hm'].
        -- left. destruct (Hyes Hg Hd) as (rec & -> & _). eauto.
        -- right. eauto.
Qed.

(** What [object\s+(\w+)\s*:\s*(\w+)\(\{] captures. *)
Lemma object_re_groups (content : text) m :
  m ∈ re_finditer object_re content ->
  group 1 m <> [] /\ Forall (fun c => is_word c = true) (group 1 m) /\
  group 2 m <> [] /\ Forall (fun c => is_word c = true) (group 2 m).
Proof.
  intros H. apply finditer_from_elem in H as (pre & mid & post & _ & _ & _ & Hm).
  unfold group. remember (m_groups m) as caps eqn:Ec. clear Ec.
  unfold object_re, Plus in Hm. inv_matches. cbn [nth app Nat.sub].
  repeat split; try discriminate; now constructor.
Qed.

(** X9. The names in the registry when the merge starts are exactly the
    names of the declarations [object NAME : TYPE({ ... })] of the whole
    source whose balanced region closes and whose TYPE is BuildType, Project,
    GitVcsRoot or Template; a declaration of any other type, or one that is
    never closed, registers nothing. A registered name is a non-empty run of
    word characters. *)
Theorem registry_names content doc objs h :
  parse_kotlin_dsl_skeleton content = Some (doc, objs, h) ->
  (forall x, is_Some (objs !! x) <->
     exists m, m ∈ re_finditer object_re content /\ group 1 m = x /\
               declares content m)
  /\ (forall x, is_Some (objs !! x) ->
        x <> [] /\ Forall (fun c => is_word c = true) x).
Proof.
  intros H. apply skeleton_Some in H as (m0 & c & b & _ & _ & _ & E).
  assert (Hdom : forall x, is_Some (objs !! x) <->
            exists m, m ∈ re_finditer object_re content /\ group 1 m = x /\
                      declares content m).
  { intros x. unfold register_objects in E.
    pose proof (register_fold_dom content x (re_finditer object_re content)
                  (∅, root_heap (slice_1_m1 (c :: b)))) as Hd.
    rewrite <- E in Hd. cbn [fst] in Hd. rewrite Hd. split.
    - intros [Hs | Hm]; [|exact Hm]. rewrite lookup_empty in Hs.
      now destruct Hs.
    - auto. }
  split; [exact Hdom|].
  intros x Hx. apply Hdom in Hx as (m & Hm & <- & _).
  destruct (object_re_groups content m Hm) as (H1 & H2 & _). auto.
Qed.

Definition three_objects : text :=
  txt "project { } object A : BuildType({ }) object B : Other({ }) object C : Project({ ".

Lemma three_objects_skeleton :
  exists objs,
    parse_kotlin_dsl_skeleton three_objects
    = Some (MkDocument (txt "2.1") 0, objs, [[]]) /\
    map_to_list objs = [(txt "A", ([] : dict))].
Proof. eexists. split; vm_compute; reflexivity. Qed.

Lemma registry_names_witness :
  exists objs,
    parse_kotlin_dsl_skeleton three_objects
    = Some (MkDocument (txt "2.1") 0, objs, [[]]) /\
    map_to_list objs = [(txt "A", ([] : dict))] /\
    (forall x, is_Some (objs !! x) <->
       exists m, m ∈ re_finditer object_re three_objects /\ group 1 m = x /\
                 declares three_objects m)
    /\ (forall x, is_Some (objs !! x) ->
          x <> [] /\ Forall (fun c => is_word c = true) x).
Proof.
  destruct three_objects_skeleton as (objs & Hsk & Hl).
  exists objs. split; [exact Hsk|]. split; [exact Hl|].
  exact (registry_names three_objects _ objs _ Hsk).
Defined.

(** X10. When a name is declared more than once the last declaration that is
    registered wins: the registry holds for the name the record decoded from
    that declaration, by the build-type decoder for BuildType and Template
    alike, by the vcs-root decoder for GitVcsRoot and by the project decoder
    for Project. *)
Theorem last_declaration_wins content doc objs h ms m ms' :
  parse_kotlin_dsl_skeleton content = Some (doc, objs, h) ->
  re_finditer object_re content = ms ++ m :: ms' ->
  declares content m ->
  (forall m', m' ∈ ms' -> declares content m' -> group 1 m' <> group 1 m) ->
  exists rec, objs !! group 1 m = Some rec /\ decoded_as content m rec.
Proof.
  intros H Hms Hd Hlast.
  apply skeleton_Some in H as (m0 & c & b & _ & _ & _ & E).
  unfold register_objects in E. rewrite Hms, fold_left_app in E.
  cbn [fold_left] in E.
  set (st := fold_left (register_object content) ms
               (∅, root_heap (slice_1_m1 (c :: b)))) in E.
  destruct (register_object_lookup content st m (group 1 m)) as [Hyes _].
  destruct (Hyes eq_refl Hd) as (rec & Hrec & Hdec).
  exists rec. split; [|exact Hdec].
  pose proof (register_fold_keeps content (group 1 m) ms'
                (register_object content st m)) as Hk.
  rewrite <- E in Hk. cbn [fst] in Hk. rewrite Hk; [exact Hrec|].
  intros m' Hm' [Hg Hd']. now apply (Hlast m' Hm' Hd').
Qed.

Definition declared_twice : text :=
  txt "project { } object A : BuildType({ name = " ++ quoted (txt "first")
  ++ txt " }) object A : Template({ name = " ++ quoted (txt "second")
  ++ txt " })".

Lemma last_declaration_wins_witness :
  exists objs m rec,
    parse_kotlin_dsl_skeleton declared_twice
    = Some (MkDocument (txt "2.1") 0, objs, [[]]) /\
    group 1 m = txt "A" /\ group 2 m = txt "Template" /\
    objs !! group 1 m = Some rec /\ decoded_as declared_twice m rec /\
    objs !! txt "A" = Some [("name"%string, VStr (txt "second"))].
Proof.
  assert (Hsk : exists objs,
            parse_kotlin_dsl_skeleton declared_twice
            = Some (MkDocument (txt "2.1") 0, objs, [[]]) /\
            objs !! txt "A" = Some [("name"%string, VStr (txt "second"))]).
  { eexists. split; vm_compute; reflexivity. }
  destruct Hsk as (objs & Hsk & HA).
  assert (Hms : exists m1 m2,
            re_finditer object_re declared_twice = [m1] ++ m2 :: [] /\
            group 1 m2 = txt "A" /\ group 2 m2 = txt "Template" /\
            declares declared_twice m2).
  { eexists. eexists. split; [vm_compute; reflexivity|].
    split; [reflexivity|]. split; [reflexivity|].
    split; [vm_compute; discriminate|].
    unfold object_kinds. rewrite !elem_of_cons. auto. }
  destruct Hms as (m1 & m2 & Hms & Hg1 & Hg2 & Hd).
  destruct (last_declaration_wins declared_twice _ objs _ [m1] m2 [] Hsk Hms Hd)
    as (rec & Hrec & Hdec).
  { intros m' Hm'. now apply elem_of_nil in Hm'. }
  exists objs, m2, rec. auto 10.
Defined.

(** ** Quoted fields and flags *)

(** [g] stands between double quotes after [f =] somewhere in [t], and is
    a non-empty text without a double quote. *)
Definition quoted_in (f : string) (t g : text) : Prop :=
  (exists pre ws1 ws2 post,
     t = pre ++ txt f ++ ws1 ++ txt "=" ++ ws2 ++ [dq] ++ g ++ [dq] ++ post /\
     all_space ws1 /\ all_space ws2)
  /\ g <> [] /\ quote_free g.

Lemma quoted_field_found f t m :
  re_search (quoted_field f) t = Some m -> quoted_in f t (group 1 m).
Proof.
  intros H. read_match H.
  match goal with E : m_groups _ = _ |- _ => rewrite (group_1_single _ _ E) end.
  split; [found_between pre post|].
  split; [discriminate | now constructor].
Qed.

Lemma quoted_leaf_fields_extracted :
  Forall (fun fld => extracts (quoted_field fld.1) fld.1 fld.2 captured)
         quoted_leaf_fields.
Proof.
  unfold quoted_leaf_fields.
  repeat (apply Forall_cons; split;
          [cbn [fst snd];
           first
             [ apply build_type_name
             | apply script_step_name | apply script_step_id
             | apply script_step_working_dir
             | apply python_step_name | apply python_step_id
             | apply powershell_step_name | apply powershell_step_id
             | apply general_step_name | apply general_step_id
             | apply general_step_type
             | apply kotlin_step_name | apply kotlin_step_id
             | apply vcs_root_name | apply vcs_root_url
             | apply vcs_root_branch ]
          |]).
  apply Forall_nil. exact I.
Qed.

(** X11. The value of a quoted field in a decoded record (the names, ids,
    working directory, generic type, url and branch, the name of a project
    object and the description of the root project) is a text of the source:
    a non-empty run of characters other than the double quote that stands
    between double quotes after the key, optional whitespace, an equals sign
    and optional whitespace. The version of the document is such a text or
    the default. *)
Theorem quoted_fields_from_source :
  Forall (fun fld => forall content v,
            dict_get fld.1 (fld.2 content) = Some v ->
            exists g, v = VStr g /\ quoted_in fld.1 content g)
         quoted_leaf_fields
  /\ (forall content h v,
        dict_get "name" (parse_project content h).1 = Some v ->
        exists g, v = VStr g /\ quoted_in "name" content g)
  /\ (forall content doc objs h,
        parse_kotlin_dsl_skeleton content = Some (doc, objs, h) ->
        (version doc = txt "2.1" \/ quoted_in "version" content (version doc))
        /\ forall v, dict_get "description" (cell h (project doc)) = Some v ->
             exists g block, v = VStr g /\ substring block content /\
                             quoted_in "description" block g).
Proof.
  assert (Hx : forall key decode,
            extracts (quoted_field key) key decode captured ->
            forall content v, dict_get key (decode content) = Some v ->
              exists g, v = VStr g /\ quoted_in key content g).
  { intros key decode He content v H. rewrite He in H.
    destruct (re_search (quoted_field key) content) as [m|] eqn:E;
      [|discriminate].
    injection H as <-. exists (group 1 m).
    split; [reflexivity | now apply quoted_field_found]. }
  split; [|split].
  - eapply Forall_impl; [exact quoted_leaf_fields_extracted|].
    intros [key decode] He. now apply Hx.
  - intros content h. apply (Hx "name"%string (fun c => (parse_project c h).1)).
    apply project_name.
  - intros content doc objs h Hsk.
    destruct (skeleton_leaf_fields _ _ _ _ Hsk) as (m & Hm & Hv & Hd).
    split.
    + rewrite Hv.
      destruct (re_search (quoted_field "version") content) as [m'|] eqn:E;
        [right; now apply quoted_field_found | now left].
    + intros v Hget. rewrite Hd in Hget.
      destruct (re_search (quoted_field "description") _) as [m'|] eqn:E;
        [|discriminate].
      injection Hget as <-.
      exists (group 1 m'), (slice_1_m1 (extract_balanced content (m_end m - 1))).
      split; [reflexivity|]. split; [|now apply quoted_field_found].
      apply slice_1_m1_substring, extract_balanced_substring.
Qed.

Lemma quoted_fields_from_source_witness :
  exists g, VStr (txt "https://x/y.git") = VStr g /\
            quoted_in "url" (txt "url = " ++ quoted (txt "https://x/y.git")) g.
Proof.
  destruct quoted_fields_from_source as (Hleaf & _).
  unfold quoted_leaf_fields in Hleaf. rewrite !Forall_cons in Hleaf.
  destruct Hleaf as (_ & _ & _ & _ & _ & _ & _ & _ & _ & _ & _ & _ & _ & _ & H & _).
  apply (H (txt "url = " ++ quoted (txt "https://x/y.git"))). reflexivity.
Defined.



(** ** Pairs of quoted arguments *)

Definition pair_ok (pv : text * text) : Prop :=
  pv.1 <> [] /\ quote_free pv.1 /\ pv.2 <> [] /\ quote_free pv.2.

Definition powershell_conditions : text :=
  txt "conditions { equals(" ++ quoted (txt "a") ++ txt ", " ++ quoted (txt "b")
  ++ txt ") contains(" ++ quoted (txt "c") ++ txt ", " ++ quoted (txt "d")
  ++ txt ") }".

(** ** The steps of a build type *)

(** The balanced region after the leftmost [kw\s*\{] of a text, when it
    closes. *)
Lemma search_block_region kw content m c b :
  re_search (block_open kw) content = Some m ->
  extract_balanced content (m_end m - 1) = c :: b ->
  exists before w body after,
    content = before ++ txt kw ++ w ++ lbrace :: body ++ rbrace :: after /\
    all_space w /\ slice_1_m1 (c :: b) = body /\
    depth body = 0%Z /\ (forall n, (0 <= depth (take n body))%Z) /\
    forall pre' mid' post' caps,
      content = pre' ++ mid' ++ post' -> matches (block_open kw) mid' caps ->
      length before <= length pre'.
Proof.
  intros Hm Hb.
  pose proof (block_open_brace _ _ _ Hm) as Hbrace.
  apply search_at_Some in Hm as (pre & mid & post & E & Hs & He & Hmid & Hleft).
  apply block_open_shape in Hmid as (w & -> & Hw).
  destruct (extract_balanced_cases content (m_end m - 1) Hbrace)
    as [(n & _ & Hx & (body & Hr & Hz & Hp)) | [_ Hx]];
    rewrite Hx in Hb; [|discriminate].
  exists pre, w, body, (drop n (drop (m_end m - 1) content)).
  split; [|split; [exact Hw|split; [|auto]]].
  - assert (Hd : drop (m_end m - 1) content = lbrace :: post).
    { rewrite E, He, Hs. rewrite !length_app. cbn [length].
      rewrite !app_assoc. rewrite <- (app_assoc _ [lbrace] post).
      rewrite drop_app_length'; [reflexivity|].
      rewrite !length_app. lia. }
    rewrite <- (take_drop n (drop (m_end m - 1) content)) in Hd.
    rewrite Hr in Hd. cbn [app] in Hd. injection Hd as Hd.
    rewrite <- app_assoc in Hd. cbn [app] in Hd. rewrite Hd.
    rewrite E at 1. repeat (rewrite <- ?app_assoc; cbn [app]). reflexivity.
  - rewrite <- Hb, Hr. apply slice_1_m1_braces.
Qed.

(** X15. The [steps] of a build type, when the key is there, is the list
    decoded by [parse_steps] from the body of the leftmost [steps {] of the
    text: what stands between that brace and the brace matching it, which is
    balanced. Nothing after the matching brace is read. *)
Theorem build_type_steps_region (content : text) (v : value) :
  dict_get "steps" (parse_build_type content) = Some v ->
  exists before w body after,
    content = before ++ txt "steps" ++ w ++ lbrace :: body ++ rbrace :: after /\
    all_space w /\ depth body = 0%Z /\
    (forall n, (0 <= depth (take n body))%Z) /\
    (forall pre' mid' post' caps,
       content = pre' ++ mid' ++ post' ->
       matches (block_open "steps") mid' caps ->
       length before <= length pre') /\
    v = VList (parse_steps body).
Proof.
  assert (E : dict_get "steps" (parse_build_type content)
              = match re_search (block_open "steps") content with
                | Some m =>
                    match extract_balanced content (m_end m - 1) with
                    | [] => None
                    | b => Some (VList (parse_steps (slice_1_m1 b)))
                    end
                | None => None
                end).
  { unfold parse_build_type.
    destruct (re_search (block_open "steps") content) as [m|];
      [destruct (extract_balanced content (m_end m - 1))|];
      split_matches; reflexivity. }
  rewrite E. clear E.
  destruct (re_search (block_open "steps") content) as [m|] eqn:Em;
    [|discriminate].
  destruct (extract_balanced content (m_end m - 1)) as [|c b] eqn:Eb;
    [discriminate|].
  intros [= <-].
  destruct (search_block_region _ _ _ _ _ Em Eb)
    as (before & w & body & after & Ec & Hw & Hs & Hz & Hp & Hleft).
  exists before, w, body, after. rewrite Hs. auto 10.
Qed.

Definition build_type_with_steps : text :=
  txt "steps { script { } } triggers { }".

Lemma build_type_steps_region_witness :
  exists before w body after,
    build_type_with_steps
    = before ++ txt "steps" ++ w ++ lbrace :: body ++ rbrace :: after /\
    all_space w /\ depth body = 0%Z /\
    (forall n, (0 <= depth (take n body))%Z) /\
    (forall pre' mid' post' caps,
       build_type_with_steps = pre' ++ mid' ++ post' ->
       matches (block_open "steps") mid' caps ->
       length before <= length pre') /\
    VList [VDict [("type"%string, VStr (txt "script"))]]
    = VList (parse_steps body).
Proof.
  apply (build_type_steps_region build_type_with_steps). reflexivity.
Defined.

(** ** The reference lists of a project object *)

(** The [{'id': ...}] dicts built for the call arguments [xs]. *)
Definition id_dicts (xs : list text) : heap :=
  map (fun x => fresh_ref (strip x)) xs.

(** The value stored for the calls [xs] whose dicts start at [base]. *)
Definition refs_from (base : nat) (xs : list text) : option value :=
  match xs with
  | [] => None
  | _ :: _ => Some (VRefs (seq base (length xs)))
  end.

Lemma add_refs_heap k xs st : (add_refs k xs st).2 = st.2 ++ id_dicts xs.
Proof.
  unfold add_refs. destruct xs as [|x xs]; [now rewrite app_nil_r|].
  reflexivity.
Qed.

Lemma add_refs_get k xs st :
  dict_get k st.1 = None ->
  dict_get k (add_refs k xs st).1 = refs_from (length st.2) xs.
Proof.
  intros Hk. unfold add_refs, refs_from. destruct xs as [|x xs]; [exact Hk|].
  cbn [fst]. now rewrite dict_get_set, String.eqb_refl.
Qed.

Lemma add_refs_get_ne k k' xs st :
  k' <> k -> dict_get k' (add_refs k xs st).1 = dict_get k' st.1.
Proof.
  intros Hk. unfold add_refs. destruct xs as [|x xs]; [reflexivity|].
  cbn [fst]. now apply dict_get_set_ne.
Qed.

(** X17. [parse_project] builds one [{'id': ...}] dict per
    [buildType(...)], [subProject(...)] and [vcsRoot(...)] call of its
    input, the build types first, then the sub-projects, then the vcs roots,
    each kind in source order, with the call argument stripped of surrounding
    whitespace as id; the dicts that exist already are left alone. Each of
    the three keys lists the dicts of its calls, and is absent (never an
    empty list) when there is no such call. *)
Theorem parse_project_references (content : text) (h : heap) :
  let bts := re_findall1 (call_arg "buildType") content in
  let sps := re_findall1 (call_arg "subProject") content in
  let vrs := re_findall1 (call_arg "vcsRoot") content in
  (parse_project content h).2 = h ++ id_dicts bts ++ id_dicts sps ++ id_dicts vrs
  /\ dict_get "buildTypes" (parse_project content h).1
     = refs_from (length h) bts
  /\ dict_get "subProjects" (parse_project content h).1
     = refs_from (length h + length bts) sps
  /\ dict_get "vcsRoots" (parse_project content h).1
     = refs_from (length h + length bts + length sps) vrs.
Proof.
  intros bts sps vrs. rewrite parse_project_eq. fold bts sps vrs.
  set (st0 := (match re_search (quoted_field "name") content with
               | Some m => dict_set "name" (VStr (group 1 m)) []
               | None => []
               end, h)).
  assert (H0 : forall k, k <> "name"%string -> dict_get k st0.1 = None).
  { intros k Hk. subst st0. cbn [fst]. destruct (re_search _ _); [|reflexivity].
    cbn. destruct (String.eqb_spec k "name"); [contradiction | reflexivity]. }
  set (st1 := add_refs "buildTypes" bts st0).
  set (st2 := add_refs "subProjects" sps st1).
  assert (E1 : st1.2 = h ++ id_dicts bts) by apply add_refs_heap.
  assert (E2 : st2.2 = h ++ id_dicts bts ++ id_dicts sps).
  { subst st2. now rewrite add_refs_heap, E1, <- app_assoc. }
  split; [|split; [|split]].
  - now rewrite add_refs_heap, E2, <- !app_assoc.
  - subst st2 st1. rewrite !add_refs_get_ne by discriminate.
    apply (add_refs_get "buildTypes" bts st0). now apply H0.
  - rewrite add_refs_get_ne by discriminate.
    replace (length h + length bts) with (length st1.2)
      by (rewrite E1, length_app; unfold id_dicts; now rewrite length_map).
    apply (add_refs_get "subProjects" sps st1).
    subst st1. rewrite add_refs_get_ne by discriminate. now apply H0.
  - replace (length h + length bts + length sps) with (length st2.2)
      by (rewrite E2, !length_app; unfold id_dicts; rewrite !length_map; lia).
    apply (add_refs_get "vcsRoots" vrs st2).
    subst st2 st1. rewrite !add_refs_get_ne by discriminate. now apply H0.
Qed.

(** * Values read from the leftmost match and from a scan *)

(** ** Leftmost matches *)

(** No match of [r] in [t] starts before the end of [pre]. *)
Definition leftmost (r : regex) (t pre : text) : Prop :=
  forall pre' mid' post' caps,
    t = pre' ++ mid' ++ post' -> matches r mid' caps ->
    length pre <= length pre'.

(** [re.search] returns what the matcher finds at the leftmost place where
    the pattern matches. *)
Lemma search_at_here r s : forall pos m,
  search_at r s pos = Some m ->
  exists pre rest s',
    s = pre ++ rest /\ match_here r rest = Some (s', m_groups m) /\
    m_start m = pos + length pre /\
    m_end m = m_start m + (length rest - length s') /\
    leftmost r s pre.
Proof.
  induction s as [|c0 s IH]; intros pos m; rewrite search_at_eq.
  - destruct (match_here r []) as [[s' caps]|] eqn:E; [|discriminate].
    intros [= <-]. exists [], [], s'. cbn [app length m_start m_end m_groups].
    split; [reflexivity|]. split; [exact E|]. split; [lia|]. split; [lia|].
    intros pre' mid' post' c _ _. cbn. lia.
  - destruct (match_here r (c0 :: s)) as [[s' caps]|] eqn:E.
    + intros [= <-]. exists [], (c0 :: s), s'.
      cbn [app length m_start m_end m_groups].
      split; [reflexivity|]. split; [exact E|]. split; [lia|]. split; [lia|].
      intros pre' mid' post' c _ _. cbn. lia.
    + intros H. apply IH in H as (pre & rest & s' & -> & Hm & Hs & He & Hl).
      exists (c0 :: pre), rest, s'. cbn [length app].
      split; [reflexivity|]. split; [exact Hm|]. split; [lia|]. split; [lia|].
      intros [|c1 pre'] mid' post' c E' Hm'.
      * exfalso. exact (match_here_None _ _ E mid' post' c E' Hm').
      * injection E' as _ E'. cbn [length].
        specialize (Hl pre' mid' post' c E' Hm'). lia.
Qed.

Lemma re_search_here r t m :
  re_search r t = Some m ->
  exists pre rest s',
    t = pre ++ rest /\ match_here r rest = Some (s', m_groups m) /\
    m_start m = length pre /\
    m_end m = length pre + (length rest - length s') /\
    leftmost r t pre.
Proof.
  intros H. apply search_at_here in H as (pre & rest & s' & E & Hm & Hs & He & Hl).
  exists pre, rest, s'. cbn in Hs.
  split; [exact E|]. split; [exact Hm|]. split; [exact Hs|].
  split; [lia | exact Hl].
Qed.

(** Two leftmost places of the same text are the same place. *)
Lemma leftmost_unique r (t pre mid post pre' mid' post' : text) caps caps' :
  t = pre ++ mid ++ post -> matches r mid caps -> leftmost r t pre ->
  t = pre' ++ mid' ++ post' -> matches r mid' caps' -> leftmost r t pre' ->
  pre = pre' /\ mid ++ post = mid' ++ post'.
Proof.
  intros E Hm Hl E' Hm' Hl'.
  pose proof (Hl _ _ _ _ E' Hm'). pose proof (Hl' _ _ _ _ E Hm).
  rewrite E in E'. apply app_inj_1 in E'; [exact E' | lia].
Qed.

(** A match exists: [re.search] finds one. *)
Lemma re_search_occurs r t :
  occurs r t -> exists m, re_search r t = Some m.
Proof.
  intros Ho. destruct (re_search r t) as [m|] eqn:E; [eauto|].
  exfalso. now apply re_search_None in E.
Qed.

(** The lazy repetition stops at the first place where what follows
    matches. *)
Lemma star_lazy_first {A} p (k : text -> option A) s a :
  star_lazy p k s = Some a ->
  exists s1 s2, s = s1 ++ s2 /\ Forall (fun c => p c = true) s1 /\
    k s2 = Some a /\
    forall s1' s2', s = s1' ++ s2' -> length s1' < length s1 -> k s2' = None.
Proof.
  induction s as [|c s IH]; simpl; intros H.
  - destruct (k []) eqn:Hk; [|discriminate]. injection H as ->.
    exists [], []. repeat split; auto. intros s1' s2' _ Hl. cbn in Hl. lia.
  - destruct (k (c :: s)) eqn:Hk.
    + injection H as ->. exists [], (c :: s). repeat split; auto.
      intros s1' s2' _ Hl. cbn in Hl. lia.
    + destruct (p c) eqn:Hp; [|discriminate].
      destruct (IH H) as (s1 & s2 & -> & Hf & Hk' & Hmin).
      exists (c :: s1), s2. repeat split; auto.
      intros [|c' s1'] s2' E Hl.
      * cbn in E. now subst s2'.
      * cbn in E. injection E as <- E. apply (Hmin s1' s2' E). cbn in Hl. lia.
Qed.

(** ** Trimming *)

Lemma all_space_elem (s : text) c : all_space s -> c ∈ s -> is_space c = true.
Proof. intros Hs Hc. unfold all_space in Hs. rewrite Forall_forall in Hs. auto. Qed.

(** A text has one trimmed form. *)
Lemma trimmed_unique (g s s' : text) : trimmed g s -> trimmed g s' -> s = s'.
Proof.
  intros (l & r & E & Hl & Hr & Hh & Ht) (l' & r' & E' & Hl' & Hr' & Hh' & Ht').
  destruct s as [|c s].
  - destruct s' as [|c' s']; [reflexivity|]. exfalso.
    pose proof (Hh' c' s' eq_refl) as Hc. cbn [app] in E.
    assert (Hin : c' ∈ l ++ r).
    { rewrite <- E, E'. rewrite !elem_of_app. right. left. left. }
    apply elem_of_app in Hin as [Hin | Hin];
      [apply (all_space_elem l) in Hin | apply (all_space_elem r) in Hin];
      congruence.
  - destruct s' as [|c' s'].
    + exfalso. pose proof (Hh c s eq_refl) as Hc. cbn [app] in E'.
      assert (Hin : c ∈ l' ++ r').
      { rewrite <- E', E. rewrite !elem_of_app. right. left. left. }
      apply elem_of_app in Hin as [Hin | Hin];
        [apply (all_space_elem l') in Hin | apply (all_space_elem r') in Hin];
        congruence.
    + rewrite E in E'. cbn [app] in E'.
      apply (span_unique is_space) in E' as (-> & -> & E');
        [|assumption|assumption|eapply Hh; eauto|eapply Hh'; eauto].
      f_equal.
      (* the ends, read backwards *)
      assert (Er : rev r ++ rev (c' :: s) = rev r' ++ rev (c' :: s')).
      { rewrite <- !rev_app_distr. cbn [app]. now rewrite E'. }
      destruct (rev (c' :: s)) as [|d v] eqn:Ev.
      { apply (f_equal length) in Ev. rewrite length_rev in Ev. discriminate. }
      destruct (rev (c' :: s')) as [|d' v'] eqn:Ev'.
      { apply (f_equal length) in Ev'. rewrite length_rev in Ev'. discriminate. }
      assert (Hd : is_space d = false).
      { apply (Ht d (rev v)). rewrite <- (rev_involutive (c' :: s)), Ev.
        reflexivity. }
      assert (Hd' : is_space d' = false).
      { apply (Ht' d' (rev v')). rewrite <- (rev_involutive (c' :: s')), Ev'.
        reflexivity. }
      apply (span_unique is_space) in Er as (Err & _ & _);
        [| now apply Forall_rev | now apply Forall_rev | exact Hd | exact Hd'].
      apply (f_equal (@rev ascii)) in Err. rewrite !rev_involutive in Err.
      subst r'. now apply app_inv_tail in E'.
Qed.

Lemma strip_only (g s : text) : trimmed g s -> strip g = s.
Proof. intros H. apply (trimmed_unique g); [apply strip_trimmed | exact H]. Qed.

(** ** Triple-quoted fields, exactly *)

(** The body [g] of a lazy triple-quoted field ends at the first triple
    quote: no triple quote starts inside [g]. *)
Definition closes_first (g : text) : Prop :=
  forall a b, g ++ [dq; dq] <> a ++ [dq; dq; dq] ++ b.

(** The leftmost triple-quoted field [f] of [t] as the pattern [pat f]
    reads it, with body [g]; [ok] is what the pattern asks of the body. *)
Definition triple_first (pat : string -> regex) (ok : text -> Prop)
    (f : string) (t g : text) : Prop :=
  exists pre ws1 ws2 post,
    t = pre ++ txt f ++ ws1 ++ txt "=" ++ ws2 ++ [dq; dq; dq] ++ g
        ++ [dq; dq; dq] ++ post /\
    all_space ws1 /\ all_space ws2 /\ ok g /\ leftmost (pat f) t pre.

(** [f\s*=\s*QQQ(.*?)QQQ]: any body, up to the first triple quote. *)
Definition lazy_field : string -> text -> text -> Prop :=
  triple_first triple_lazy closes_first.

(** [f\s*=\s*QQQ(G)QQQ] with [G = [^Q]*]: a body without double quotes. *)
Definition star_field : string -> text -> text -> Prop :=
  triple_first triple_star quote_free.

(** [f\s*=\s*QQQ([^Q]+)QQQ]: a non-empty body without double quotes. *)
Definition plus_field : string -> text -> text -> Prop :=
  triple_first triple_plus (fun g => quote_free g /\ g <> []).

Lemma closes_first_tail c g : closes_first (c :: g) -> closes_first g.
Proof. intros H a b E. apply (H (c :: a) b). cbn [app]. now rewrite E. Qed.

Lemma closes_first_unique (g g' p p' : text) :
  closes_first g -> closes_first g' ->
  g ++ [dq; dq; dq] ++ p = g' ++ [dq; dq; dq] ++ p' -> g = g'.
Proof.
  assert (Hnil : forall (g p p' : text),
            closes_first g -> [dq; dq; dq] ++ p = g ++ [dq; dq; dq] ++ p' ->
            g = []).
  { intros g0 p0 p0' Hg E. destruct g0 as [|e1 g0]; [reflexivity|]. exfalso.
    cbn [app] in E. injection E as <- E.
    destruct g0 as [|e2 g0].
    - apply (Hg [] []). reflexivity.
    - injection E as <- E. destruct g0 as [|e3 g0].
      + apply (Hg [] [dq]). reflexivity.
      + injection E as <- E. apply (Hg [] (g0 ++ [dq; dq])). reflexivity. }
  revert g'. induction g as [|c g IH]; intros g' Hg Hg' E.
  - symmetry. cbn [app] in E. exact (Hnil g' p p' Hg' E).
  - destruct g' as [|c' g'].
    + cbn [app] in E. symmetry in E. exact (Hnil (c :: g) p' p Hg E).
    + cbn [app] in E. injection E as <- E. f_equal.
      apply IH; [eapply closes_first_tail | eapply closes_first_tail |]; eauto.
Qed.

(** What the matcher finds for [f\s*=\s*QQQ(.*?)QQQ] at the head of a
    text. *)
Lemma triple_lazy_here f rest s' caps :
  match_here (triple_lazy f) rest = Some (s', caps) ->
  exists ws1 ws2 g,
    rest = txt f ++ ws1 ++ txt "=" ++ ws2 ++ [dq; dq; dq] ++ g
           ++ [dq; dq; dq] ++ s' /\
    caps = [g] /\ all_space ws1 /\ all_space ws2 /\ closes_first g.
Proof.
  unfold match_here, triple_lazy. cbn [rmatch]. intros H.
  destruct (strip_prefix (txt f) rest) as [s1|] eqn:E1; [|discriminate].
  apply strip_prefix_Some in E1 as ->.
  apply star_greedy_Some in H as (ws1 & s2 & -> & Hw1 & H).
  destruct (strip_prefix (txt "=") s2) as [s3|] eqn:E3; [|discriminate].
  apply strip_prefix_Some in E3 as ->.
  apply star_greedy_Some in H as (ws2 & s4 & -> & Hw2 & H).
  destruct (strip_prefix [dq; dq; dq] s4) as [s5|] eqn:E5; [|discriminate].
  apply strip_prefix_Some in E5 as ->.
  apply star_lazy_first in H as (g & s6 & -> & _ & H & Hmin).
  destruct (strip_prefix [dq; dq; dq] s6) as [s7|] eqn:E7; [|discriminate].
  apply strip_prefix_Some in E7 as ->. injection H as <- <-.
  exists ws1, ws2, g. split; [reflexivity|]. split.
  { f_equal. change (S (S (S (length s7)))) with (length (dq :: dq :: dq :: s7)).
    apply (take_length_app_diff g (dq :: dq :: dq :: s7)). }
  split; [exact Hw1|]. split; [exact Hw2|].
  intros a b E.
  assert (Hlen : length a < length g).
  { apply (f_equal length) in E. rewrite !length_app in E. cbn [length] in E. lia. }
  assert (Ea : g = a ++ drop (length a) g).
  { rewrite <- (take_drop (length a) g) at 1. f_equal.
    apply (f_equal (take (length a))) in E.
    rewrite take_app_le in E by lia. now rewrite take_app_length in E. }
  assert (Eq : g ++ [dq; dq; dq] ++ s7
               = a ++ drop (length a) g ++ [dq; dq; dq] ++ s7).
  { rewrite (app_assoc a). now rewrite <- Ea. }
  specialize (Hmin a (drop (length a) g ++ [dq; dq; dq] ++ s7) Eq Hlen).
  rewrite Ea, <- app_assoc in E. apply app_inv_head in E.
  assert (Es : drop (length a) g ++ [dq; dq; dq] ++ s7
               = [dq; dq; dq] ++ b ++ [dq] ++ s7).
  { change ([dq; dq; dq] ++ s7) with ([dq; dq] ++ [dq] ++ s7).
    rewrite app_assoc, E. now rewrite <- !app_assoc. }
  rewrite Es in Hmin.
  assert (Hs : strip_prefix [dq; dq; dq] ([dq; dq; dq] ++ b ++ [dq] ++ s7)
               = Some (b ++ [dq] ++ s7)) by now apply strip_prefix_Some.
  rewrite Hs in Hmin. discriminate.
Qed.

(** The three patterns, read back from a match. *)
Lemma triple_star_shape f mid caps :
  matches (triple_star f) mid caps ->
  exists ws1 ws2 g,
    mid = txt f ++ ws1 ++ txt "=" ++ ws2 ++ [dq; dq; dq] ++ g ++ [dq; dq; dq] /\
    caps = [g] /\ all_space ws1 /\ all_space ws2 /\ quote_free g.
Proof.
  intros Hm. unfold triple_star in Hm. inv_matches. cbn [app].
  eexists. eexists. eexists. split; [reflexivity|]. auto.
Qed.

Lemma triple_plus_shape f mid caps :
  matches (triple_plus f) mid caps ->
  exists ws1 ws2 g,
    mid = txt f ++ ws1 ++ txt "=" ++ ws2 ++ [dq; dq; dq] ++ g ++ [dq; dq; dq] /\
    caps = [g] /\ all_space ws1 /\ all_space ws2 /\ quote_free g /\ g <> [].
Proof.
  intros Hm. unfold triple_plus, Plus in Hm. inv_matches. cbn [app].
  match goal with
  | Ha : Forall (fun c => is_space c = true) ?a,
    Hb : Forall (fun c => is_space c = true) ?b,
    Hc : not_char dq ?c = true,
    Hs : Forall (fun c => not_char dq c = true) ?s |- _ =>
      first [ exists a, b, (c :: s); split; [reflexivity|]
            | exists b, a, (c :: s); split; [reflexivity|] ];
      split; [reflexivity|]; split; [assumption|]; split; [assumption|];
      split; [now constructor | discriminate]
  end.
Qed.

Lemma triple_matches (body : regex) f ws1 ws2 g :
  all_space ws1 -> all_space ws2 -> matches body g [] ->
  matches (Lit (txt f) ⋅ ws* ⋅ Lit (txt "=") ⋅ ws* ⋅ Lit [dq; dq; dq]
           ⋅ Group body ⋅ Lit [dq; dq; dq])%re
          (txt f ++ ws1 ++ txt "=" ++ ws2 ++ [dq; dq; dq] ++ g ++ [dq; dq; dq])
          [g].
Proof.
  intros H1 H2 Hb.
  exact (M_Cat _ _ _ _ _ _ (M_Lit _)
           (M_Cat _ _ _ _ _ _ (M_Star _ _ H1)
              (M_Cat _ _ _ _ _ _ (M_Lit _)
                 (M_Cat _ _ _ _ _ _ (M_Star _ _ H2)
                    (M_Cat _ _ _ _ _ _ (M_Lit _)
                       (M_Cat _ _ _ _ _ _ (M_Group _ _ _ Hb) (M_Lit _))))))).
Qed.

Lemma any_char_all (g : text) : Forall (fun c => any_char c = true) g.
Proof. apply Forall_forall. reflexivity. Qed.

(** Two readings of a text as a triple-quoted field at the same place
    agree up to the body. *)
Lemma triple_same_place f (ws1 ws2 g p ws1' ws2' g' p' : text) :
  all_space ws1 -> all_space ws2 -> all_space ws1' -> all_space ws2' ->
  txt f ++ ws1 ++ txt "=" ++ ws2 ++ [dq; dq; dq] ++ g ++ [dq; dq; dq] ++ p
  = txt f ++ ws1' ++ txt "=" ++ ws2' ++ [dq; dq; dq] ++ g' ++ [dq; dq; dq] ++ p' ->
  g ++ [dq; dq; dq] ++ p = g' ++ [dq; dq; dq] ++ p'.
Proof.
  intros H1 H2 H1' H2' E. apply app_inv_head in E. cbn [txt list_ascii_of_string app] in E.
  apply (span_unique is_space) in E as (_ & _ & E);
    [|assumption|assumption|reflexivity|reflexivity].
  apply (span_unique is_space) in E as (_ & _ & E);
    [|assumption|assumption|reflexivity|reflexivity].
  now injection E.
Qed.

Section TripleFields.
Variable pat : string -> regex.
Variable ok : text -> Prop.
Variable f : string.

(** What the section asks of a pattern: a field with a body the pattern
    accepts is a match of it, what [re.search] finds is a field with such a
    body, and the body is fixed by where it starts. *)
Hypothesis pat_matches : forall ws1 ws2 g,
  all_space ws1 -> all_space ws2 -> ok g ->
  matches (pat f)
    (txt f ++ ws1 ++ txt "=" ++ ws2 ++ [dq; dq; dq] ++ g ++ [dq; dq; dq]) [g].
Hypothesis pat_here : forall rest s' caps,
  match_here (pat f) rest = Some (s', caps) ->
  exists ws1 ws2 g,
    rest = txt f ++ ws1 ++ txt "=" ++ ws2 ++ [dq; dq; dq] ++ g
           ++ [dq; dq; dq] ++ s' /\
    caps = [g] /\ all_space ws1 /\ all_space ws2 /\ ok g.
Hypothesis ok_unique : forall g g' p p',
  ok g -> ok g' ->
  g ++ [dq; dq; dq] ++ p = g' ++ [dq; dq; dq] ++ p' -> g = g'.

Lemma triple_first_found t m :
  re_search (pat f) t = Some m -> triple_first pat ok f t (group 1 m).
Proof.
  intros H. apply re_search_here in H as (pre & rest & s' & -> & Hm & _ & _ & Hl).
  apply pat_here in Hm as (ws1 & ws2 & g & -> & Ec & H1 & H2 & Hok).
  unfold group. rewrite Ec. cbn [nth Nat.sub].
  exists pre, ws1, ws2, s'. auto.
Qed.

Lemma triple_first_occurs t g : triple_first pat ok f t g -> occurs (pat f) t.
Proof.
  intros (pre & ws1 & ws2 & post & -> & H1 & H2 & Hok & _).
  exists pre, (txt f ++ ws1 ++ txt "=" ++ ws2 ++ [dq; dq; dq] ++ g ++ [dq; dq; dq]),
         post, [g].
  split; [now rewrite <- !app_assoc | now apply pat_matches].
Qed.

Lemma triple_first_unique t g g' :
  triple_first pat ok f t g -> triple_first pat ok f t g' -> g = g'.
Proof.
  intros (pre & ws1 & ws2 & post & E & H1 & H2 & Hok & Hl)
         (pre' & ws1' & ws2' & post' & E' & H1' & H2' & Hok' & Hl').
  destruct (leftmost_unique (pat f) t pre
              (txt f ++ ws1 ++ txt "=" ++ ws2 ++ [dq; dq; dq] ++ g ++ [dq; dq; dq])
              post pre'
              (txt f ++ ws1' ++ txt "=" ++ ws2' ++ [dq; dq; dq] ++ g'
               ++ [dq; dq; dq])
              post' [g] [g']) as [_ Er];
    [ now rewrite E, <- !app_assoc | now apply pat_matches | exact Hl
    | now rewrite E', <- !app_assoc | now apply pat_matches | exact Hl' |].
  rewrite <- !app_assoc in Er.
  apply triple_same_place in Er; try assumption.
  eapply ok_unique; eauto.
Qed.

(** The body [re.search] captures is the body of the leftmost field. *)
Lemma triple_first_search t g :
  triple_first pat ok f t g <->
  exists m, re_search (pat f) t = Some m /\ group 1 m = g.
Proof.
  split.
  - intros Hg. destruct (re_search_occurs _ _ (triple_first_occurs t g Hg)) as [m Hm].
    exists m. split; [exact Hm|].
    eapply triple_first_unique; [apply triple_first_found, Hm | exact Hg].
  - intros (m & Hm & <-). now apply triple_first_found.
Qed.

(** A decoder that stores the trimmed body under [key]. *)
Lemma triple_first_value key (decode : text -> dict) :
  extracts (pat f) key decode captured_stripped ->
  forall content v,
    dict_get key (decode content) = Some v <->
    exists g s, triple_first pat ok f content g /\ trimmed g s /\ v = VStr s.
Proof.
  intros He content v. rewrite He. split.
  - destruct (re_search (pat f) content) as [m|] eqn:E; [|discriminate].
    intros [= <-]. exists (group 1 m), (strip (group 1 m)).
    split; [now apply triple_first_found|]. split; [apply strip_trimmed|reflexivity].
  - intros (g & s & Hg & Hs & ->).
    apply triple_first_search in Hg as (m & -> & <-).
    unfold captured_stripped. now rewrite (strip_only _ _ Hs).
Qed.
End TripleFields.

(** The three patterns meet what the section asks. *)
Lemma triple_lazy_matches f ws1 ws2 g :
  all_space ws1 -> all_space ws2 -> closes_first g ->
  matches (triple_lazy f)
    (txt f ++ ws1 ++ txt "=" ++ ws2 ++ [dq; dq; dq] ++ g ++ [dq; dq; dq]) [g].
Proof.
  intros H1 H2 _. apply triple_matches; auto.
  apply M_LazyStar, any_char_all.
Qed.

Lemma triple_star_matches f ws1 ws2 g :
  all_space ws1 -> all_space ws2 -> quote_free g ->
  matches (triple_star f)
    (txt f ++ ws1 ++ txt "=" ++ ws2 ++ [dq; dq; dq] ++ g ++ [dq; dq; dq]) [g].
Proof. intros H1 H2 Hg. apply triple_matches; auto. now apply M_Star. Qed.

Lemma triple_plus_matches f ws1 ws2 g :
  all_space ws1 -> all_space ws2 -> quote_free g /\ g <> [] ->
  matches (triple_plus f)
    (txt f ++ ws1 ++ txt "=" ++ ws2 ++ [dq; dq; dq] ++ g ++ [dq; dq; dq]) [g].
Proof.
  intros H1 H2 [Hg Hne]. apply triple_matches; auto.
  destruct g as [|c g]; [contradiction|].
  apply Forall_cons in Hg as [Hc Hg].
  exact (M_Cat _ _ [c] g [] [] (M_Cls _ _ Hc) (M_Star _ _ Hg)).
Qed.

Lemma triple_star_here f rest s' caps :
  match_here (triple_star f) rest = Some (s', caps) ->
  exists ws1 ws2 g,
    rest = txt f ++ ws1 ++ txt "=" ++ ws2 ++ [dq; dq; dq] ++ g
           ++ [dq; dq; dq] ++ s' /\
    caps = [g] /\ all_space ws1 /\ all_space ws2 /\ quote_free g.
Proof.
  intros H. apply match_here_Some in H as (mid & -> & Hm).
  apply triple_star_shape in Hm as (ws1 & ws2 & g & -> & -> & H1 & H2 & Hg).
  exists ws1, ws2, g. split; [now rewrite <- !app_assoc | auto].
Qed.

Lemma triple_plus_here f rest s' caps :
  match_here (triple_plus f) rest = Some (s', caps) ->
  exists ws1 ws2 g,
    rest = txt f ++ ws1 ++ txt "=" ++ ws2 ++ [dq; dq; dq] ++ g
           ++ [dq; dq; dq] ++ s' /\
    caps = [g] /\ all_space ws1 /\ all_space ws2 /\ (quote_free g /\ g <> []).
Proof.
  intros H. apply match_here_Some in H as (mid & -> & Hm).
  apply triple_plus_shape in Hm as (ws1 & ws2 & g & -> & -> & H1 & H2 & Hg).
  exists ws1, ws2, g. split; [now rewrite <- !app_assoc | auto].
Qed.

Lemma quote_free_unique (g g' p p' : text) :
  quote_free g -> quote_free g' ->
  g ++ [dq; dq; dq] ++ p = g' ++ [dq; dq; dq] ++ p' -> g = g'.
Proof.
  intros Hg Hg' E. cbn [app] in E.
  now apply (span_unique (not_char dq)) in E as (-> & _).
Qed.

Lemma lazy_field_value f key decode :
  extracts (triple_lazy f) key decode captured_stripped ->
  forall content v,
    dict_get key (decode content) = Some v <->
    exists g s, lazy_field f content g /\ trimmed g s /\ v = VStr s.
Proof.
  apply triple_first_value;
    [ apply triple_lazy_matches | apply triple_lazy_here
    | apply closes_first_unique ].
Qed.

Lemma star_field_value f key decode :
  extracts (triple_star f) key decode captured_stripped ->
  forall content v,
    dict_get key (decode content) = Some v <->
    exists g s, star_field f content g /\ trimmed g s /\ v = VStr s.
Proof.
  apply triple_first_value;
    [ apply triple_star_matches | apply triple_star_here
    | apply quote_free_unique ].
Qed.

Lemma plus_field_value f key decode :
  extracts (triple_plus f) key decode captured_stripped ->
  forall content v,
    dict_get key (decode content) = Some v <->
    exists g s, plus_field f content g /\ trimmed g s /\ v = VStr s.
Proof.
  apply triple_first_value;
    [ apply triple_plus_matches | apply triple_plus_here |].
  intros g g' p p' [Hg _] [Hg' _]. now apply quote_free_unique.
Qed.

(** ** The nested blocks of a python and of a powerShell step *)

(** [inner] is the body of the leftmost [command = script { ... }] of the
    text: what stands between its brace and the first closing brace. *)
Definition command_body (content inner : text) : Prop :=
  exists pre w1 w2 w3 post,
    content = pre ++ txt "command" ++ w1 ++ txt "=" ++ w2 ++ txt "script" ++ w3
              ++ [lbrace] ++ inner ++ [rbrace] ++ post /\
    all_space w1 /\ all_space w2 /\ all_space w3 /\
    inner <> [] /\ brace_free inner /\ leftmost command_re content pre.

(** [inner] is the body of the leftmost [scriptMode = script {] of the
    text: what stands between its brace and the brace matching it. *)
Definition script_mode_body (content inner : text) : Prop :=
  exists pre w1 w2 w3 after,
    content = pre ++ txt "scriptMode" ++ w1 ++ txt "=" ++ w2 ++ txt "script"
              ++ w3 ++ lbrace :: inner ++ rbrace :: after /\
    all_space w1 /\ all_space w2 /\ all_space w3 /\
    depth inner = 0%Z /\ (forall n, (0 <= depth (take n inner))%Z) /\
    leftmost script_mode_re content pre.

Lemma command_re_shape mid caps :
  matches command_re mid caps ->
  exists w1 w2 w3 inner,
    mid = txt "command" ++ w1 ++ txt "=" ++ w2 ++ txt "script" ++ w3
          ++ [lbrace] ++ inner ++ [rbrace] /\
    caps = [inner] /\ all_space w1 /\ all_space w2 /\ all_space w3 /\
    inner <> [] /\ brace_free inner.
Proof.
  intros Hm. unfold command_re, block_plus, Plus in Hm. inv_matches.
  match goal with
  | H1 : Forall (fun c => is_space c = true) ?a,
    H2 : Forall (fun c => is_space c = true) ?b,
    H3 : Forall (fun c => is_space c = true) ?d,
    Hc : not_char rbrace ?c = true,
    Hs : Forall (fun c => not_char rbrace c = true) ?s
    |- exists w1 w2 w3 inner,
         _ ++ ?x ++ _ ++ ?y ++ _ ++ ?z ++ _ = _ /\ _ =>
      exists x, y, z, (c :: s)
  end.
  split; [cbn [app]; reflexivity|]. split; [reflexivity|].
  repeat split; try assumption; [discriminate | now constructor].
Qed.

Lemma command_re_matches w1 w2 w3 inner :
  all_space w1 -> all_space w2 -> all_space w3 ->
  inner <> [] -> brace_free inner ->
  matches command_re
    (txt "command" ++ w1 ++ txt "=" ++ w2 ++ txt "script" ++ w3
     ++ [lbrace] ++ inner ++ [rbrace]) [inner].
Proof.
  intros H1 H2 H3 Hne Hb. destruct inner as [|c s]; [contradiction|].
  apply Forall_cons in Hb as [Hc Hs].
  exact (M_Cat _ _ _ _ _ _ (M_Lit _)
           (M_Cat _ _ _ _ _ _ (M_Star _ _ H1)
              (M_Cat _ _ _ _ _ _ (M_Lit _)
                 (M_Cat _ _ _ _ _ _ (M_Star _ _ H2)
                    (M_Cat _ _ _ _ _ _ (M_Lit _)
                       (M_Cat _ _ _ _ _ _ (M_Star _ _ H3)
                          (M_Cat _ _ _ _ _ _ (M_Lit _)
                             (M_Cat _ _ _ _ _ _
                                (M_Group _ _ _
                                   (M_Cat _ _ [c] s [] [] (M_Cls _ _ Hc)
                                      (M_Star _ _ Hs)))
                                (M_Lit _))))))))).
Qed.

(** Two readings of a text as [kw = script {] at the same place are the
    same up to the brace. *)
Lemma assign_script_same_place kw (w1 w2 w3 p w1' w2' w3' p' : text) :
  all_space w1 -> all_space w2 -> all_space w3 ->
  all_space w1' -> all_space w2' -> all_space w3' ->
  txt kw ++ w1 ++ txt "=" ++ w2 ++ txt "script" ++ w3 ++ lbrace :: p
  = txt kw ++ w1' ++ txt "=" ++ w2' ++ txt "script" ++ w3' ++ lbrace :: p' ->
  w1 = w1' /\ w2 = w2' /\ w3 = w3' /\ p = p'.
Proof.
  intros H1 H2 H3 H1' H2' H3' E. apply app_inv_head in E.
  cbn [txt list_ascii_of_string app] in E.
  apply (span_unique is_space) in E as (-> & _ & E);
    [|assumption|assumption|reflexivity|reflexivity].
  apply (span_unique is_space) in E as (-> & _ & E);
    [|assumption|assumption|reflexivity|reflexivity].
  injection E as E.
  apply (span_unique is_space) in E as (-> & _ & E);
    [|assumption|assumption|reflexivity|reflexivity].
  auto.
Qed.

Lemma command_body_found content m :
  re_search command_re content = Some m -> command_body content (group 1 m).
Proof.
  intros H. apply re_search_here in H as (pre & rest & s' & -> & Hm & _ & _ & Hl).
  apply match_here_Some in Hm as (mid & -> & Hm).
  apply command_re_shape in Hm
    as (w1 & w2 & w3 & inner & -> & Ec & H1 & H2 & H3 & Hne & Hb).
  unfold group. rewrite Ec. cbn [nth Nat.sub].
  exists pre, w1, w2, w3, s'. split; [now rewrite <- !app_assoc | auto 10].
Qed.

Lemma command_body_search content inner :
  command_body content inner <->
  exists m, re_search command_re content = Some m /\ group 1 m = inner.
Proof.
  split.
  - intros (pre & w1 & w2 & w3 & post & E & H1 & H2 & H3 & Hne & Hb & Hl).
    assert (Hm : matches command_re
                   (txt "command" ++ w1 ++ txt "=" ++ w2 ++ txt "script" ++ w3
                    ++ [lbrace] ++ inner ++ [rbrace]) [inner])
      by now apply command_re_matches.
    assert (Ho : occurs command_re content).
    { eexists pre, _, post, _. split; [|exact Hm]. now rewrite E, <- !app_assoc. }
    destruct (re_search_occurs _ _ Ho) as [m Em]. exists m. split; [exact Em|].
    destruct (command_body_found _ _ Em)
      as (pre' & w1' & w2' & w3' & post' & E' & H1' & H2' & H3' & Hne' & Hb' & Hl').
    destruct (leftmost_unique command_re content pre'
                (txt "command" ++ w1' ++ txt "=" ++ w2' ++ txt "script" ++ w3'
                 ++ [lbrace] ++ group 1 m ++ [rbrace])
                post' pre
                (txt "command" ++ w1 ++ txt "=" ++ w2 ++ txt "script" ++ w3
                 ++ [lbrace] ++ inner ++ [rbrace])
                post [group 1 m] [inner]) as [_ Er];
      [ now rewrite E', <- !app_assoc | now apply command_re_matches | exact Hl'
      | now rewrite E, <- !app_assoc | exact Hm | exact Hl |].
    rewrite <- !app_assoc in Er. cbn [app] in Er.
    apply assign_script_same_place in Er as (_ & _ & _ & Er); try assumption.
    now apply (span_unique (not_char rbrace)) in Er as (-> & _).
  - intros (m & Hm & <-). now apply command_body_found.
Qed.

Lemma script_mode_re_shape mid caps :
  matches script_mode_re mid caps ->
  exists w1 w2 w3,
    mid = (txt "scriptMode" ++ w1 ++ txt "=" ++ w2 ++ txt "script" ++ w3)
          ++ [lbrace] /\
    all_space w1 /\ all_space w2 /\ all_space w3.
Proof.
  intros Hm. unfold script_mode_re, block_open in Hm. inv_matches.
  match goal with
  | |- exists w1 w2 w3, _ ++ ?x ++ _ ++ ?y ++ _ ++ ?z ++ _ = _ /\ _ =>
      exists x, y, z
  end.
  split; [now rewrite <- !app_assoc | auto].
Qed.

Lemma script_mode_re_matches w1 w2 w3 :
  all_space w1 -> all_space w2 -> all_space w3 ->
  matches script_mode_re
    (txt "scriptMode" ++ w1 ++ txt "=" ++ w2 ++ txt "script" ++ w3 ++ [lbrace])
    [].
Proof.
  intros H1 H2 H3.
  exact (M_Cat _ _ _ _ _ _ (M_Lit _)
           (M_Cat _ _ _ _ _ _ (M_Star _ _ H1)
              (M_Cat _ _ _ _ _ _ (M_Lit _)
                 (M_Cat _ _ _ _ _ _ (M_Star _ _ H2)
                    (M_Cat _ _ _ _ _ _ (M_Lit _)
                       (M_Cat _ _ _ _ _ _ (M_Star _ _ H3) (M_Lit _))))))).
Qed.

(** The balanced region of the brace that ends [pre ++ head ++ Q{Q],
    when it has a body as [script_mode_body] describes. *)
Lemma region_exact (pre head inner after : text) :
  depth inner = 0%Z -> (forall n, (0 <= depth (take n inner))%Z) ->
  extract_balanced (pre ++ head ++ lbrace :: inner ++ rbrace :: after)
                   (length pre + length head)
  = lbrace :: inner ++ [rbrace].
Proof.
  intros Hz Hp.
  set (t := pre ++ head ++ lbrace :: inner ++ rbrace :: after).
  assert (Hd : drop (length pre + length head) t
               = lbrace :: inner ++ rbrace :: after).
  { subst t. rewrite app_assoc, <- length_app. now rewrite drop_app_length. }
  destruct (extract_balanced_inside t (length pre + length head)
              (inner ++ rbrace :: after) (S (length inner)) Hd)
    as (body & tail & Eb & -> & Hlen & Hzb & Hpb).
  { rewrite (take_S_r _ _ rbrace).
    - rewrite take_app_length, depth_app. cbn. lia.
    - now apply list_lookup_middle. }
  f_equal. f_equal.
  destruct (app_eq_split body (rbrace :: tail) inner (rbrace :: after))
    as (x & -> & Ex); [now symmetry | lia |].
  destruct x as [|c x]; [now rewrite app_nil_r|]. exfalso.
  injection Ex as <- _.
  specialize (Hp (S (length body))).
  rewrite (take_S_r _ _ rbrace) in Hp by now apply list_lookup_middle.
  rewrite take_app_length, depth_app in Hp. cbn in Hp. lia.
Qed.

Lemma script_mode_body_found content m c b :
  re_search script_mode_re content = Some m ->
  extract_balanced content (m_end m - 1) = c :: b ->
  script_mode_body content (slice_1_m1 (c :: b)).
Proof.
  intros H Hb.
  apply re_search_here in H as (pre & rest & s' & -> & Hm & _ & He & Hl).
  apply match_here_Some_len in Hm as (mid & -> & Hm & Hlen).
  apply script_mode_re_shape in Hm as (w1 & w2 & w3 & -> & H1 & H2 & H3).
  rewrite Hlen in He. rewrite length_app in He. cbn [length] in He.
  set (head := txt "scriptMode" ++ w1 ++ txt "=" ++ w2 ++ txt "script" ++ w3) in *.
  replace (m_end m - 1) with (length pre + length head) in Hb by lia.
  assert (Hbrace : (pre ++ (head ++ [lbrace]) ++ s') !! (length pre + length head)
                   = Some lbrace).
  { rewrite lookup_app_r by lia. rewrite <- app_assoc.
    replace (length pre + length head - length pre) with (length head) by lia.
    now apply list_lookup_middle. }
  destruct (extract_balanced_cases _ _ Hbrace)
    as [(n & _ & Hx & (body & Hr & Hz & Hp)) | [_ Hx]];
    rewrite Hx in Hb; [|discriminate].
  assert (Hd : drop (length pre + length head) (pre ++ (head ++ [lbrace]) ++ s')
               = lbrace :: s').
  { rewrite <- !app_assoc, app_assoc, <- length_app. now rewrite drop_app_length. }
  rewrite Hd in Hr.
  assert (Es : s' = body ++ rbrace :: drop n (lbrace :: s')).
  { pose proof (take_drop n (lbrace :: s')) as Etd. rewrite Hr in Etd.
    cbn [app] in Etd. injection Etd as Etd. rewrite <- Etd at 1.
    now rewrite <- app_assoc. }
  exists pre, w1, w2, w3, (drop n (lbrace :: s')).
  rewrite <- Hb, Hd, Hr, slice_1_m1_braces.
  split; [|auto 10].
  rewrite Es at 1. subst head. now rewrite <- !app_assoc.
Qed.

Lemma script_mode_body_search content inner :
  script_mode_body content inner <->
  exists m c b,
    re_search script_mode_re content = Some m /\
    extract_balanced content (m_end m - 1) = c :: b /\
    slice_1_m1 (c :: b) = inner.
Proof.
  split.
  - intros (pre & w1 & w2 & w3 & after & E & H1 & H2 & H3 & Hz & Hp & Hl).
    set (head := txt "scriptMode" ++ w1 ++ txt "=" ++ w2 ++ txt "script" ++ w3).
    assert (Hm : matches script_mode_re (head ++ [lbrace]) []).
    { subst head. rewrite <- !app_assoc. now apply script_mode_re_matches. }
    assert (Ec : content = pre ++ (head ++ [lbrace]) ++ inner ++ rbrace :: after).
    { rewrite E. subst head. now rewrite <- !app_assoc. }
    assert (Ho : occurs script_mode_re content).
    { eexists pre, _, _, _. split; [exact Ec | exact Hm]. }
    destruct (re_search_occurs _ _ Ho) as [m Em]. exists m.
    pose proof Em as Em'.
    apply re_search_here in Em' as (pre' & rest & s' & E' & Hm' & _ & He & Hl').
    apply match_here_Some_len in Hm' as (mid & -> & Hm' & Hlen).
    destruct (leftmost_unique script_mode_re content pre' mid s' pre
                (head ++ [lbrace]) (inner ++ rbrace :: after)
                (m_groups m) []) as [-> Er];
      [exact E' | exact Hm' | exact Hl' | exact Ec | exact Hm | exact Hl |].
    apply script_mode_re_shape in Hm' as (w1' & w2' & w3' & -> & H1' & H2' & H3').
    subst head. rewrite <- !app_assoc in Er. cbn [app] in Er.
    apply assign_script_same_place in Er as (-> & -> & -> & ->); try assumption.
    rewrite Hlen in He. rewrite length_app in He. cbn [length] in He.
    set (head := txt "scriptMode" ++ w1 ++ txt "=" ++ w2 ++ txt "script" ++ w3) in *.
    assert (Ex : extract_balanced content (m_end m - 1) = lbrace :: inner ++ [rbrace]).
    { replace (m_end m - 1) with (length pre + length head) by lia.
      rewrite E. fold head.
      replace (pre ++ txt "scriptMode" ++ w1 ++ txt "=" ++ w2 ++ txt "script"
               ++ w3 ++ lbrace :: inner ++ rbrace :: after)
        with (pre ++ head ++ lbrace :: inner ++ rbrace :: after)
        by (subst head; now rewrite <- !app_assoc).
      now apply region_exact. }
    exists lbrace, (inner ++ [rbrace]).
    split; [exact Em|]. split; [exact Ex|]. apply slice_1_m1_braces.
  - intros (m & c & b & Hm & Hb & <-). exact (script_mode_body_found _ _ _ _ Hm Hb).
Qed.

(** ** C7: the value of a triple-quoted field *)

Lemma quote_free_closes_first (g : text) : quote_free g -> closes_first g.
Proof.
  intros Hg a b E.
  change (g ++ [dq; dq]) with (g ++ dq :: [dq]) in E.
  change (a ++ [dq; dq; dq] ++ b) with (a ++ dq :: dq :: dq :: b) in E.
  pose proof E as E2.
  apply first_quote_split in E2 as [[_ E2] | [x ->]];
    [discriminate | | exact Hg].
  apply (f_equal length) in E.
  repeat (rewrite !length_app in E || cbn [length] in E). lia.
Qed.

(** C7. The value of every triple-quoted block field is the text between
    the triple quotes of the leftmost such field of the text the decoder
    reads, without its leading and trailing whitespace and with the interior
    as it is, and the field is set exactly when there is such a text. The
    script content of a script step and the content of a powerShell script
    block end at the first triple quote; the artifact rules of a build type,
    the content of a kotlinScript step and the content of a python command
    hold no double quote (and the artifact rules are not empty). A python
    step reads the body of its leftmost [command = script { ... }], a
    powerShell step the balanced body of its leftmost
    [scriptMode = script {]. A text has one trimmed form, so the value is
    fixed by the source. A script content of newline, two spaces, [echo hi],
    two spaces, newline decodes to [echo hi]. *)
Theorem triple_quoted_fields_trimmed :
  (forall content v,
     dict_get "scriptContent" (parse_script_step content) = Some v <->
     exists g s, lazy_field "scriptContent" content g /\ trimmed g s /\
                 v = VStr s)
  /\ (forall content v,
        dict_get "artifactRules" (parse_build_type content) = Some v <->
        exists g s, plus_field "artifactRules" content g /\ trimmed g s /\
                    v = VStr s)
  /\ (forall content v,
        dict_get "content" (parse_kotlin_step content) = Some v <->
        exists g s, star_field "content" content g /\ trimmed g s /\
                    v = VStr s)
  /\ (forall content v,
        dict_get "scriptContent" (parse_python_step content) = Some v <->
        exists inner g s,
          command_body content inner /\ star_field "content" inner g /\
          trimmed g s /\ v = VStr s)
  /\ (forall content v,
        dict_get "scriptContent" (parse_powershell_step content) = Some v <->
        exists inner g s,
          script_mode_body content inner /\ lazy_field "content" inner g /\
          trimmed g s /\ v = VStr s)
  /\ (forall g s s', trimmed g s -> trimmed g s' -> s = s')
  /\ dict_get "scriptContent" (parse_script_step padded_script)
     = Some (VStr (txt "echo hi")).
Proof.
  split; [apply lazy_field_value, script_step_script_content|].
  split; [apply plus_field_value, build_type_artifact_rules|].
  split; [apply star_field_value, kotlin_step_content|].
  split; [|split; [|split; [exact trimmed_unique | reflexivity]]].
  - intros content v. rewrite python_step_script_content. split.
    + destruct (re_search command_re content) as [m|] eqn:Em; [|discriminate].
      destruct (re_search (triple_star "content") (group 1 m)) as [m'|] eqn:Em';
        [|discriminate].
      intros [= <-]. exists (group 1 m), (group 1 m'), (strip (group 1 m')).
      split; [now apply command_body_found|].
      split; [|split; [apply strip_trimmed | reflexivity]].
      apply (triple_first_found triple_star quote_free "content"
               (triple_star_here "content")). exact Em'.
    + intros (inner & g & s & Hin & Hg & Hs & ->).
      apply command_body_search in Hin as (m & -> & <-).
      apply (triple_first_search triple_star quote_free "content"
               (triple_star_matches "content") (triple_star_here "content")
               quote_free_unique) in Hg as (m' & -> & <-).
      unfold captured_stripped. now rewrite (strip_only _ _ Hs).
  - intros content v. rewrite powershell_step_script_content. split.
    + destruct (re_search script_mode_re content) as [m|] eqn:Em; [|discriminate].
      destruct (extract_balanced content (m_end m - 1)) as [|c b] eqn:Eb;
        [discriminate|].
      destruct (re_search (triple_lazy "content") (slice_1_m1 (c :: b)))
        as [m'|] eqn:Em'; [|discriminate].
      intros [= <-].
      exists (slice_1_m1 (c :: b)), (group 1 m'), (strip (group 1 m')).
      split; [exact (script_mode_body_found _ _ _ _ Em Eb)|].
      split; [|split; [apply strip_trimmed | reflexivity]].
      apply (triple_first_found triple_lazy closes_first "content"
               (triple_lazy_here "content")). exact Em'.
    + intros (inner & g & s & Hin & Hg & Hs & ->).
      apply script_mode_body_search in Hin as (m & c & b & -> & -> & <-).
      apply (triple_first_search triple_lazy closes_first "content"
               (triple_lazy_matches "content") (triple_lazy_here "content")
               closes_first_unique) in Hg as (m' & -> & <-).
      unfold captured_stripped. now rewrite (strip_only _ _ Hs).
Qed.

Lemma triple_quoted_fields_trimmed_witness :
  lazy_field "scriptContent" padded_script
    ([newline] ++ txt "  echo hi  " ++ [newline])
  /\ trimmed ([newline] ++ txt "  echo hi  " ++ [newline]) (txt "echo hi")
  /\ dict_get "scriptContent" (parse_script_step padded_script)
     = Some (VStr (txt "echo hi")).
Proof.
  assert (Hf : lazy_field "scriptContent" padded_script
                 ([newline] ++ txt "  echo hi  " ++ [newline])).
  { exists [], [" "%char], [" "%char], [].
    split; [reflexivity|]. split; [repeat constructor|].
    split; [repeat constructor|]. split.
    - apply quote_free_closes_first. repeat constructor.
    - intros pre' mid' post' caps _ _. cbn. lia. }
  assert (Ht : trimmed ([newline] ++ txt "  echo hi  " ++ [newline])
                 (txt "echo hi")).
  { exists ([newline] ++ txt "  "), (txt "  " ++ [newline]).
    split; [reflexivity|]. split; [repeat constructor|].
    split; [repeat constructor|]. split.
    - intros c v' [= <- _]. reflexivity.
    - intros c v' E. change (txt "echo hi") with (txt "echo h" ++ ["i"%char]) in E.
      apply app_inj_tail in E as [_ <-]. reflexivity. }
  split; [exact Hf|]. split; [exact Ht|].
  apply (proj1 triple_quoted_fields_trimmed padded_script (VStr (txt "echo hi"))).
  eauto.
Defined.

(** ** What [re.finditer] finds *)

(** [m] is a match of [r] in [t], at its start and end. *)
Definition found_at (r : regex) (t : text) (m : rematch) : Prop :=
  exists pre mid post,
    t = pre ++ mid ++ post /\ m_start m = length pre /\
    m_end m = length pre + length mid /\ matches r mid (m_groups m).

(** The matches follow each other in the text without overlap. *)
Fixpoint ordered (ms : list rematch) : Prop :=
  match ms with
  | [] => True
  | m :: ms' =>
      m_start m < m_end m /\ Forall (fun m' => m_end m <= m_start m') ms' /\
      ordered ms'
  end.

(** [ms] are the matches of [r] a scan of [t] from left to right finds:
    matches of [r], in source order and apart from each other, and nothing
    is skipped, every place where [r] matches lies inside one of them. *)
Definition scanned (r : regex) (t : text) (ms : list rematch) : Prop :=
  Forall (found_at r t) ms /\ ordered ms /\
  forall pre mid post caps,
    t = pre ++ mid ++ post -> matches r mid caps ->
    exists m, m ∈ ms /\ m_start m <= length pre < m_end m.

Lemma finditer_from_scanned r (t : text) :
  (forall mid caps, matches r mid caps -> mid <> []) ->
  forall n pos, length t - pos < n ->
    Forall (fun m => found_at r t m /\ pos <= m_start m)
           (finditer_from n r t pos) /\
    ordered (finditer_from n r t pos) /\
    forall pre mid post caps,
      t = pre ++ mid ++ post -> matches r mid caps -> pos <= length pre ->
      exists m, m ∈ finditer_from n r t pos /\
                m_start m <= length pre < m_end m.
Proof.
  intros Hne. induction n as [|n IH]; intros pos Hn; [lia|].
  cbn [finditer_from].
  destruct (Nat.ltb_spec (length t) pos) as [Hlt|Hle].
  { split; [constructor|]. split; [exact I|].
    intros pre mid post caps E _ Hp. apply (f_equal length) in E.
    rewrite length_app in E. lia. }
  destruct (search_at r (drop pos t) pos) as [m|] eqn:Es.
  - apply search_at_Some in Es as (pre0 & mid0 & post0 & E0 & Hs & He & Hm & Hl).
    assert (Hmid : 0 < length mid0).
    { destruct mid0; [exfalso; now apply (Hne [] (m_groups m))|cbn; lia]. }
    assert (Hlen : length t = pos + (length pre0 + (length mid0 + length post0))).
    { apply (f_equal length) in E0. rewrite length_drop, !length_app in E0. lia. }
    destruct (Nat.eqb_spec (m_end m) (m_start m)) as [Heq|_]; [lia|].
    destruct (IH (m_end m) ltac:(lia)) as (Hf & Ho & Hc).
    assert (Hfound : found_at r t m).
    { exists (take pos t ++ pre0), mid0, post0.
      rewrite <- app_assoc, <- E0, take_drop, length_app, length_take_le by lia.
      repeat split; auto; lia. }
    split; [|split].
    + constructor; [split; [exact Hfound | lia]|].
      eapply Forall_impl; [exact Hf|]. intros m' [Hm' Hs']. split; [exact Hm' | lia].
    + cbn [ordered]. split; [lia|]. split; [|exact Ho].
      eapply Forall_impl; [exact Hf|]. intros m' [_ Hs']. exact Hs'.
    + intros pre mid post caps E Hmm Hp.
      assert (Ed : drop pos t = drop pos pre ++ mid ++ post).
      { rewrite E. now apply drop_app_le. }
      pose proof (Hl _ _ _ _ Ed Hmm) as Hleft. rewrite length_drop in Hleft.
      destruct (Nat.lt_ge_cases (length pre) (m_end m)) as [Hin|Hout].
      * exists m. split; [left | lia].
      * destruct (Hc pre mid post caps E Hmm Hout) as (m' & Hm' & Hcov).
        exists m'. split; [now right | exact Hcov].
  - split; [constructor|]. split; [exact I|].
    intros pre mid post caps E Hmm Hp. exfalso.
    apply search_at_None in Es. apply Es.
    exists (drop pos pre), mid, post, caps. split; [|exact Hmm].
    rewrite E. now apply drop_app_le.
Qed.

Lemma re_finditer_scanned r (t : text) :
  (forall mid caps, matches r mid caps -> mid <> []) ->
  scanned r t (re_finditer r t).
Proof.
  intros Hne. unfold re_finditer.
  destruct (finditer_from_scanned r t Hne (S (length t)) 0 ltac:(lia))
    as (Hf & Ho & Hc).
  split; [|split; [exact Ho|]].
  - eapply Forall_impl; [exact Hf|]. now intros m [Hm _].
  - intros pre mid post caps E Hm. apply (Hc pre mid post caps E Hm). lia.
Qed.

(** ** X16: the root of a vcs block *)

Lemma call_arg_shape f mid caps :
  matches (call_arg f) mid caps ->
  exists g, mid = txt f ++ txt "(" ++ g ++ txt ")" /\ caps = [g] /\
            g <> [] /\ Forall (fun c => not_char ")" c = true) g.
Proof.
  intros Hm. unfold call_arg, Plus in Hm. inv_matches.
  match goal with
  | Hc : not_char ")" ?c = true,
    Hs : Forall (fun c => not_char ")" c = true) ?s |- _ =>
      exists (c :: s); split; [reflexivity|]; split; [reflexivity|];
      split; [discriminate | now constructor]
  end.
Qed.

Lemma call_arg_matches f g :
  g <> [] -> Forall (fun c => not_char ")" c = true) g ->
  matches (call_arg f) (txt f ++ txt "(" ++ g ++ txt ")") [g].
Proof.
  intros Hne Hg. destruct g as [|c s]; [contradiction|].
  apply Forall_cons in Hg as [Hc Hs].
  exact (M_Cat _ _ _ _ _ _ (M_Lit _)
           (M_Cat _ _ _ _ _ _ (M_Lit _)
              (M_Cat _ _ _ _ _ _
                 (M_Group _ _ _
                    (M_Cat _ _ [c] s [] [] (M_Cls _ _ Hc) (M_Star _ _ Hs)))
                 (M_Lit _)))).
Qed.

(** X16. A vcs record has a [root] exactly when its block has a
    [root(...)] call with a non-empty argument free of closing parentheses;
    the value is the argument of the leftmost such call with its leading and
    trailing whitespace removed. *)
Theorem vcs_root_reference (content : text) (v : value) :
  dict_get "root" (parse_vcs content) = Some v <->
  exists pre g post s,
    content = pre ++ txt "root(" ++ g ++ txt ")" ++ post /\
    g <> [] /\ Forall (fun c => not_char ")" c = true) g /\
    leftmost (call_arg "root") content pre /\
    v = VStr s /\ trimmed g s.
Proof.
  rewrite vcs_root. split.
  - destruct (re_search (call_arg "root") content) as [m|] eqn:E; [|discriminate].
    intros [= <-].
    apply re_search_here in E as (pre & rest & s' & -> & Hm & _ & _ & Hl).
    apply match_here_Some in Hm as (mid & -> & Hm).
    apply call_arg_shape in Hm as (g & -> & Ec & Hne & Hg).
    unfold captured_stripped, group. rewrite Ec. cbn [nth Nat.sub].
    exists pre, g, s', (strip g).
    split; [now rewrite <- !app_assoc|].
    repeat split; auto. apply strip_trimmed.
  - intros (pre & g & post & s & E & Hne & Hg & Hl & -> & Hs).
    assert (Hm : matches (call_arg "root") (txt "root" ++ txt "(" ++ g ++ txt ")") [g])
      by now apply call_arg_matches.
    assert (Ec : content = pre ++ (txt "root" ++ txt "(" ++ g ++ txt ")") ++ post).
    { rewrite E. now rewrite <- !app_assoc. }
    assert (Ho : occurs (call_arg "root") content).
    { eexists pre, _, post, _. split; [exact Ec | exact Hm]. }
    destruct (re_search_occurs _ _ Ho) as [m Em]. rewrite Em.
    pose proof Em as Em'.
    apply re_search_here in Em' as (pre' & rest & s' & E' & Hm' & _ & _ & Hl').
    apply match_here_Some in Hm' as (mid & -> & Hm').
    destruct (leftmost_unique (call_arg "root") content pre' mid s' pre _ post
                (m_groups m) [g] E' Hm' Hl' Ec Hm Hl) as [_ Er].
    apply call_arg_shape in Hm' as (g' & -> & Eg & Hne' & Hg').
    rewrite <- !app_assoc in Er. apply app_inv_head in Er.
    cbn [txt list_ascii_of_string app] in Er. injection Er as Er.
    apply (span_unique (not_char ")")) in Er as (-> & _);
      [|assumption|assumption|reflexivity|reflexivity].
    unfold captured_stripped, group. rewrite Eg. cbn [nth Nat.sub].
    now rewrite (strip_only _ _ Hs).
Qed.

Lemma vcs_root_reference_witness :
  dict_get "root" (parse_vcs (txt "root( A ) root(B)")) = Some (VStr (txt "A")).
Proof.
  apply (vcs_root_reference (txt "root( A ) root(B)") (VStr (txt "A"))).
  exists [], (txt " A "), (txt " root(B)"), (txt "A").
  split; [reflexivity|]. split; [discriminate|].
  split; [repeat constructor|]. split.
  - intros pre' mid' post' caps _ _. cbn. lia.
  - split; [reflexivity|]. exists [" "%char], [" "%char].
    split; [reflexivity|]. split; [repeat constructor|].
    split; [repeat constructor|]. split.
    + intros c v' [= <- _]. reflexivity.
    + intros c v' E. change (txt "A") with ([] ++ ["A"%char]) in E.
      apply app_inj_tail in E as [_ <-]. reflexivity.
Defined.

(** ** X13 and X14: pairs of quoted arguments *)

(** [m] is a match of [kind(Qk Q, Qv Q] in [t], with [k] and [v] its two
    groups. *)
Definition pair_at (kind : string) (t : text) (m : rematch) : Prop :=
  exists pre w1 w2 post,
    t = pre ++ txt kind ++ txt "(" ++ [dq] ++ group 1 m ++ [dq] ++ w1
        ++ txt "," ++ w2 ++ [dq] ++ group 2 m ++ [dq] ++ post /\
    m_start m = length pre /\ all_space w1 /\ all_space w2 /\
    pair_ok (group 1 m, group 2 m).

(** The same followed by a closing parenthesis. *)
Definition call_at (kind : string) (t : text) (m : rematch) : Prop :=
  exists pre w1 w2 post,
    t = pre ++ txt kind ++ txt "(" ++ [dq] ++ group 1 m ++ [dq] ++ w1
        ++ txt "," ++ w2 ++ [dq] ++ group 2 m ++ [dq] ++ txt ")" ++ post /\
    m_start m = length pre /\ all_space w1 /\ all_space w2 /\
    pair_ok (group 1 m, group 2 m).

Lemma pair_open_shape f mid caps :
  matches (pair_open f) mid caps ->
  exists k v w1 w2,
    mid = txt f ++ txt "(" ++ [dq] ++ k ++ [dq] ++ w1 ++ txt "," ++ w2
          ++ [dq] ++ v ++ [dq] /\
    caps = [k; v] /\ all_space w1 /\ all_space w2 /\ pair_ok (k, v).
Proof.
  intros Hm. unfold pair_open, Plus in Hm. inv_matches.
  match goal with
  | |- exists k v w1 w2,
         _ ++ _ ++ _ ++ ([?c] ++ ?s) ++ _ ++ ?a ++ _ ++ ?b ++ _ ++ ([?c'] ++ ?s') ++ _
         = _ /\ _ =>
      exists (c :: s), (c' :: s'), a, b
  end.
  split; [reflexivity|]. split; [reflexivity|].
  split; [assumption|]. split; [assumption|].
  repeat split; cbn [fst snd]; try discriminate; now constructor.
Qed.

Lemma pair_open_nonempty f mid caps : matches (pair_open f) mid caps -> mid <> [].
Proof.
  intros Hm. apply pair_open_shape in Hm as (k & v & w1 & w2 & -> & _).
  intros E. apply (f_equal length) in E. rewrite !length_app in E.
  cbn [length] in E. lia.
Qed.

Lemma pair_call_nonempty f mid caps : matches (pair_call f) mid caps -> mid <> [].
Proof.
  intros Hm. unfold pair_call in Hm. inversion Hm; subst; clear Hm.
  match goal with H : matches (pair_open f) _ _ |- _ =>
    apply pair_open_nonempty in H end.
  intros E. apply app_eq_nil in E as [E _]. contradiction.
Qed.

Lemma found_pair_at f t m : found_at (pair_open f) t m -> pair_at f t m.
Proof.
  intros (pre & mid & post & -> & Hs & _ & Hm).
  apply pair_open_shape in Hm as (k & v & w1 & w2 & -> & Ec & H1 & H2 & Hok).
  unfold pair_at, group. rewrite Ec. cbn [nth Nat.sub].
  exists pre, w1, w2, post. split; [now rewrite <- !app_assoc|].
  split; [exact Hs|]. split; [exact H1|]. split; [exact H2 | exact Hok].
Qed.

Lemma found_call_at f t m : found_at (pair_call f) t m -> call_at f t m.
Proof.
  intros (pre & mid & post & -> & Hs & _ & Hm).
  unfold pair_call in Hm. inversion Hm; subst; clear Hm.
  match goal with
  | H1 : matches (pair_open f) _ _, H2 : matches (Lit _) _ _,
    Ec : _ = m_groups m |- _ =>
      apply pair_open_shape in H1 as (k & v & w1 & w2 & -> & -> & Hw1 & Hw2 & Hok);
      inversion H2; subst; clear H2; symmetry in Ec
  end.
  unfold call_at, group.
  match goal with Ec : m_groups m = _ |- _ => rewrite Ec end.
  cbn [nth Nat.sub app].
  exists pre, w1, w2, post. split; [norm_app; reflexivity|].
  split; [exact Hs|]. split; [exact Hw1|]. split; [exact Hw2 | exact Hok].
Qed.

(** The scan for [kind(Qk Q, Qv Q]: what it finds, and that each match
    has that form. *)
Definition pairs_scanned (kind : string) (t : text) : Prop :=
  scanned (pair_open kind) t (re_finditer (pair_open kind) t) /\
  Forall (pair_at kind t) (re_finditer (pair_open kind) t).

Definition calls_scanned (kind : string) (t : text) : Prop :=
  scanned (pair_call kind) t (re_finditer (pair_call kind) t) /\
  Forall (call_at kind t) (re_finditer (pair_call kind) t).

Lemma pairs_are_scanned kind t : pairs_scanned kind t.
Proof.
  assert (Hs : scanned (pair_open kind) t (re_finditer (pair_open kind) t))
    by apply re_finditer_scanned, pair_open_nonempty.
  split; [exact Hs|]. destruct Hs as (Hf & _).
  eapply Forall_impl; [exact Hf|]. apply found_pair_at.
Qed.

Lemma calls_are_scanned kind t : calls_scanned kind t.
Proof.
  assert (Hs : scanned (pair_call kind) t (re_finditer (pair_call kind) t))
    by apply re_finditer_scanned, pair_call_nonempty.
  split; [exact Hs|]. destruct Hs as (Hf & _).
  eapply Forall_impl; [exact Hf|]. apply found_call_at.
Qed.

(** The record of one match. *)
Definition param_of (kind : string) (m : rematch) : value :=
  param_record kind (group 1 m, group 2 m).

Definition condition_of (kind : string) (m : rematch) : value :=
  condition_record kind (group 1 m, group 2 m).

(** X13. The parameters decoded from a params block are one record per
    match of [param(Qk Q, Qv Q] found by a scan of the block from left to
    right, then one per match of the same form for [select], for [checkbox]
    and for [text]: grouped by kind and not in source order. Within a kind
    the matches are in source order and do not overlap, none is skipped, and
    each record carries the two quoted arguments of its match, which are
    non-empty and free of double quotes, so an entry with an empty name or
    value is left out. *)
Theorem parse_params_records (content : text) :
  parse_params content
  = map (param_of "param") (re_finditer (pair_open "param") content)
    ++ map (param_of "select") (re_finditer (pair_open "select") content)
    ++ map (param_of "checkbox") (re_finditer (pair_open "checkbox") content)
    ++ map (param_of "text") (re_finditer (pair_open "text") content)
  /\ pairs_scanned "param" content /\ pairs_scanned "select" content
  /\ pairs_scanned "checkbox" content /\ pairs_scanned "text" content.
Proof.
  split; [|repeat split; apply pairs_are_scanned].
  unfold parse_params, re_findall2, param_of. cbn [app].
  rewrite !map_map, <- !app_assoc. reflexivity.
Qed.

(** [body] is the body of the leftmost [kw { ... }] of the text whose
    body holds no closing brace. *)
Definition flat_block (kw : string) (content body : text) : Prop :=
  exists pre w post,
    content = pre ++ txt kw ++ w ++ [lbrace] ++ body ++ [rbrace] ++ post /\
    all_space w /\ brace_free body /\ leftmost (block_star kw) content pre.

Lemma block_star_shape kw mid caps :
  matches (block_star kw) mid caps ->
  exists w body,
    mid = txt kw ++ w ++ [lbrace] ++ body ++ [rbrace] /\ caps = [body] /\
    all_space w /\ brace_free body.
Proof.
  intros Hm. unfold block_star in Hm. inv_matches.
  eexists. eexists. split; [reflexivity|]. auto.
Qed.

Lemma block_star_matches kw w body :
  all_space w -> brace_free body ->
  matches (block_star kw) (txt kw ++ w ++ [lbrace] ++ body ++ [rbrace]) [body].
Proof.
  intros Hw Hb.
  exact (M_Cat _ _ _ _ _ _ (M_Lit _)
           (M_Cat _ _ _ _ _ _ (M_Star _ _ Hw)
              (M_Cat _ _ _ _ _ _ (M_Lit _)
                 (M_Cat _ _ _ _ _ _ (M_Group _ _ _ (M_Star _ _ Hb))
                    (M_Lit _))))).
Qed.

Lemma flat_block_found kw content m :
  re_search (block_star kw) content = Some m -> flat_block kw content (group 1 m).
Proof.
  intros H. apply re_search_here in H as (pre & rest & s' & -> & Hm & _ & _ & Hl).
  apply match_here_Some in Hm as (mid & -> & Hm).
  apply block_star_shape in Hm as (w & body & -> & Ec & Hw & Hb).
  unfold group. rewrite Ec. cbn [nth Nat.sub].
  exists pre, w, s'. split; [now rewrite <- !app_assoc | auto].
Qed.

Lemma flat_block_search kw content body :
  flat_block kw content body <->
  exists m, re_search (block_star kw) content = Some m /\ group 1 m = body.
Proof.
  split.
  - intros (pre & w & post & E & Hw & Hb & Hl).
    assert (Hm : matches (block_star kw)
                   (txt kw ++ w ++ [lbrace] ++ body ++ [rbrace]) [body])
      by now apply block_star_matches.
    assert (Ec : content
                 = pre ++ (txt kw ++ w ++ [lbrace] ++ body ++ [rbrace]) ++ post).
    { rewrite E. now rewrite <- !app_assoc. }
    assert (Ho : occurs (block_star kw) content).
    { eexists pre, _, post, _. split; [exact Ec | exact Hm]. }
    destruct (re_search_occurs _ _ Ho) as [m Em]. exists m. split; [exact Em|].
    destruct (flat_block_found _ _ _ Em) as (pre' & w' & post' & E' & Hw' & Hb' & Hl').
    assert (Hm' : matches (block_star kw)
                    (txt kw ++ w' ++ [lbrace] ++ group 1 m ++ [rbrace])
                    [group 1 m])
      by now apply block_star_matches.
    assert (Ec' : content
                  = pre' ++ (txt kw ++ w' ++ [lbrace] ++ group 1 m ++ [rbrace])
                    ++ post').
    { rewrite E'. now rewrite <- !app_assoc. }
    destruct (leftmost_unique (block_star kw) content pre' _ post' pre _ post
                [group 1 m] [body] Ec' Hm' Hl' Ec Hm Hl) as [_ Er].
    rewrite <- !app_assoc in Er. apply app_inv_head in Er. cbn [app] in Er.
    apply (span_unique is_space) in Er as (_ & _ & Er);
      [|assumption|assumption|reflexivity|reflexivity].
    now apply (span_unique (not_char rbrace)) in Er as (-> & _).
  - intros (m & Hm & <-). now apply flat_block_found.
Qed.

Lemma condition_records_of kind (body : text) :
  map (condition_record kind) (re_findall2 (pair_call kind) body)
  = map (condition_of kind) (re_finditer (pair_call kind) body).
Proof. unfold re_findall2. now rewrite map_map. Qed.

(** The conditions a script step and a powerShell step decode from the
    body of a conditions block. *)
Definition script_conditions (body : text) : list value :=
  map (condition_of "equals") (re_finditer (pair_call "equals") body)
  ++ map (condition_of "contains") (re_finditer (pair_call "contains") body).

Definition powershell_conditions_of (body : text) : list value :=
  map (condition_of "contains") (re_finditer (pair_call "contains") body).

(** X14. A script step has [conditions] exactly when the body of its
    leftmost [conditions { ... }] (up to the first closing brace) gives at
    least one record, and the value is then the list of the records of all
    [equals(Qp Q, Qv Q)] calls of that body followed by those of all its
    [contains(Qp Q, Qv Q)] calls; a powerShell step likewise with the
    [contains] calls alone, the [equals] conditions of its block being
    dropped. The list is never empty. The calls of a kind are those a scan
    of the body from left to right finds: in source order, apart from each
    other, none skipped, each with two non-empty arguments free of double
    quotes. Python, kotlinScript and generic steps never have the key. *)
Theorem step_conditions (content : text) (v : value) :
  (dict_get "conditions" (parse_script_step content) = Some v <->
   exists body,
     flat_block "conditions" content body /\ script_conditions body <> [] /\
     v = VList (script_conditions body))
  /\ (dict_get "conditions" (parse_powershell_step content) = Some v <->
      exists body,
        flat_block "conditions" content body /\
        powershell_conditions_of body <> [] /\
        v = VList (powershell_conditions_of body))
  /\ (forall body, calls_scanned "equals" body /\ calls_scanned "contains" body)
  /\ dict_get "conditions" (parse_python_step content) = None
  /\ dict_get "conditions" (parse_kotlin_step content) = None
  /\ dict_get "conditions" (parse_general_step content) = None.
Proof.
  split; [|split; [|split; [|split; [|split]]]].
  - assert (E : dict_get "conditions" (parse_script_step content)
                = match re_search (block_star "conditions") content with
                  | Some m =>
                      match script_conditions (group 1 m) with
                      | [] => None
                      | l => Some (VList l)
                      end
                  | None => None
                  end).
    { unfold parse_script_step, script_conditions. cbn [app].
      repeat match goal with
        | |- context [match re_search ?r ?c with _ => _ end] =>
            destruct (re_search r c)
        end; rewrite ?condition_records_of;
        repeat match goal with
        | |- context [match (?a ++ ?b)%list with _ => _ end] =>
            destruct (a ++ b)%list
        end; reflexivity. }
    rewrite E. clear E. split.
    + destruct (re_search (block_star "conditions") content) as [m|] eqn:Em;
        [|discriminate].
      destruct (script_conditions (group 1 m)) as [|c l] eqn:El; [discriminate|].
      intros [= <-]. exists (group 1 m).
      split; [now apply flat_block_found|]. now rewrite El.
    + intros (body & Hb & Hne & ->).
      apply flat_block_search in Hb as (m & -> & <-).
      destruct (script_conditions (group 1 m)); [contradiction | reflexivity].
  - assert (E : dict_get "conditions" (parse_powershell_step content)
                = match re_search (block_star "conditions") content with
                  | Some m =>
                      match powershell_conditions_of (group 1 m) with
                      | [] => None
                      | l => Some (VList l)
                      end
                  | None => None
                  end).
    { unfold parse_powershell_step, powershell_conditions_of. cbn [app].
      repeat match goal with
        | |- context [match extract_balanced ?c ?i with _ => _ end] =>
            destruct (extract_balanced c i)
        | |- context [match re_search ?r ?c with _ => _ end] =>
            destruct (re_search r c)
        end; rewrite ?condition_records_of;
        repeat match goal with
        | |- context [match map ?f ?l with _ => _ end] =>
            destruct (map f l)
        end; reflexivity. }
    rewrite E. clear E. split.
    + destruct (re_search (block_star "conditions") content) as [m|] eqn:Em;
        [|discriminate].
      destruct (powershell_conditions_of (group 1 m)) as [|c l] eqn:El;
        [discriminate|].
      intros [= <-]. exists (group 1 m).
      split; [now apply flat_block_found|]. now rewrite El.
    + intros (body & Hb & Hne & ->).
      apply flat_block_search in Hb as (m & -> & <-).
      destruct (powershell_conditions_of (group 1 m)); [contradiction | reflexivity].
  - intros body. split; apply calls_are_scanned.
  - unfold parse_python_step. split_matches; reflexivity.
  - unfold parse_kotlin_step. split_matches; reflexivity.
  - unfold parse_general_step. split_matches; reflexivity.
Qed.

Lemma step_conditions_witness :
  dict_get "conditions" (parse_powershell_step powershell_conditions)
  = Some (VList [condition_record "contains" (txt "c", txt "d")]).
Proof.
  destruct (step_conditions powershell_conditions
              (VList [condition_record "contains" (txt "c", txt "d")]))
    as (_ & [_ H] & _).
  apply H.
  exists (txt " equals(" ++ quoted (txt "a") ++ txt ", " ++ quoted (txt "b")
          ++ txt ") contains(" ++ quoted (txt "c") ++ txt ", "
          ++ quoted (txt "d") ++ txt ") ").
  split; [|split].
  - exists [], [" "%char], []. split; [reflexivity|].
    split; [repeat constructor|]. split.
    + unfold brace_free. cbn. repeat constructor.
    + intros pre' mid' post' caps _ _. cbn. lia.
  - vm_compute. discriminate.
  - vm_compute. reflexivity.
Defined.

(** ** C4: every leaf field without a match *)














(** ** C9: the version written with an empty value *)

Definition empty_version : text :=
  txt "version = " ++ [dq; dq] ++ txt " project { }".

(** The version is there with an empty value, and the document has a
    version all the same, the placeholder. *)
Lemma empty_version_gets_default :
  always_empty "version" empty_version /\
  exists h, parse_kotlin_dsl 1 empty_version
            = Ret (Some (MkDocument (txt "2.1") 0, h)).
Proof.
  split.
  - apply (only_empty_always_empty "version").
    exists [], [" "%char], [" "%char], (txt " project { }").
    split; [reflexivity|]. repeat split; repeat constructor.
  - eexists. vm_compute. reflexivity.
Qed.

(** * C5: the outcome of the parser *)

Section Outcome.
Variable objs : gmap text dict.
Variable h0 : heap.
Hypothesis Hsk : skeleton_ok objs h0.













End Outcome.




